(** * go-chat: the Store, the wire codec and the Directory admission check

    A shallow embedding of the parts of the chat client and of the
    directory service that carry the specified behaviour:

    - [client/domain]: [User], [Message], [Chat] and [Chat.GetUser];
    - [client/infra/data/inmemory]: the in-memory store ([AddChatLine],
      [RefreshUsers], [buildChat], [storeChat]);
    - [client/infra/socket/conn]: the frame writer [writeToConn], the
      frame reader [ReadNetworkMessage] and the read loop of [Start];
    - [client/infra/socket]: the address and the port of the socket
      ([findIp], [listenOnAvailablePort]) and its table of connections
      ([handleNewConn], [getConns], [storeConn], [removeConn]);
    - [client/infra/http/directory] and [client/cmd/client]: [Ping],
      [Users], the current user of [main] and [loadClients];
    - [client/infra/tui]: the list [CList] and the message field;
    - [directory/domain], [directory/app] and [directory/infra/http]:
      [Client.Validate], the registry and [ServeHTTP] with its two
      handlers.

    A call is modelled as it runs from its start to its return; what it
    asks of a connection, a socket or a widget it does not own is
    recorded as an event or taken as a parameter.

    Go strings are byte strings: they are modelled by [string] (a list of
    8-bit [ascii]); [[]byte] is [list Byte.byte]; Go's [int] is [Z];
    [map[string]T] is [gmap string T]. *)

From Stdlib Require Import ZArith List String Ascii Strings.Byte Lia Sorting Permutation.
From stdpp Require Import gmap strings list fin_maps sorting.
Import ListNotations.

Local Open Scope string_scope.
Local Open Scope Z_scope.

(* ===================================================================== *)
(** * Go library functions used by the program *)
(* ===================================================================== *)

(** ** Strings *)

Module strings.

(** The byte at the front of a Go string, as a number. *)
Definition byteZ (c : ascii) : Z := Z.of_N (N_of_ascii c).

(** Go's [s < t] on strings: bytewise lexicographic order. *)
Definition less (s t : string) : bool :=
  match String.compare s t with
  | Lt => true
  | _ => false
  end.

(** [strings.Join(elems, sep)]. *)
Fixpoint Join (elems : list string) (sep : string) : string :=
  match elems with
  | [] => ""
  | [x] => x
  | x :: rest => x +:+ sep +:+ Join rest sep
  end.

(** [s[i]], for an index within the string. *)
Definition index (s : string) (i : nat) : Z :=
  match String.get i s with
  | Some c => byteZ c
  | None => 0
  end.

(** [s[i:]] and [s[0:i]]. *)
Definition from (i : nat) (s : string) : string :=
  String.substring i (String.length s - i) s.
Definition upto (i : nat) (s : string) : string := String.substring 0 i s.

(** No byte of [s] is [c]: [strings.IndexByte(s, c) < 0]. *)
Fixpoint without (c : ascii) (s : string) : bool :=
  match s with
  | "" => true
  | String b rest => negb (Ascii.eqb b c) && without c rest
  end.

End strings.

(** ** unicode/utf8 and unicode *)

Module utf8.
Import strings.

Definition RuneError : Z := 65533.
Definition RuneSelf : Z := 128.
Definition UTFMax : Z := 4.

(** The continuation-byte mask [maskx] and the two bounds
    [locb], [hicb]. *)
Definition maskx : Z := 63.
Definition locb : Z := 128.
Definition hicb : Z := 191.

(** The table [first], read as: the length of the sequence a first byte
    announces and the range its second byte must lie in; [None] for
    the bytes that start no sequence ([xx]).  ASCII bytes are handled
    before the table is consulted. *)
Definition first (s0 : Z) : option (nat * (Z * Z)) :=
  if s0 <? 194 then None
  else if s0 <=? 223 then Some (2%nat, (locb, hicb))
  else if s0 =? 224 then Some (3%nat, (160, hicb))
  else if s0 <=? 236 then Some (3%nat, (locb, hicb))
  else if s0 =? 237 then Some (3%nat, (locb, 159))
  else if s0 <=? 239 then Some (3%nat, (locb, hicb))
  else if s0 =? 240 then Some (4%nat, (144, hicb))
  else if s0 <=? 243 then Some (4%nat, (locb, hicb))
  else if s0 =? 244 then Some (4%nat, (locb, 143))
  else None.

(** [utf8.DecodeRuneInString]: the rune at the front of [s] and its
    width in bytes; [(RuneError, 1)] for an invalid sequence. *)
Definition DecodeRuneInString (s : string) : Z * nat :=
  let n := String.length s in
  if (n <? 1)%nat then (RuneError, 0%nat)
  else
    let s0 := index s 0 in
    if s0 <? RuneSelf then (s0, 1%nat)
    else
      match first s0 with
      | None => (RuneError, 1%nat)
      | Some (sz, (lo, hi)) =>
          if (n <? sz)%nat then (RuneError, 1%nat)
          else
            let s1 := index s 1 in
            if (s1 <? lo) || (hi <? s1) then (RuneError, 1%nat)
            else if (sz <=? 2)%nat then
              (Z.lor (Z.shiftl (Z.land s0 31) 6) (Z.land s1 maskx), 2%nat)
            else
              let s2 := index s 2 in
              if (s2 <? locb) || (hicb <? s2) then (RuneError, 1%nat)
              else if (sz <=? 3)%nat then
                (Z.lor (Z.lor (Z.shiftl (Z.land s0 15) 12)
                              (Z.shiftl (Z.land s1 maskx) 6))
                       (Z.land s2 maskx), 3%nat)
              else
                let s3 := index s 3 in
                if (s3 <? locb) || (hicb <? s3) then (RuneError, 1%nat)
                else
                  (Z.lor (Z.lor (Z.lor (Z.shiftl (Z.land s0 7) 18)
                                       (Z.shiftl (Z.land s1 maskx) 12))
                                (Z.shiftl (Z.land s2 maskx) 6))
                         (Z.land s3 maskx), 4%nat)
      end.

(** [utf8.RuneStart]. *)
Definition RuneStart (b : Z) : bool := negb (Z.land b 192 =? 128).

(** The backwards search of [DecodeLastRuneInString] for the first byte
    of the last rune: from [start] down to [lim], at most [steps]
    bytes. *)
Fixpoint findStart (steps : nat) (s : string) (start lim : Z) : Z :=
  match steps with
  | O => start
  | S steps =>
      if start <? lim then start
      else if RuneStart (index s (Z.to_nat start)) then start
      else findStart steps s (start - 1) lim
  end.

(** [utf8.DecodeLastRuneInString]. *)
Definition DecodeLastRuneInString (s : string) : Z * nat :=
  let end_ := Z.of_nat (String.length s) in
  if end_ =? 0 then (RuneError, 0%nat)
  else
    let start := end_ - 1 in
    let r := index s (Z.to_nat start) in
    if r <? RuneSelf then (r, 1%nat)
    else
      let lim := if end_ - UTFMax <? 0 then 0 else end_ - UTFMax in
      let start := findStart 4 s (start - 1) lim in
      let start := if start <? 0 then 0 else start in
      let '(r, size) :=
        DecodeRuneInString (from (Z.to_nat start) s) in
      if negb (start + Z.of_nat size =? end_) then (RuneError, 1%nat)
      else (r, size).

End utf8.

Module unicode.

(** [unicode.IsSpace]: the Latin-1 cases, then the [White_Space] range
    table. *)
Definition IsSpace (r : Z) : bool :=
  if (0 <=? r) && (r <=? 255) then
    (r =? 9) || (r =? 10) || (r =? 11) || (r =? 12) || (r =? 13)
    || (r =? 32) || (r =? 133) || (r =? 160)
  else
    (r =? 5760) || ((8192 <=? r) && (r <=? 8202))
    || (r =? 8232) || (r =? 8233) || (r =? 8239) || (r =? 8287)
    || (r =? 12288).

End unicode.

(** ** strings.TrimSpace *)

Module trim.
Import strings.

Section TrimFunc.
Variable f : Z → bool.

(** [indexFunc(s, f, false)] followed by [s[i:]], as in
    [TrimLeftFunc]: the runes of [s] are dropped while [f] holds. *)
Fixpoint trimLeft (fuel : nat) (s : string) : string :=
  match fuel with
  | O => ""
  | S fuel =>
      match s with
      | "" => ""
      | _ =>
          let '(r, size) := utf8.DecodeRuneInString s in
          if f r then trimLeft fuel (from size s) else s
      end
  end.

Definition TrimLeftFunc (s : string) : string :=
  trimLeft (String.length s) s.

(** [lastIndexFunc(s, f, false)]; [-1] when every rune satisfies
    [f]. *)
Fixpoint lastIndex (fuel : nat) (s : string) (i : Z) : Z :=
  match fuel with
  | O => -1
  | S fuel =>
      if i >? 0 then
        let '(r, size) :=
          utf8.DecodeLastRuneInString (upto (Z.to_nat i) s) in
        let i := i - Z.of_nat size in
        if f r then lastIndex fuel s i else i
      else -1
  end.

Definition lastIndexFunc (s : string) : Z :=
  lastIndex (String.length s) s (Z.of_nat (String.length s)).

Definition TrimRightFunc (s : string) : string :=
  let i := lastIndexFunc s in
  let i :=
    if (i >=? 0) && (index s (Z.to_nat i) >=? utf8.RuneSelf) then
      let '(_, wid) := utf8.DecodeRuneInString (from (Z.to_nat i) s) in
      i + Z.of_nat wid
    else i + 1 in
  upto (Z.to_nat i) s.

Definition TrimFunc (s : string) : string :=
  TrimRightFunc (TrimLeftFunc s).
End TrimFunc.

(** The table [asciiSpace]. *)
Definition asciiSpace (c : Z) : bool :=
  (c =? 9) || (c =? 10) || (c =? 11) || (c =? 12) || (c =? 13) || (c =? 32).

(** The second loop of [TrimSpace]: [s] is [s[start:]] and [stop]
    counts down from its length. *)
Fixpoint trimStop (s : string) (stop : nat) : string :=
  match stop with
  | O => upto 0 s
  | S stop' =>
      let c := index s stop' in
      if c >=? utf8.RuneSelf then TrimRightFunc unicode.IsSpace (upto stop s)
      else if asciiSpace c then trimStop s stop'
      else upto stop s
  end.

(** [strings.TrimSpace]: the first loop walks over the leading ASCII
    space and hands over to the rune-wise functions at the first
    non-ASCII byte. *)
Fixpoint TrimSpace (s : string) : string :=
  match s with
  | "" => trimStop s 0
  | String c rest =>
      if byteZ c >=? utf8.RuneSelf then TrimFunc unicode.IsSpace s
      else if asciiSpace (byteZ c) then TrimSpace rest
      else trimStop s (String.length s)
  end.

(** ** Strings of ASCII bytes *)

Fixpoint isASCII (s : string) : bool :=
  match s with
  | "" => true
  | String c rest => (byteZ c <? utf8.RuneSelf) && isASCII rest
  end.

Fixpoint allAsciiSpace (s : string) : bool :=
  match s with
  | "" => true
  | String c rest => asciiSpace (byteZ c) && allAsciiSpace rest
  end.

End trim.

(** ** Errors *)

Module errors.

(** The two errors of [strconv]. *)
Inductive numErr : Type := ErrSyntax | ErrRange.

(** The error values the programs below produce or pass on. *)
Inductive error : Type :=
| EOF
| ErrUnexpectedEOF
| NumError (Func Num : string) (Err : numErr)
| Errorf_d (format : string) (n : Z)
| Errorf_s (format : string) (e : error)
| New (text : string).

Definition numErrText (e : numErr) : string :=
  match e with
  | ErrSyntax => "invalid syntax"
  | ErrRange => "value out of range"
  end.

Section Error.
(** [strconv.Quote] and the decimal rendering of [%d] are taken as
    given. *)
Variable Quote : string → string.
Variable Itoa : Z → string.

(** [err.Error()]: [io.EOF], [io.ErrUnexpectedEOF], a
    [*strconv.NumError], [fmt.Errorf] with a format that ends in
    [%d] or in [%s], and [errors.New]. *)
Fixpoint Error (e : error) : string :=
  match e with
  | EOF => "EOF"
  | ErrUnexpectedEOF => "unexpected EOF"
  | NumError fn num err =>
      "strconv." +:+ fn +:+ ": parsing " +:+ Quote num +:+ ": "
        +:+ numErrText err
  | Errorf_d format n => format +:+ Itoa n
  | Errorf_s format e => format +:+ Error e
  | New text => text
  end.
End Error.

End errors.

(** ** fmt and strconv *)

Module fmt.
Import strings.

Definition digit (d : Z) : ascii := ascii_of_N (Z.to_N (48 + d)).

(** The digit loop of [fmtInteger] in base ten: the digits of [u] are
    written from the least significant one, in front of [buf].  A
    64-bit number has at most twenty of them. *)
Fixpoint fmtDigits (fuel : nat) (u : Z) (buf : string) : string :=
  match fuel with
  | O => buf
  | S fuel =>
      if u >=? 10 then
        let next := u / 10 in
        fmtDigits fuel next (String (digit (u - next * 10)) buf)
      else String (digit u) buf
  end.

(** The zero padding of [fmtInteger]: up to [prec] digits. *)
Fixpoint padZeros (n : nat) (buf : string) : string :=
  match n with
  | O => buf
  | S n => padZeros n (String "0" buf)
  end.

(** [fmt.Sprintf("%05d", n)]: with the zero flag the width becomes the
    precision, less one when a sign is written. *)
Definition Sprintf_05d (n : Z) : string :=
  let negative := n <? 0 in
  let u := Z.abs n in
  let prec := if negative then 4%nat else 5%nat in
  let buf := fmtDigits 20 u "" in
  let buf := padZeros (prec - String.length buf) buf in
  if negative then String "-" buf else buf.

(** [fmt.Sprintf("%d", n)]: a sign for a negative number, then the
    digits. *)
Definition Sprintf_d (n : Z) : string :=
  let buf := fmtDigits 20 (Z.abs n) "" in
  if n <? 0 then String "-" buf else buf.

End fmt.

Module strconv.
Import strings errors.

Definition fnAtoi : string := "Atoi".

Definition syntaxError (fn str : string) : error := NumError fn str ErrSyntax.
Definition rangeError (fn str : string) : error := NumError fn str ErrRange.

(** The digit loop of the fast path of [Atoi]; [ch -= '0'] is a byte
    subtraction, so a byte below ['0'] wraps around to a large one. *)
Fixpoint atoiDigits (s : string) (n : Z) : option Z :=
  match s with
  | "" => Some n
  | String ch rest =>
      let ch := (byteZ ch - 48) mod 256 in
      if ch >? 9 then None else atoiDigits rest (n * 10 + ch)
  end.

Definition maxUint64 : Z := 18446744073709551615.

(** The digit loop of [ParseUint(s, 10, 64)]. *)
Fixpoint parseUintDigits (s : string) (n : Z) : Z + numErr :=
  match s with
  | "" => inl n
  | String c rest =>
      let c := byteZ c in
      if (48 <=? c) && (c <=? 57) then
        let d := c - 48 in
        if n >=? maxUint64 / 10 + 1 then inr ErrRange
        else
          let n1 := n * 10 + d in
          if n1 >? maxUint64 then inr ErrRange
          else parseUintDigits rest n1
      else inr ErrSyntax
  end.

(** [ParseInt(s, 10, 0)] on a 64-bit platform, with the function name
    of the error already replaced as [Atoi] does. *)
Definition parseInt (s0 : string) : Z + error :=
  match s0 with
  | "" => inr (syntaxError fnAtoi s0)
  | String c rest =>
      let neg := byteZ c =? 45 in
      let s := if (byteZ c =? 43) || neg then rest else s0 in
      match s with
      | "" => inr (syntaxError fnAtoi s0)
      | _ =>
          match parseUintDigits s 0 with
          | inr e => inr (NumError fnAtoi s0 e)
          | inl un =>
              let cutoff := 9223372036854775808 in
              if negb neg && (un >=? cutoff) then inr (rangeError fnAtoi s0)
              else if neg && (un >? cutoff) then inr (rangeError fnAtoi s0)
              else inl (if neg then - un else un)
          end
      end
  end.

(** [strconv.Atoi] on a 64-bit platform: strings of fewer than nineteen
    bytes take the fast path. *)
Definition Atoi (s : string) : Z + error :=
  let sLen := String.length s in
  if ((0 <? sLen) && (sLen <? 19))%nat then
    let s0 := s in
    match s with
    | "" => inr (syntaxError fnAtoi s0)
    | String c rest =>
        let signed := (byteZ c =? 45) || (byteZ c =? 43) in
        let s := if signed then rest else s in
        if signed && (String.length s <? 1)%nat
        then inr (syntaxError fnAtoi s0)
        else
          match atoiDigits s 0 with
          | None => inr (syntaxError fnAtoi s0)
          | Some n => inl (if byteZ c =? 45 then - n else n)
          end
    end
  else parseInt s.

(** ** Decimal numerals *)

Definition isDigit (c : ascii) : bool := (48 <=? byteZ c) && (byteZ c <=? 57).

Fixpoint allDigits (s : string) : bool :=
  match s with
  | "" => true
  | String c rest => isDigit c && allDigits rest
  end.

(** The number a string of digits denotes, continuing from [n]. *)
Fixpoint decimalValue (s : string) (n : Z) : Z :=
  match s with
  | "" => n
  | String c rest => decimalValue rest (n * 10 + (byteZ c - 48))
  end.

(** A decimal numeral: digits, at least one, after an optional sign. *)
Definition isDecimal (s : string) : bool :=
  match s with
  | "" => false
  | String c rest =>
      if (byteZ c =? 45) || (byteZ c =? 43)
      then negb (String.length rest =? 0)%nat && allDigits rest
      else allDigits s
  end.

(** The number a decimal numeral denotes. *)
Definition decimal (s : string) : Z :=
  match s with
  | "" => 0
  | String c rest =>
      if byteZ c =? 45 then - decimalValue rest 0
      else if byteZ c =? 43 then decimalValue rest 0
      else decimalValue s 0
  end.

End strconv.

(** ** io *)

Module io.
Import errors.

(** A reader is the sequence of bytes it still delivers before the end
    of the stream.

    [ReadFull(r, buf)] for a buffer of [len] bytes: the bytes placed in
    the buffer, their number, the error and the reader afterwards.  A
    buffer of length zero is filled without reading; a stream that ends
    before the first byte gives [EOF], one that ends later
    [ErrUnexpectedEOF]. *)
Definition ReadFull (r : list byte) (len : nat)
  : list byte * nat * option error * list byte :=
  match len with
  | O => ([], 0%nat, None, r)
  | _ =>
      match r with
      | [] => ([], 0%nat, Some EOF, [])
      | _ =>
          if (List.length r <? len)%nat
          then (r, List.length r, Some ErrUnexpectedEOF, [])
          else (take len r, len, None, drop len r)
      end
  end.

End io.

(** ** sort *)

Module sort.

Section Insertion.
Context {A : Type} (less : A → A → bool).

(** One pass of the inner loop of the insertion sort: the new element
    ends up in front of the first element it is strictly less than,
    hence behind every element it is equal to. *)
Fixpoint insert (x : A) (data : list A) : list A :=
  match data with
  | [] => [x]
  | y :: rest => if less x y then x :: y :: rest else y :: insert x rest
  end.

(** [sort.Slice(data, less)]: the elements are taken from left to right
    and inserted into the sorted prefix.  Go sorts slices of fewer than
    twelve elements this way and longer ones by pattern-defeating
    quicksort; both return a permutation of the input that is ordered
    by [less], which is all the store relies on. *)
Definition Slice (data : list A) : list A :=
  fold_left (fun sorted x => insert x sorted) data [].
End Insertion.

(** With respect to [less], [x] does not come after [y]. *)
Definition notAfter {A : Type} (less : A → A → bool) (x y : A) : Prop :=
  less y x = false.

(** [sort.Strings(x)]. *)
Definition Strings (x : list string) : list string := Slice strings.less x.

End sort.

(** ** encoding/base64 *)

Module base64.

Definition encodeStd : string :=
  "ABCDEFGHIJKLMNOPQRSTUVWXYZabcdefghijklmnopqrstuvwxyz0123456789+/".

Definition StdPadding : ascii := "="%char.

(** [enc.encode[v]] for a six-bit [v]. *)
Definition encode (v : Z) : ascii :=
  match String.get (Z.to_nat v) encodeStd with
  | Some c => c
  | None => StdPadding
  end.

(** [base64.StdEncoding.EncodeToString(src)]: three source bytes give
    four characters; a last block of one or two bytes is padded. *)
Fixpoint EncodeToString (src : string) : string :=
  match src with
  | "" => ""
  | String b0 "" =>
      let val := Z.shiftl (strings.byteZ b0) 16 in
      String (encode (Z.land (Z.shiftr val 18) 63))
        (String (encode (Z.land (Z.shiftr val 12) 63))
           (String StdPadding (String StdPadding "")))
  | String b0 (String b1 "") =>
      let val :=
        Z.lor (Z.shiftl (strings.byteZ b0) 16) (Z.shiftl (strings.byteZ b1) 8) in
      String (encode (Z.land (Z.shiftr val 18) 63))
        (String (encode (Z.land (Z.shiftr val 12) 63))
           (String (encode (Z.land (Z.shiftr val 6) 63))
              (String StdPadding "")))
  | String b0 (String b1 (String b2 rest)) =>
      let val :=
        Z.lor (Z.lor (Z.shiftl (strings.byteZ b0) 16)
                     (Z.shiftl (strings.byteZ b1) 8))
              (strings.byteZ b2) in
      String (encode (Z.land (Z.shiftr val 18) 63))
        (String (encode (Z.land (Z.shiftr val 12) 63))
           (String (encode (Z.land (Z.shiftr val 6) 63))
              (String (encode (Z.land val 63)) (EncodeToString rest))))
  end.

End base64.

(** ** time *)

Module time.

(** A [time.Time] is modelled by the instant it denotes: seconds and
    nanoseconds within the second.  The location and the monotonic clock
    reading a Go value may carry besides are left out. *)
Record Time : Type := { sec : Z; nsec : Z }.

(** [t.Before(u)]. *)
Definition Before (t u : Time) : bool :=
  (sec t <? sec u) || ((sec t =? sec u) && (nsec t <? nsec u)).

(** [t] is not later than [u]. *)
Definition le (t u : Time) : Prop :=
  sec t < sec u ∨ (sec t = sec u ∧ nsec t <= nsec u).

#[global] Instance Time_eq_dec : EqDecision Time.
Proof. solve_decision. Defined.

End time.

(* ===================================================================== *)
(** * client/domain *)
(* ===================================================================== *)

Module domain.

Record User : Type := {
  User_Id : string;
  User_Name : string;
  User_Address : string;
  User_Port : Z
}.

Record Message : Type := {
  Message_ChatId : string;
  Message_UserId : string;
  Message_UserName : string;
  Message_Text : string;
  Message_At : time.Time;
  Message_ErrorMessage : bool
}.

Record Chat : Type := {
  Chat_Id : string;
  Chat_OwnerUser : User;
  Chat_Users : list User;
  Chat_Content : list Message;
  Chat_Offline : bool
}.

Definition set_UserName (m : Message) (name : string) : Message :=
  {| Message_ChatId := Message_ChatId m;
     Message_UserId := Message_UserId m;
     Message_UserName := name;
     Message_Text := Message_Text m;
     Message_At := Message_At m;
     Message_ErrorMessage := Message_ErrorMessage m |}.

Definition set_Content (c : Chat) (content : list Message) : Chat :=
  {| Chat_Id := Chat_Id c;
     Chat_OwnerUser := Chat_OwnerUser c;
     Chat_Users := Chat_Users c;
     Chat_Content := content;
     Chat_Offline := Chat_Offline c |}.

Definition set_Offline (c : Chat) (offline : bool) : Chat :=
  {| Chat_Id := Chat_Id c;
     Chat_OwnerUser := Chat_OwnerUser c;
     Chat_Users := Chat_Users c;
     Chat_Content := Chat_Content c;
     Chat_Offline := offline |}.

(** [Chat.GetOtherUsers]. *)
Definition GetOtherUsers (c : Chat) : list User := Chat_Users c.

(** The loop of [Chat.GetUser]: the first remote user with the id. *)
Fixpoint findUser (users : list User) (id : string) : option User :=
  match users with
  | [] => None
  | u :: rest => if String.eqb (User_Id u) id then Some u else findUser rest id
  end.

(** [Chat.GetUser]: [None] stands for [ChatUserNotFoundErr]. *)
Definition GetUser (c : Chat) (id : string) : option User :=
  match findUser (Chat_Users c) id with
  | Some u => Some u
  | None =>
      if String.eqb id (User_Id (Chat_OwnerUser c))
      then Some (Chat_OwnerUser c)
      else None
  end.

(** [Chat.GetAllUsers]. *)
Definition GetAllUsers (c : Chat) : list User :=
  Chat_Users c ++ [Chat_OwnerUser c].

End domain.

(* ===================================================================== *)
(** * client/infra/data and client/infra/data/inmemory: the store *)
(* ===================================================================== *)

Module data.

(** The three sentinel errors of the package; the first two are wrapped
    by the store together with the ids they are about. *)
Inductive StoreError : Type :=
| ChatNotFoundErr (chatId : string)
| UserNotInChatErr (userId chatId : string)
| WrongNewChatUsersErr.

End data.

Module inmemory.
Import domain data.

(** The fields of [store] that hold data.  The mutexes, the listener
    lists and the two notification channels are left out: the
    operations below run under the store's lock, and a notification is
    a non-blocking send that changes neither field. *)
Record store : Type := {
  currentUser : User;
  chats : gmap string Chat
}.

Definition set_chats (s : store) (m : gmap string Chat) : store :=
  {| currentUser := currentUser s; chats := m |}.

(** [NewStore]. *)
Definition NewStore (currentUser : User) : store :=
  {| currentUser := currentUser; chats := ∅ |}.

Definition CurrentUser (s : store) : User := currentUser s.

Definition GetChats (s : store) : gmap string Chat := chats s.

Definition GetChat (s : store) (chatId : string) : Chat + StoreError :=
  match chats s !! chatId with
  | Some c => inl c
  | None => inr (ChatNotFoundErr chatId)
  end.

(** The comparison handed to [sort.Slice] by [AddChatLine]. *)
Definition lessAt (a b : Message) : bool :=
  time.Before (Message_At a) (Message_At b).

(** [AddChatLine]: the store after the call and the error, if any. *)
Definition AddChatLine (s : store) (message : Message)
  : store * option StoreError :=
  match chats s !! Message_ChatId message with
  | None => (s, Some (ChatNotFoundErr (Message_ChatId message)))
  | Some c =>
      match GetUser c (Message_UserId message) with
      | None =>
          (s, Some (UserNotInChatErr (Message_UserId message)
                                     (Message_ChatId message)))
      | Some u =>
          let message := set_UserName message (User_Name u) in
          let content := sort.Slice lessAt (Chat_Content c ++ [message]) in
          let c := set_Content c content in
          (set_chats s (<[Message_ChatId message := c]> (chats s)), None)
      end
  end.

(** The loop of [buildChat] over the supplied users: their ids, unless
    one of them is the current user's. *)
Fixpoint collectIds (current : string) (users : list User)
  : option (list string) :=
  match users with
  | [] => Some []
  | u :: rest =>
      if String.eqb (User_Id u) current then None
      else match collectIds current rest with
           | Some ids => Some (User_Id u :: ids)
           | None => None
           end
  end.

(** The id of a chat, from the ids of its participants. *)
Definition chatIdOf (userIds : list string) : string :=
  base64.EncodeToString (strings.Join (sort.Strings userIds) "_").

(** [buildChat]. *)
Definition buildChat (s : store) (users : list User) : Chat + StoreError :=
  match collectIds (User_Id (currentUser s)) users with
  | None => inr WrongNewChatUsersErr
  | Some ids =>
      let userIds := User_Id (currentUser s) :: ids in
      inl {| Chat_Id := chatIdOf userIds;
             Chat_OwnerUser := currentUser s;
             Chat_Users := users;
             Chat_Content := [];
             Chat_Offline := false |}
  end.

(** [storeChat]: a chat already stored under the id keeps its content. *)
Definition storeChat (s : store) (chat : Chat) : store :=
  let chat :=
    match chats s !! Chat_Id chat with
    | Some c => set_Content chat (Chat_Content c)
    | None => chat
    end in
  set_chats s (<[Chat_Id chat := chat]> (chats s)).

(** The first loop of [RefreshUsers].  [snapshot] is the copy of the
    chats taken by [GetChats] on entry, from which the chats of the
    listed users are struck out. *)
Fixpoint refreshListed (users : list User) (snapshot : gmap string Chat)
    (s : store) : gmap string Chat * store * option StoreError :=
  match users with
  | [] => (snapshot, s, None)
  | u :: rest =>
      if String.eqb (User_Id u) (User_Id (CurrentUser s))
      then refreshListed rest snapshot s
      else match buildChat s [u] with
           | inr err => (snapshot, s, Some err)
           | inl chat =>
               refreshListed rest (delete (Chat_Id chat) snapshot)
                             (storeChat s chat)
           end
  end.

(** The second loop of [RefreshUsers], over the chats left in the
    snapshot, in the order [range] in which the map yields them. *)
Definition markOffline (range : list Chat) (s : store) : store :=
  fold_left (fun s c => storeChat s (set_Offline c true)) range s.

(** [RefreshUsers], for a given iteration order of Go's [range] over the
    snapshot. *)
Definition RefreshUsersIn (range : gmap string Chat → list Chat)
    (s : store) (users : list User) : store * option StoreError :=
  match refreshListed users (GetChats s) s with
  | (_, s', Some err) => (s', Some err)
  | (remaining, s', None) => (markOffline (range remaining) s', None)
  end.

(** [RefreshUsers] with the snapshot traversed in the order of
    [map_to_list]; by [RefreshUsersIn_order] below every other order
    gives the same store. *)
Definition RefreshUsers (s : store) (users : list User)
  : store * option StoreError :=
  RefreshUsersIn (fun m => (map_to_list m).*2) s users.

(** ** Vocabulary of the properties of the store *)

(** An iteration order of [range] over a map: some arrangement of its
    values. *)
Definition rangeOrder (range : gmap string Chat → list Chat) : Prop :=
  ∀ m, range m ≡ₚ (map_to_list m).*2.

(** Every chat is stored under its own id. *)
Definition store_wf (s : store) : Prop :=
  ∀ k c, chats s !! k = Some c → Chat_Id c = k.

(** The stores a client can be in: it starts from [NewStore] and is
    changed by [AddChatLine] and [RefreshUsers] only. *)
Inductive reachable (cu : User) : store → Prop :=
| reachable_new : reachable cu (NewStore cu)
| reachable_add s message :
    reachable cu s → reachable cu (AddChatLine s message).1
| reachable_refresh s users range :
    reachable cu s → rangeOrder range →
    reachable cu (RefreshUsersIn range s users).1.

(** The content of a chat is in non-decreasing order of [At]. *)
Definition contentSorted (c : Chat) : Prop :=
  StronglySorted (λ a b, time.le (Message_At a) (Message_At b))
                 (Chat_Content c).

(** The id of the pair chat of the current user [current] with [u]. *)
Definition pairChatId (current : User) (u : User) : string :=
  chatIdOf [User_Id current; User_Id u].

(** The last user of the list, other than the current one, whose pair chat
    has the id [k]. *)
Fixpoint lastListed (current : User) (users : list User) (k : string)
  : option User :=
  match users with
  | [] => None
  | u :: rest =>
      match lastListed current rest k with
      | Some u' => Some u'
      | None =>
          if negb (String.eqb (User_Id u) (User_Id current))
             && String.eqb (pairChatId current u) k
          then Some u else None
      end
  end.

(** The chat that the first loop of [RefreshUsers] leaves under [k] for
    the listed user [u]: it keeps the content stored under [k]. *)
Definition listedChat (s : store) (k : string) (u : User) : Chat :=
  {| Chat_Id := k;
     Chat_OwnerUser := currentUser s;
     Chat_Users := [u];
     Chat_Content := from_option Chat_Content [] (chats s !! k);
     Chat_Offline := false |}.

(** The stores that [s] can become by further calls of [AddChatLine] and
    [RefreshUsers]. *)
Inductive evolves (s : store) : store → Prop :=
| evolves_refl : evolves s s
| evolves_add s' message :
    evolves s s' → evolves s (AddChatLine s' message).1
| evolves_refresh s' users range :
    evolves s s' → rangeOrder range →
    evolves s (RefreshUsersIn range s' users).1.

(** The chat is the pair chat of [current] with one remote user. *)
Definition pairChatOf (current : User) (c : Chat) : Prop :=
  Chat_OwnerUser c = current
  ∧ ∃ u, Chat_Users c = [u]
         ∧ User_Id u ≠ User_Id current
         ∧ Chat_Id c = pairChatId current u.

(** The message is addressed to the chat [k] of [current], by [current]
    or by a user whose pair chat with [current] is [k]. *)
Definition addressedTo (current : User) (k : string) (m : Message) : Prop :=
  Message_ChatId m = k
  ∧ (Message_UserId m = User_Id current
     ∨ ∃ u, Message_UserId m = User_Id u
            ∧ User_Id u ≠ User_Id current
            ∧ pairChatId current u = k).

End inmemory.

(* ===================================================================== *)
(** * client/infra/socket/conn: the wire codec *)
(* ===================================================================== *)

Module conn.
Import errors.

Record NetworkMsg : Type := {
  UserId : string;
  ChatId : string;
  Message : string;
  At : time.Time
}.

(** A call either returns or panics. *)
Inductive outcome (A : Type) : Type :=
| Returns (a : A)
| Panics (reason : string).
Arguments Returns {A} a.
Arguments Panics {A} reason.

(** [math.MaxUint16]. *)
Definition MaxUint16 : Z := 65535.

(** The message [writeToConn] puts on the wire for a chat line. *)
Definition networkMsgOf (m : domain.Message) : NetworkMsg :=
  {| UserId := domain.Message_UserId m;
     ChatId := domain.Message_ChatId m;
     Message := domain.Message_Text m;
     At := domain.Message_At m |}.

(** The two texts of [ReadNetworkMessage]'s own errors. *)
Definition wrongHeaderLength : string :=
  "wrong number of bytes read for determining the size of the payload. read ".
Definition sizeUnparseable : string :=
  "invalid content message as the size of the message is unparseable: ".

Section Gob.
(** The payload codec, [encoding/gob]: what
    [gob.NewEncoder(&b).Encode(msg)] leaves in the buffer and what
    [gob.NewDecoder(bytes.NewReader(msg)).Decode(&m)] makes of a
    payload. *)
Variable gobEncode : NetworkMsg → list byte + error.
Variable gobDecode : list byte → NetworkMsg + error.

(** [writeToConn] on an established connection: the bytes handed to
    [conn.Write], or [None] when the message is dropped (and
    logged). *)
Definition writeToConn (m : domain.Message) : option (list byte) :=
  match gobEncode (networkMsgOf m) with
  | inr _ => None
  | inl msgEncoded =>
      if Z.of_nat (List.length msgEncoded) >? MaxUint16 then None
      else
        let sizeStr := fmt.Sprintf_05d (Z.of_nat (List.length msgEncoded)) in
        Some (list_byte_of_string sizeStr ++ msgEncoded)%list
  end.

(** [ReadNetworkMessage]: the message or the error, and the reader
    afterwards.  [make([]byte, size)] panics for a negative size. *)
Definition ReadNetworkMessage (c : list byte)
  : outcome ((NetworkMsg + error) * list byte) :=
  let '(sizeRead, n, err, c) := io.ReadFull c 5 in
  match err with
  | Some err => Returns (inr err, c)
  | None =>
      if negb (n =? 5)%nat then
        Returns
          (inr (Errorf_d wrongHeaderLength (Z.of_nat n)), c)
      else
        match strconv.Atoi (string_of_list_byte sizeRead) with
        | inr err =>
            Returns (inr (Errorf_s sizeUnparseable err), c)
        | inl size =>
            if size <? 0 then Panics "makeslice: len out of range"
            else
              let '(msg, n, err, c) := io.ReadFull c (Z.to_nat size) in
              match err with
              | Some err => Returns (inr err, c)
              | None =>
                  match gobDecode msg with
                  | inr err => Returns (inr err, c)
                  | inl m => Returns (inl m, c)
                  end
              end
        end
  end.

(** The message [Start] hands to the receive callback for a network
    message: the user name and the error flag are left at their zero
    values. *)
Definition received (m : NetworkMsg) : domain.Message :=
  {| domain.Message_ChatId := ChatId m;
     domain.Message_UserId := UserId m;
     domain.Message_UserName := "";
     domain.Message_Text := Message m;
     domain.Message_At := At m;
     domain.Message_ErrorMessage := false |}.

(** How the read loop of [Start] ends: with the error of
    [ReadNetworkMessage], or in its panic. *)
Inductive ending : Type :=
| Ended (err : error)
| Panicked (reason : string).

(** The read loop of [Start] on the bytes the connection still
    delivers: the messages handed to the receive callback, in order,
    and the way the loop ends.  Every turn of the loop consumes a
    header, so that the length of the stream bounds their number; the
    result is [None] when [fuel] turns do not reach the end. *)
Fixpoint readLoop (fuel : nat) (c : list byte)
  : option (list domain.Message * ending) :=
  match fuel with
  | O => None
  | S fuel =>
      match ReadNetworkMessage c with
      | Panics reason => Some ([], Panicked reason)
      | Returns (inr err, _) => Some ([], Ended err)
      | Returns (inl m, c) =>
          match readLoop fuel c with
          | Some (ms, e) => Some (received m :: ms, e)
          | None => None
          end
      end
  end.

(** What the write loop of [Start] puts on an established connection,
    whose writes succeed, for the messages it takes from [writeChan],
    in order: the frames of the messages that are not dropped. *)
Definition written (ms : list domain.Message) : list byte :=
  concat (omap writeToConn ms).
End Gob.

End conn.

(* ===================================================================== *)
(** * directory: admission of a client record *)
(* ===================================================================== *)

Module directory.

Record Client : Type := {
  ID : string;
  Name : string;
  IP : string;
  Port : Z
}.

(** [Client.Validate]: the text of the error, [None] for [nil]. *)
Definition Validate (c : Client) : option string :=
  if (String.length (trim.TrimSpace (ID c)) =? 0)%nat then
    Some "client id empty"
  else if (String.length (trim.TrimSpace (Name c)) =? 0)%nat then
    Some "client name empty"
  else if (String.length (trim.TrimSpace (IP c)) =? 0)%nat then
    Some "client ip empty"
  else if Port c <? 1000 then
    Some "invalid client port"
  else None.

(** Modelled from the spec: the expiring registry behind [app.Clients]
    (the cache package is not among the sources) is a map from ids to
    records; [AddOrReplace] inserts the record or replaces the one with
    the same id.  Expiry is left out.

    [clientsSvc.RegisterClient] puts the record under the client's id; its
    error is always [nil]. *)
Definition RegisterClient (reg : gmap string Client) (client : Client)
  : gmap string Client * option string :=
  (<[ID client := client]> reg, None).

(** What a handler has sent when it returns; a handler that writes
    nothing answers 200 with an empty body. *)
Record Response : Type := { status : Z; body : string }.

Definition StatusOK : Z := 200.
Definition StatusBadRequest : Z := 400.
Definition StatusInternalServerError : Z := 500.

(** The request body: absent, failing while it is read, or read in
    full. *)
Inductive Body : Type :=
| BodyNil
| BodyReadError
| BodyBytes (all : string).

(** The double quote, and the body written for a rejected record: the
    error text inside a JSON object with the one key [message]. *)
Definition quote : string := String (ascii_of_nat 34) "".

Definition messageBody (reason : string) : string :=
  "{" +:+ quote +:+ "message" +:+ quote +:+ ": " +:+ quote +:+ reason
      +:+ quote +:+ "}".

(** A field is blank when nothing is left of it after [TrimSpace]. *)
Definition blank (s : string) : Prop := trim.TrimSpace s = "".

Section Ping.
(** [json.Unmarshal(all, &c)]: the decoded record, or [None] for an
    error. *)
Variable jsonUnmarshal : string → option Client.

(** The handler registered for [PUT /ping]. *)
Definition pingHandler (reg : gmap string Client) (r : Body)
  : gmap string Client * Response :=
  match r with
  | BodyNil => (reg, {| status := StatusBadRequest; body := "no body" |})
  | BodyReadError =>
      (reg, {| status := StatusBadRequest; body := "malformed body" |})
  | BodyBytes all =>
      match jsonUnmarshal all with
      | None =>
          (reg, {| status := StatusBadRequest; body := "malformed body" |})
      | Some c =>
          match Validate c with
          | Some err =>
              (reg, {| status := StatusBadRequest; body := messageBody err |})
          | None =>
              match RegisterClient reg c with
              | (reg, Some _) =>
                  (reg, {| status := StatusInternalServerError;
                           body := "error" |})
              | (reg, None) => (reg, {| status := StatusOK; body := "" |})
              end
          end
      end
  end.
End Ping.

Definition StatusNotFound : Z := 404.

(** What [ServeHTTP] looks at in a request. *)
Record Request : Type := {
  Path : string;
  Method : string;
  RequestBody : Body
}.

Section Server.
Variable jsonUnmarshal : string → option Client.
(** [json.Marshal] of the response of [GET /clients], [None] for an
    error. *)
Variable jsonMarshal : list Client → option string.
(** The order in which [range] yields the items of the registry. *)
Variable items : gmap string Client → list Client.

(** [clientsSvc.GetClients]: its error is always [nil]. *)
Definition GetClients (reg : gmap string Client)
  : list Client * option string :=
  (items reg, None).

(** The handler registered for [GET /clients]. *)
Definition clientsHandler (reg : gmap string Client) : Response :=
  match GetClients reg with
  | (_, Some _) => {| status := StatusInternalServerError; body := "error" |}
  | (clients, None) =>
      match jsonMarshal clients with
      | None => {| status := StatusInternalServerError; body := "error" |}
      | Some m => {| status := StatusOK; body := m |}
      end
  end.

(** [Handler.ServeHTTP]: the handler registered for the path and the
    method of the request, or 404. *)
Definition ServeHTTP (reg : gmap string Client) (r : Request)
  : gmap string Client * Response :=
  if String.eqb (Path r) "/clients" && String.eqb (Method r) "GET"
  then (reg, clientsHandler reg)
  else if String.eqb (Path r) "/ping" && String.eqb (Method r) "PUT"
  then pingHandler jsonUnmarshal reg (RequestBody r)
  else (reg, {| status := StatusNotFound;
                body := "server does not support the given request" |}).

(** The registries the server can hold: it starts empty and is changed
    by the requests it serves and by the expiry of records, which
    removes them. *)
Inductive served : gmap string Client → Prop :=
| served_new : served ∅
| served_request reg r : served reg → served (ServeHTTP reg r).1
| served_expired reg id : served reg → served (delete id reg).
End Server.

End directory.

(* ===================================================================== *)
(** * client/infra/socket: the address, the port and the connections *)
(* ===================================================================== *)

Module net.

(** An element of [net.InterfaceAddrs()]: an [*net.IPNet], with what
    [findIp] asks of its IP ([IsLoopback()], [To4() != nil] and
    [String()]), or an address of another type. *)
Inductive Addr : Type :=
| IPNet (isLoopback : bool) (to4 : bool) (text : string)
| OtherAddr.

(** What [net.Listen("tcp", ":"+port)] answers: a listener, an error
    that is [syscall.EADDRINUSE], or another error. *)
Inductive listenResult : Type :=
| Listening
| AddrInUse
| ListenFailed (err : errors.error).

End net.

Module socket.
Import domain errors.

(** [findIp], on what [net.InterfaceAddrs()] returned; the loop over
    the addresses. *)
Fixpoint firstIp (addrs : list net.Addr) : string + error :=
  match addrs with
  | [] => inr (New "could not figure out the IP of your machine")
  | net.IPNet false true text :: _ => inl text
  | _ :: rest => firstIp rest
  end.

Definition findIp (interfaceAddrs : list net.Addr + error) : string + error :=
  match interfaceAddrs with
  | inr err => inr err
  | inl addrs => firstIp addrs
  end.

(** What [conn.NewConnection] is given: the user, the chat, and the
    established [net.Conn], named by a number, or [None] for [nil].
    The callbacks are those of the socket and are left out. *)
Record connection : Type := {
  u : User;
  c : Chat;
  conn : option nat
}.

(** The fields of [socket] that hold data.  The store is kept beside
    the socket by the functions that use it. *)
Record socket : Type := {
  port : Z;
  ip : string;
  connections : gmap string connection
}.

(** [NewSocket]: the port is left at its zero value. *)
Definition NewSocket (interfaceAddrs : list net.Addr + error)
  : socket + error :=
  match findIp interfaceAddrs with
  | inr err => inr err
  | inl ip => inl {| port := 0; ip := ip; connections := ∅ |}
  end.

Definition AllocatedPort (s : socket) : Z := port s.
Definition LocalIP (s : socket) : string := ip s.

Definition portSeed : Z := 1000.

(** The loop of [listenOnAvailablePort] from the port [i] on, with
    [fuel] ports left to try; [listen] is what [net.Listen] answers for
    each port. *)
Fixpoint tryPorts (listen : Z → net.listenResult) (fuel : nat) (i : Z)
  : Z + error :=
  match fuel with
  | O => inr (New "no available port")
  | S fuel =>
      match listen i with
      | net.Listening => inl i
      | net.AddrInUse => tryPorts listen fuel (i + 1)
      | net.ListenFailed err => inr err
      end
  end.

(** [listenOnAvailablePort]: [for i := portSeed; i < 65535; i++]. *)
Definition listenOnAvailablePort (listen : Z → net.listenResult) : Z + error :=
  tryPorts listen (Z.to_nat (65535 - portSeed)) portSeed.

(** [Listen], as far as the fields go: the port found is kept. *)
Definition Listen (listen : Z → net.listenResult) (s : socket)
  : socket * option error :=
  match listenOnAvailablePort listen with
  | inr err => (s, Some err)
  | inl i => ({| port := i; ip := ip s; connections := connections s |}, None)
  end.

(** ** The table of connections *)

(** What a call asks of the connections and of the sockets it handles,
    in the order in which it asks: [go c.Start(ctx)], [c.Close()],
    [c.SendMessage(m)] and [establishedConn.Close()].  What a started
    connection does on its own is not part of the call. *)
Inductive event : Type :=
| Start (conn : connection)
| Close (conn : connection)
| SendMessage (conn : connection) (m : Message)
| CloseSocket (establishedConn : nat).

Definition set_connections (s : socket) (m : gmap string connection)
  : socket :=
  {| port := port s; ip := ip s; connections := m |}.

(** [storeConn] and [storeConnNoLock]: a connection already stored for
    the user is closed and replaced. *)
Definition storeConnNoLock (s : socket) (userId : string) (conn : connection)
  : socket * list event :=
  let closed :=
    match connections s !! userId with
    | Some chatConn => [Close chatConn]
    | None => []
    end in
  (set_connections s (<[userId := conn]> (connections s)), closed).

Definition storeConn (s : socket) (userId : string) (conn : connection)
  : socket * list event :=
  storeConnNoLock s userId conn.

(** The loop of [getConns] over the other users of the chat: the
    connection stored for the user, or else a new one, without a
    socket, that is stored and started. *)
Fixpoint connsOf (chat : Chat) (users : list User) (s : socket)
  : socket * list event * list connection :=
  match users with
  | [] => (s, [], [])
  | u :: rest =>
      match connections s !! User_Id u with
      | Some c =>
          let '(s, events, res) := connsOf chat rest s in
          (s, events, c :: res)
      | None =>
          let c := {| u := u; c := chat; conn := None |} in
          let '(s, closed) := storeConnNoLock s (User_Id u) c in
          let '(s, events, res) := connsOf chat rest s in
          (s, closed ++ Start c :: events, c :: res)
      end
  end%list.

(** [getConns]. *)
Definition getConns (store : inmemory.store) (s : socket) (chatId : string)
  : socket * list event * (list connection + data.StoreError) :=
  match inmemory.GetChat store chatId with
  | inr err => (s, [], inr err)
  | inl chat =>
      let '(s, events, res) := connsOf chat (GetOtherUsers chat) s in
      (s, events, inl res)
  end.

(** [handleOutgoingMessages]. *)
Definition handleOutgoingMessages (store : inmemory.store) (s : socket)
    (msg : Message) : socket * list event :=
  match getConns store s (Message_ChatId msg) with
  | (s, events, inr _) => (s, events)
  | (s, events, inl conns) =>
      (s, events ++ map (λ c, SendMessage c msg) conns)
  end%list.

(** The message handler that [RegisterStore] registers with the
    store. *)
Definition messageHandler (store : inmemory.store) (s : socket) (m : Message)
  : socket * list event :=
  if negb (String.eqb (Message_UserId m)
                      (User_Id (inmemory.CurrentUser store)))
  then (s, [])
  else handleOutgoingMessages store s m.

(** [removeConn], called at the time [now]. *)
Definition removeConn (store : inmemory.store) (s : socket) (now : time.Time)
    (u : User) (c : Chat) : inmemory.store * socket * list event :=
  let closed :=
    match connections s !! User_Id u with
    | Some chatConn => [Close chatConn]
    | None => []
    end in
  let s := set_connections s (delete (User_Id u) (connections s)) in
  let '(store, _) :=
    inmemory.AddChatLine store
      {| Message_ChatId := Chat_Id c;
         Message_UserId := User_Id u;
         Message_UserName := User_Name u;
         Message_Text := "Disconnected";
         Message_At := now;
         Message_ErrorMessage := true |} in
  (store, s, closed).

Section Gob.
Variable gobDecode : list byte → conn.NetworkMsg + error.

(** [handleNewConn] for the socket [establishedConn] that delivers the
    bytes [stream]. *)
Definition handleNewConn (store : inmemory.store) (s : socket)
    (establishedConn : nat) (stream : list byte)
  : conn.outcome (inmemory.store * socket * list event) :=
  match conn.ReadNetworkMessage gobDecode stream with
  | conn.Panics reason => conn.Panics reason
  | conn.Returns (inr _, _) => conn.Returns (store, s, [])
  | conn.Returns (inl m, _) =>
      match inmemory.GetChat store (conn.ChatId m) with
      | inr _ => conn.Returns (store, s, [CloseSocket establishedConn])
      | inl chat =>
          match GetUser chat (conn.UserId m) with
          | None => conn.Returns (store, s, [CloseSocket establishedConn])
          | Some user =>
              let c := {| u := user; c := chat;
                          conn := Some establishedConn |} in
              let '(s, closed) := storeConn s (User_Id user) c in
              let '(store, _) :=
                inmemory.AddChatLine store
                  {| Message_ChatId := conn.ChatId m;
                     Message_UserId := conn.UserId m;
                     Message_UserName := "";
                     Message_Text := conn.Message m;
                     Message_At := conn.At m;
                     Message_ErrorMessage := false |} in
              conn.Returns (store, s, Start c :: closed)
          end
      end
  end.
End Gob.

End socket.

(* ===================================================================== *)
(** * client/infra/http/directory: the client of the directory *)
(* ===================================================================== *)

Module directoryclient.
Import domain errors.

Definition pingHTTPContext : string := "ping".
Definition pingHTTPMethod : string := "PUT".
Definition clientsHTTPContext : string := "clients".
Definition clientsHTTPMethod : string := "GET".

(** An [*http.Request], as [http.NewRequestWithContext] is asked to
    build it, and what the client reads of an [*http.Response]. *)
Record Request : Type := {
  method : string;
  url : string;
  body : option string
}.

Record Response : Type := {
  StatusCode : Z;
  Body : directory.Body
}.

Definition nonSuccess : string := "non 2xx http status: ".

Section Client.
(** [json.Marshal(user)] and [json.Unmarshal(b, &res)] followed by
    [res.Clients]. *)
Variable jsonMarshal : User → string + error.
Variable jsonUnmarshal : string → list User + error.
(** [http.NewRequestWithContext], which fails for a server URL that
    cannot be parsed, and [c.h.Do]. *)
Variable NewRequest : Request → Request + error.
Variable Do : Request → Response + error.
(** The server URL given to [NewClient]. *)
Variable s : string.

(** [client.Ping]: [None] for [nil]. *)
Definition Ping (user : User) : option error :=
  match jsonMarshal user with
  | inr err => Some err
  | inl marshal =>
      match NewRequest {| method := pingHTTPMethod;
                          url := strings.Join [s; pingHTTPContext] "/";
                          body := Some marshal |} with
      | inr err => Some err
      | inl req =>
          match Do req with
          | inr err => Some err
          | inl resp =>
              if (StatusCode resp >=? 200) && (StatusCode resp <? 300)
              then None
              else Some (Errorf_d nonSuccess (StatusCode resp))
          end
      end
  end.

(** [client.Users]. *)
Definition Users : list User + error :=
  match NewRequest {| method := clientsHTTPMethod;
                      url := strings.Join [s; clientsHTTPContext] "/";
                      body := None |} with
  | inr err => inr err
  | inl request =>
      match Do request with
      | inr err => inr err
      | inl resp =>
          if negb (StatusCode resp =? 200)
          then inr (Errorf_d nonSuccess (StatusCode resp))
          else
            match Body resp with
            | directory.BodyNil => inr (New "no response from the server")
            | directory.BodyReadError =>
                inr (New "failed to read request response")
            | directory.BodyBytes b => jsonUnmarshal b
            end
      end
  end.
End Client.

(** ** Vocabulary of the properties of the heartbeat *)

(** The record the directory decodes from the JSON of a user: the
    fields of [domain.User] and of the directory's [domain.Client] have
    the same keys, [id], [name], [address] and [port]. *)
Definition clientOf (u : User) : directory.Client :=
  {| directory.ID := User_Id u;
     directory.Name := User_Name u;
     directory.IP := User_Address u;
     directory.Port := User_Port u |}.

(** The request the server sees for a heartbeat, and its response as
    the client reads it. *)
Definition pingRequest (marshal : string) : directory.Request :=
  {| directory.Path := "/ping";
     directory.Method := "PUT";
     directory.RequestBody := directory.BodyBytes marshal |}.

Definition answer (resp : directory.Response) : Response :=
  {| StatusCode := directory.status resp;
     Body := directory.BodyBytes (directory.body resp) |}.

(** The user the client decodes from the JSON of a record of the
    directory, and the request the server sees for the list. *)
Definition userOf (c : directory.Client) : User :=
  {| User_Id := directory.ID c;
     User_Name := directory.Name c;
     User_Address := directory.IP c;
     User_Port := directory.Port c |}.

Definition clientsRequest : directory.Request :=
  {| directory.Path := "/clients";
     directory.Method := "GET";
     directory.RequestBody := directory.BodyNil |}.

End directoryclient.

(* ===================================================================== *)
(** * client/cmd/client: the current user *)
(* ===================================================================== *)

Module main.
Import domain.

(** [base64.StdEncoding.EncodeToString([]byte(fmt.Sprintf("%s_%d", ip,
    port)))]. *)
Definition currentUserId (ip : string) (port : Z) : string :=
  base64.EncodeToString (ip +:+ "_" +:+ fmt.Sprintf_d port).

(** The user [main] hands to [inmemory.NewStore], from the socket that
    [socket.NewSocket] returned and the user name of the
    environment. *)
Definition currentUser (so : socket.socket) (currentUserName : string)
  : User :=
  {| User_Id := currentUserId (socket.LocalIP so) (socket.AllocatedPort so);
     User_Name := currentUserName;
     User_Address := socket.LocalIP so;
     User_Port := socket.AllocatedPort so |}.

(** [MustEnv], on the value of the variable. *)
Definition MustEnv (key value : string) : conn.outcome string :=
  let e := trim.TrimSpace value in
  if (String.length e =? 0)%nat
  then conn.Panics ("missing " +:+ key +:+ " env var")
  else conn.Returns e.

(** [loadClients]: the store after a sync with the directory, for what
    [dc.Users] returned; an error is logged and nothing else. *)
Definition loadClients (range : gmap string Chat → list Chat)
    (users : list User + errors.error) (store : inmemory.store)
  : inmemory.store :=
  match users with
  | inr _ => store
  | inl users => (inmemory.RefreshUsersIn range store users).1
  end.

End main.

(* ===================================================================== *)
(** * client/infra/tui: the list of chats and the message field *)
(* ===================================================================== *)

Module tui.
Import domain.

Section CList.
Context {T : Type}.
Variable itemTextGenerator : T → string * string.

(** [clistItem]; [idx] is only ever set from [len(c.itemsIndexes)]. *)
Record clistItem : Type := {
  idx : nat;
  obj : T;
  unread : bool
}.

(** [clistItem.getMainText]. *)
Definition getMainText (ci : clistItem) (mainText : string) : string :=
  if negb (unread ci) then mainText else "# " +:+ mainText.

(** [CList]: the embedded [*tview.List], as the main and secondary
    texts of its rows, and the two fields of the list itself. *)
Record CList : Type := {
  List : list (string * string);
  items : gmap string clistItem;
  itemsIndexes : list string
}.

(** [NewCustomList]. *)
Definition NewCustomList : CList :=
  {| List := []; items := ∅; itemsIndexes := [] |}.

(** [tview.List.SetItemText]: it panics for an index out of range. *)
Definition SetItemText (l : list (string * string)) (index : nat)
    (main secondary : string) : conn.outcome (list (string * string)) :=
  if (index <? length l)%nat
  then conn.Returns (<[index := (main, secondary)]> l)
  else conn.Panics "index out of range".

(** [CList.AddItem]. *)
Definition AddItem (c : CList) (id : string) (item : T) : conn.outcome CList :=
  match items c !! id with
  | Some listItem =>
      let listItem :=
        {| idx := idx listItem; obj := item; unread := unread listItem |} in
      let items := <[id := listItem]> (items c) in
      let '(mainText, secText) := itemTextGenerator item in
      match SetItemText (List c) (idx listItem)
                        (getMainText listItem mainText) secText with
      | conn.Panics reason => conn.Panics reason
      | conn.Returns l =>
          conn.Returns {| List := l; items := items;
                          itemsIndexes := itemsIndexes c |}
      end
  | None =>
      let items :=
        <[id := {| idx := length (itemsIndexes c); obj := item;
                   unread := false |}]> (items c) in
      let '(mainText, secText) := itemTextGenerator item in
      conn.Returns {| List := (List c ++ [(mainText, secText)])%list;
                      items := items;
                      itemsIndexes := (itemsIndexes c ++ [id])%list |}
  end.

(** [CList.SetUnreadChat]. *)
Definition SetUnreadChat (c : CList) (id : string) (status : bool)
  : conn.outcome CList :=
  match items c !! id with
  | None => conn.Returns c
  | Some c2 =>
      let c2 := {| idx := idx c2; obj := obj c2; unread := status |} in
      let items := <[id := c2]> (items c) in
      let '(mainText, secText) := itemTextGenerator (obj c2) in
      match SetItemText (List c) (idx c2) (getMainText c2 mainText) secText with
      | conn.Panics reason => conn.Panics reason
      | conn.Returns l =>
          conn.Returns {| List := l; items := items;
                          itemsIndexes := itemsIndexes c |}
      end
  end.

(** [tview.List.RemoveItem]: a negative index counts from the back, an
    index out of range is clamped, and nothing is removed from an empty
    list only.  The index given by [CList.RemoveItem] is not
    negative. *)
Definition ListRemoveItem (l : list (string * string)) (index : nat)
  : list (string * string) :=
  delete (Nat.min index (length l - 1)) l.

(** [CList.RemoveItem]: the slice expression
    [c.itemsIndexes[listItem.idx+1:]] panics for an index that is not
    within the slice; the indexes of the other items are left as they
    are. *)
Definition RemoveItem (c : CList) (id : string) : conn.outcome CList :=
  match items c !! id with
  | None => conn.Returns c
  | Some listItem =>
      if (idx listItem <? length (itemsIndexes c))%nat
      then conn.Returns
             {| List := ListRemoveItem (List c) (idx listItem);
                items := delete id (items c);
                itemsIndexes := delete (idx listItem) (itemsIndexes c) |}
      else conn.Panics "slice bounds out of range"
  end.

(** ** Vocabulary of the properties of the list *)

(** The lists made from a new one by [AddItem] and [SetUnreadChat],
    the two operations the handler uses. *)
Inductive built : CList → Prop :=
| built_new : built NewCustomList
| built_add c id item c' :
    built c → AddItem c id item = conn.Returns c' → built c'
| built_unread c id status c' :
    built c → SetUnreadChat c id status = conn.Returns c' → built c'.

(** The row an item is shown as. *)
Definition rowOf (ci : clistItem) : string * string :=
  (getMainText ci (itemTextGenerator (obj ci)).1,
   (itemTextGenerator (obj ci)).2).

(** The items, the ids and the rows agree: every item is at the place
    its index tells, its row shows its text, and there is an item for
    every id. *)
Definition consistent (c : CList) : Prop :=
  length (List c) = length (itemsIndexes c)
  ∧ (∀ id ci, items c !! id = Some ci →
              itemsIndexes c !! idx ci = Some id
              ∧ List c !! idx ci = Some (rowOf ci))
  ∧ (∀ i id, itemsIndexes c !! i = Some id →
             ∃ ci, items c !! id = Some ci ∧ idx ci = i).
End CList.

Arguments clistItem T : clear implicits.
Arguments CList T : clear implicits.

(** The text generator [New] gives to the list of chats: the names of
    the other users of the chat, and its id as the secondary text. *)
Definition chatText (chat : Chat) : string * string :=
  let userNames := map User_Name (GetOtherUsers chat) in
  let offlineTag := if Chat_Offline chat then " (offline)" else "" in
  (strings.Join userNames "," +:+ offlineTag, Chat_Id chat).

(** The function given to [messageField.SetDoneFunc]: what becomes of
    the store when the text of the field is entered at the time [now];
    [currentChat] is the selected chat, [None] for [nil]. *)
Definition messageDone (store : inmemory.store) (currentChat : option Chat)
    (text : string) (now : time.Time) : conn.outcome inmemory.store :=
  let txt := trim.TrimSpace text in
  if (0 <? String.length txt)%nat then
    match currentChat with
    | None => conn.Panics "invalid memory address or nil pointer dereference"
    | Some chat =>
        conn.Returns
          (inmemory.AddChatLine store
             {| Message_ChatId := Chat_Id chat;
                Message_UserId := User_Id (inmemory.CurrentUser store);
                Message_UserName := "";
                Message_Text := txt;
                Message_At := now;
                Message_ErrorMessage := false |}).1
    end
  else conn.Returns store.

End tui.

(* ===================================================================== *)
(** * The users of the end-to-end scenarios *)
(* ===================================================================== *)

Module scenario.
Import domain.

Definition userA : User :=
  {| User_Id := "aaa"; User_Name := "A";
     User_Address := "10.0.0.1"; User_Port := 1000 |}.

Definition userB : User :=
  {| User_Id := "bbb"; User_Name := "B";
     User_Address := "10.0.0.2"; User_Port := 1000 |}.

(** The users of [TestStore_RefreshUsers]. *)
Definition testCurrentUser : User :=
  {| User_Id := "current_user_id"; User_Name := "current_user_name";
     User_Address := "192.168.0.1"; User_Port := 1000 |}.

Definition testUser1 : User :=
  {| User_Id := "user1"; User_Name := "user1";
     User_Address := "192.168.0.1"; User_Port := 1001 |}.

Definition testUser2 : User :=
  {| User_Id := "user2"; User_Name := "user2";
     User_Address := "192.168.0.1"; User_Port := 1002 |}.

(** The chat of A and B, as A's store holds it after a directory sync
    that listed both. *)
Definition storeA : inmemory.store :=
  (inmemory.RefreshUsers (inmemory.NewStore userA) [userA; userB]).1.

Definition chatAB : string := "YWFhX2JiYg==".

Definition chatA : Chat :=
  {| Chat_Id := chatAB;
     Chat_OwnerUser := userA;
     Chat_Users := [userB];
     Chat_Content := [];
     Chat_Offline := false |}.

Definition line (userId text : string) (at_ : Z) : Message :=
  {| Message_ChatId := chatAB;
     Message_UserId := userId;
     Message_UserName := "";
     Message_Text := text;
     Message_At := {| time.sec := at_; time.nsec := 0 |};
     Message_ErrorMessage := false |}.

(** Scenario E6: three lines with [At] 1 < 2 < 3, submitted in the
    order 2, 1, 3. *)
Definition storeE6 : inmemory.store :=
  (inmemory.AddChatLine
     (inmemory.AddChatLine
        (inmemory.AddChatLine storeA (line "aaa" "second" 2)).1
        (line "bbb" "first" 1)).1
     (line "aaa" "third" 3)).1.

(** A payload codec to exercise the frame functions with: every field is
    written as a five-digit length and its bytes, the time as two numbers.
    It stands in for [encoding/gob], whose format the frame functions do
    not depend on. *)
Definition tagField (s : string) : list byte :=
  (list_byte_of_string (fmt.Sprintf_05d (Z.of_nat (String.length s)))
     ++ list_byte_of_string s)%list.

Definition tagEncode (m : conn.NetworkMsg) : list byte + errors.error :=
  inl (tagField (conn.UserId m) ++ tagField (conn.ChatId m)
         ++ tagField (conn.Message m)
         ++ tagField (fmt.Sprintf_05d (time.sec (conn.At m)))
         ++ tagField (fmt.Sprintf_05d (time.nsec (conn.At m))))%list.

Definition untagField (r : list byte) : option (string * list byte) :=
  match io.ReadFull r 5 with
  | (size, _, None, r) =>
      match strconv.Atoi (string_of_list_byte size) with
      | inl n =>
          match io.ReadFull r (Z.to_nat n) with
          | (field, _, None, r) => Some (string_of_list_byte field, r)
          | _ => None
          end
      | inr _ => None
      end
  | _ => None
  end.

Definition tagDecode (payload : list byte) : conn.NetworkMsg + errors.error :=
  match untagField payload with
  | Some (userId, r) =>
  match untagField r with
  | Some (chatId, r) =>
  match untagField r with
  | Some (message, r) =>
  match untagField r with
  | Some (sec, r) =>
  match untagField r with
  | Some (nsec, r) =>
      match strconv.Atoi sec, strconv.Atoi nsec with
      | inl sec, inl nsec =>
          inl {| conn.UserId := userId; conn.ChatId := chatId;
                 conn.Message := message;
                 conn.At := {| time.sec := sec; time.nsec := nsec |} |}
      | _, _ => inr (errors.New "bad time")
      end
  | None => inr errors.ErrUnexpectedEOF end
  | None => inr errors.ErrUnexpectedEOF end
  | None => inr errors.ErrUnexpectedEOF end
  | None => inr errors.ErrUnexpectedEOF end
  | None => inr errors.ErrUnexpectedEOF end.

(** A client record with a port below 1000, and a request body decoder
    that yields it. *)
Definition lowPort : directory.Client :=
  {| directory.ID := "aaa"; directory.Name := "A";
     directory.IP := "10.0.0.1"; directory.Port := 999 |}.

Definition unmarshalLowPort (all : string) : option directory.Client :=
  Some lowPort.

(** [strconv.Quote] on a string of printable ASCII characters other than
    the double quote and the backslash, such as the headers of the
    examples: the string between double quotes. *)
Definition quotePlain (s : string) : string :=
  directory.quote +:+ s +:+ directory.quote.

(** Scenario E2: A says hello to B. *)
Definition hello : Message := line "aaa" "hello" 1700000000.

Definition helloPayload : list byte :=
  match tagEncode (conn.networkMsgOf hello) with
  | inl payload => payload
  | inr _ => []
  end.

(** The chat of A's store. *)
Definition storeAChat : Chat :=
  {| Chat_Id := chatAB;
     Chat_OwnerUser := userA;
     Chat_Users := [userB];
     Chat_Content := [];
     Chat_Offline := false |}.

(** What a list operation returns, a new list standing for a panic. *)
Definition returned {T : Type} (r : conn.outcome (tui.CList T)) : tui.CList T :=
  match r with
  | conn.Returns c => c
  | conn.Panics _ => tui.NewCustomList
  end.

(** The list of chats of A after the chat with B was added, and after a
    line arrived for it; a list of one and of two items. *)
Definition chatListAdded : tui.CList Chat :=
  returned (tui.AddItem tui.chatText tui.NewCustomList chatAB storeAChat).

Definition chatList : tui.CList Chat :=
  returned (tui.SetUnreadChat tui.chatText chatListAdded chatAB true).

Definition oneChat : tui.CList Chat :=
  returned (tui.AddItem tui.chatText tui.NewCustomList "k1" storeAChat).

Definition twoChats : tui.CList Chat :=
  returned (tui.AddItem tui.chatText oneChat "k2" storeAChat).

(** Stand-ins for [encoding/json] and for the HTTP transport in the
    examples of the heartbeat: a user is marshalled to a text that is
    decoded to the record with the same fields, and a request is
    delivered to a server with an empty registry. *)
Definition marshalUser (u : User) : string + errors.error := inl "{}".

Definition unmarshalClientOf (u : User) (all : string)
  : option directory.Client :=
  Some (directoryclient.clientOf u).

Definition marshalClients (clients : list directory.Client) : option string :=
  Some "{}".

Definition valuesOf (reg : gmap string directory.Client)
  : list directory.Client :=
  (map_to_list reg).*2.

Definition deliver (u : User) (req : directoryclient.Request)
  : directoryclient.Response + errors.error :=
  inl (directoryclient.answer
         (directory.ServeHTTP (unmarshalClientOf u) marshalClients valuesOf ∅
            (directoryclient.pingRequest "{}")).2).

(** A registry that holds the record of B, and stand-ins for the
    decoding of the list of clients and for the transport of the
    request for it. *)
Definition registryB : gmap string directory.Client :=
  (directory.ServeHTTP (unmarshalClientOf userB) marshalClients valuesOf ∅
     (directoryclient.pingRequest "{}")).1.

Definition unmarshalUsersOf (reg : gmap string directory.Client) (b : string)
  : list User + errors.error :=
  inl (directoryclient.userOf <$> valuesOf reg).

Definition deliverClients (reg : gmap string directory.Client)
    (req : directoryclient.Request)
  : directoryclient.Response + errors.error :=
  inl (directoryclient.answer
         (directory.ServeHTTP (unmarshalClientOf userB) marshalClients
            valuesOf reg directoryclient.clientsRequest).2).

End scenario.

(* ===================================================================== *)
(** * The library functions on known values *)
(* ===================================================================== *)

(** The test vectors of RFC 4648. *)
Example EncodeToString_rfc4648 :
  base64.EncodeToString "" = ""
  ∧ base64.EncodeToString "f" = "Zg=="
  ∧ base64.EncodeToString "fo" = "Zm8="
  ∧ base64.EncodeToString "foo" = "Zm9v"
  ∧ base64.EncodeToString "foob" = "Zm9vYg=="
  ∧ base64.EncodeToString "fooba" = "Zm9vYmE="
  ∧ base64.EncodeToString "foobar" = "Zm9vYmFy".
Proof. repeat split. Qed.

(** Upper case sorts before the underscore, the underscore before lower
    case, and a string after its proper prefixes. *)
Example Strings_bytewise :
  sort.Strings ["b"; "a"; "B"; "ab"; ""; "a_"; "_a"; "a"]
  = [""; "B"; "_a"; "a"; "a"; "a_"; "ab"; "b"].
Proof. reflexivity. Qed.

(** U+1F600 in four bytes; an encoded surrogate and an overlong encoding
    are invalid. *)
Example DecodeRuneInString_examples :
  utf8.DecodeRuneInString
    (String (ascii_of_nat 240) (String (ascii_of_nat 159)
       (String (ascii_of_nat 152) (String (ascii_of_nat 128) ""))))
  = (128512, 4%nat)
  ∧ utf8.DecodeRuneInString
      (String (ascii_of_nat 237) (String (ascii_of_nat 160)
         (String (ascii_of_nat 128) "")))
    = (utf8.RuneError, 1%nat)
  ∧ utf8.DecodeRuneInString
      (String (ascii_of_nat 192) (String (ascii_of_nat 128) ""))
    = (utf8.RuneError, 1%nat).
Proof. repeat split. Qed.

Example Sprintf_05d_examples :
  fmt.Sprintf_05d 0 = "00000" ∧ fmt.Sprintf_05d 42 = "00042"
  ∧ fmt.Sprintf_05d 65535 = "65535" ∧ fmt.Sprintf_05d (-1) = "-0001"
  ∧ fmt.Sprintf_05d 123456 = "123456".
Proof. repeat split. Qed.

Example Atoi_examples :
  strconv.Atoi "00042" = inl 42
  ∧ strconv.Atoi "-0001" = inl (-1)
  ∧ strconv.Atoi "+0001" = inl 1
  ∧ strconv.Atoi "defin"
    = inr (errors.NumError "Atoi" "defin" errors.ErrSyntax)
  ∧ strconv.Atoi "0 042"
    = inr (errors.NumError "Atoi" "0 042" errors.ErrSyntax).
Proof. repeat split. Qed.

(* ===================================================================== *)
(** * Sorting *)
(* ===================================================================== *)

Section SortFacts.
Context {A : Type} (less : A → A → bool).

Hypothesis less_asym : ∀ x y, less x y = true → less y x = false.
Hypothesis notAfter_trans :
  ∀ x y z, sort.notAfter less x y → sort.notAfter less y z →
           sort.notAfter less x z.

Lemma insert_perm (x : A) (l : list A) : sort.insert less x l ≡ₚ x :: l.
Proof.
  induction l as [|y l IH]; simpl; [done|].
  destruct (less x y); [done|].
  rewrite IH. apply Permutation_swap.
Qed.

Lemma Slice_perm_acc (l acc : list A) :
  fold_left (fun sorted x => sort.insert less x sorted) l acc ≡ₚ l ++ acc.
Proof.
  revert acc. induction l as [|x l IH]; intros acc; simpl; [done|].
  rewrite IH, insert_perm. by rewrite Permutation_middle.
Qed.

Lemma Slice_perm (l : list A) : sort.Slice less l ≡ₚ l.
Proof. unfold sort.Slice. rewrite Slice_perm_acc. by rewrite app_nil_r. Qed.

Lemma insert_sorted (x : A) (l : list A) :
  StronglySorted (sort.notAfter less) l →
  StronglySorted (sort.notAfter less) (sort.insert less x l).
Proof using less_asym notAfter_trans.
  induction 1 as [|y l Hl IH Hy]; simpl.
  - repeat constructor.
  - destruct (less x y) eqn:Hxy.
    + constructor; [by constructor|].
      constructor; [by apply less_asym|].
      eapply Forall_impl; [exact Hy|].
      intros z Hz. eapply notAfter_trans; [|exact Hz]. by apply less_asym.
    + constructor; [exact IH|].
      rewrite insert_perm. by constructor.
Qed.

Lemma Slice_sorted_acc (l acc : list A) :
  StronglySorted (sort.notAfter less) acc →
  StronglySorted (sort.notAfter less)
    (fold_left (fun sorted x => sort.insert less x sorted) l acc).
Proof using less_asym notAfter_trans.
  revert acc. induction l as [|x l IH]; intros acc Hacc; simpl; [done|].
  by apply IH, insert_sorted.
Qed.

Lemma Slice_sorted (l : list A) :
  StronglySorted (sort.notAfter less) (sort.Slice less l).
Proof using less_asym notAfter_trans.
  apply Slice_sorted_acc. constructor.
Qed.
End SortFacts.

Lemma StronglySorted_weaken {A : Type} (R1 R2 : A → A → Prop) (l : list A) :
  (∀ x y, R1 x y → R2 x y) → StronglySorted R1 l → StronglySorted R2 l.
Proof.
  intros HR. induction 1 as [|x l Hl IH Hx]; constructor; [done|].
  eapply Forall_impl; [exact Hx|]. intros y. apply HR.
Qed.

(** Go's [<] on strings is the strict part of the order [String.le]. *)
Lemma less_false_le (s t : string) : strings.less t s = false ↔ String.le s t.
Proof.
  unfold strings.less, String.le, String.leb.
  rewrite (String.compare_antisym t s).
  destruct (String.compare s t); simpl; split; intros H;
    first [done | discriminate H | destruct H].
Qed.

Lemma strings_less_asym (s t : string) :
  strings.less s t = true → strings.less t s = false.
Proof.
  unfold strings.less. rewrite (String.compare_antisym t s).
  by destruct (String.compare s t).
Qed.

Lemma Strings_sorted (l : list string) : StronglySorted String.le (sort.Strings l).
Proof.
  eapply StronglySorted_weaken; [|apply (Slice_sorted strings.less)].
  - intros s t. apply less_false_le.
  - apply strings_less_asym.
  - unfold sort.notAfter. intros x y z Hxy Hyz.
    apply less_false_le in Hxy, Hyz. apply less_false_le. by etrans.
Qed.

Lemma Strings_perm (l : list string) : sort.Strings l ≡ₚ l.
Proof. apply Slice_perm. Qed.

(** The sorted list depends on the elements only, not on their order. *)
Lemma Strings_unique (l1 l2 : list string) :
  l1 ≡ₚ l2 → sort.Strings l1 = sort.Strings l2.
Proof.
  intros Hp. apply (StronglySorted_unique String.le); try apply Strings_sorted.
  by rewrite !Strings_perm.
Qed.

(* ===================================================================== *)
(** * The chat id *)
(* ===================================================================== *)

Section ChatId.
Import domain data inmemory.

Lemma collectIds_Some (current : string) (users : list User) :
  Forall (λ u, User_Id u ≠ current) users →
  collectIds current users = Some (map User_Id users).
Proof.
  induction 1 as [|u users Hu _ IH]; simpl; [done|].
  apply String.eqb_neq in Hu. by rewrite Hu, IH.
Qed.

Lemma collectIds_inv (current : string) (users : list User) (ids : list string) :
  collectIds current users = Some ids →
  ids = map User_Id users ∧ Forall (λ u, User_Id u ≠ current) users.
Proof.
  revert ids. induction users as [|u users IH]; intros ids; simpl.
  - intros [= <-]. by split.
  - destruct (String.eqb (User_Id u) current) eqn:Hu; [done|].
    destruct (collectIds current users) as [ids'|]; [|done].
    intros [= <-]. destruct (IH ids' eq_refl) as [-> Hall].
    split; [done|]. constructor; [|done]. by apply String.eqb_neq.
Qed.

Lemma collectIds_None (current : string) (users : list User) :
  collectIds current users = None ↔ Exists (λ u, User_Id u = current) users.
Proof.
  induction users as [|u users IH]; simpl.
  - split; [done|]. by intros ?%Exists_nil.
  - rewrite Exists_cons.
    destruct (String.eqb (User_Id u) current) eqn:Hu.
    + apply String.eqb_eq in Hu. split; [by left|done].
    + apply String.eqb_neq in Hu.
      destruct (collectIds current users).
      * split; [done|]. intros [?|Hex]; [done|]. by apply IH in Hex.
      * split; [|done]. intros _. right. by apply IH.
Qed.

Lemma buildChat_inv (s : store) (users : list User) (c : Chat) :
  buildChat s users = inl c →
  c = {| Chat_Id := chatIdOf (User_Id (currentUser s) :: map User_Id users);
         Chat_OwnerUser := currentUser s;
         Chat_Users := users;
         Chat_Content := [];
         Chat_Offline := false |}
  ∧ Forall (λ u, User_Id u ≠ User_Id (currentUser s)) users.
Proof.
  unfold buildChat.
  destruct (collectIds _ users) as [ids|] eqn:Hids; [|done].
  apply collectIds_inv in Hids as [-> Hall]. by intros [= <-].
Qed.

Lemma buildChat_ok (s : store) (users : list User) :
  Forall (λ u, User_Id u ≠ User_Id (currentUser s)) users →
  buildChat s users =
    inl {| Chat_Id := chatIdOf (User_Id (currentUser s) :: map User_Id users);
           Chat_OwnerUser := currentUser s;
           Chat_Users := users;
           Chat_Content := [];
           Chat_Offline := false |}.
Proof. intros Hall. unfold buildChat. by rewrite collectIds_Some. Qed.

Example chatIdOf_aaa_bbb :
  strings.Join (sort.Strings ["bbb"; "aaa"]) "_" = "aaa_bbb"
  ∧ base64.EncodeToString "aaa_bbb" = "YWFhX2JiYg=="
  ∧ chatIdOf ["bbb"; "aaa"] = "YWFhX2JiYg==".
Proof. repeat split. Qed.

Lemma chatIdOf_perm (ids1 ids2 : list string) :
  ids1 ≡ₚ ids2 → chatIdOf ids1 = chatIdOf ids2.
Proof. intros Hp. unfold chatIdOf. by rewrite (Strings_unique _ _ Hp). Qed.

(** C1.  The id of the chat that [buildChat] builds is computed from the
    ids of the owner and of the supplied users alone: they are sorted
    lexicographically, joined with "_" and base64-encoded.  Two stores
    whose participants have the same ids get the same chat id; in
    particular the chat A builds with B and the chat B builds with A have
    the same id, and for the ids "aaa" and "bbb" it is "YWFhX2JiYg==". *)
Theorem buildChat_id_deterministic :
  (∀ (s : store) (users : list User),
     Forall (λ u, User_Id u ≠ User_Id (currentUser s)) users →
     ∃ (c : Chat) (sorted : list string),
       buildChat s users = inl c
       ∧ sorted ≡ₚ User_Id (currentUser s) :: map User_Id users
       ∧ StronglySorted String.le sorted
       ∧ Chat_Id c = base64.EncodeToString (strings.Join sorted "_"))
  ∧ (∀ (s1 s2 : store) (users1 users2 : list User) (c1 c2 : Chat),
       buildChat s1 users1 = inl c1 →
       buildChat s2 users2 = inl c2 →
       User_Id (currentUser s1) :: map User_Id users1
         ≡ₚ User_Id (currentUser s2) :: map User_Id users2 →
       Chat_Id c1 = Chat_Id c2)
  ∧ (∀ sA sB : store,
       User_Id (currentUser sA) ≠ User_Id (currentUser sB) →
       ∃ cA cB : Chat,
         buildChat sA [currentUser sB] = inl cA
         ∧ buildChat sB [currentUser sA] = inl cB
         ∧ Chat_Id cA = Chat_Id cB)
  ∧ (∀ (sA : store) (B : User),
       User_Id (currentUser sA) = "aaa" → User_Id B = "bbb" →
       ∃ c : Chat, buildChat sA [B] = inl c ∧ Chat_Id c = "YWFhX2JiYg==").
Proof.
  repeat split.
  - intros s users Hall. eexists _, _.
    split; [by apply buildChat_ok|].
    split; [apply Strings_perm|]. split; [apply Strings_sorted|done].
  - intros s1 s2 users1 users2 c1 c2 H1 H2 Hp.
    apply buildChat_inv in H1 as [-> _]. apply buildChat_inv in H2 as [-> _].
    simpl. by apply chatIdOf_perm.
  - intros sA sB Hne. eexists _, _.
    split; [apply buildChat_ok; repeat constructor; congruence|].
    split; [apply buildChat_ok; repeat constructor; congruence|].
    simpl. apply chatIdOf_perm, Permutation_swap.
  - intros sA B HA HB. eexists.
    split; [apply buildChat_ok; repeat constructor; congruence|].
    simpl. by rewrite HA, HB.
Qed.

Lemma buildChat_id_deterministic_witness :
  ∃ cA cB : Chat,
    buildChat (NewStore scenario.userA) [scenario.userB] = inl cA
    ∧ buildChat (NewStore scenario.userB) [scenario.userA] = inl cB
    ∧ Chat_Id cA = Chat_Id cB.
Proof.
  destruct buildChat_id_deterministic as (_ & _ & Hsym & _).
  apply (Hsym (NewStore scenario.userA) (NewStore scenario.userB)).
  simpl. discriminate.
Defined.
End ChatId.

(* ===================================================================== *)
(** * The store: storing chats *)
(* ===================================================================== *)

Section StoreFacts.
Import domain data inmemory.

Lemma set_Content_id (c : Chat) : set_Content c (Chat_Content c) = c.
Proof. by destruct c. Qed.

(** The chat found under [k] after [storeChat]. *)
Lemma storeChat_lookup (s : store) (chat : Chat) (k : string) :
  chats (storeChat s chat) !! k =
    if decide (Chat_Id chat = k)
    then Some (set_Content chat
                 (from_option Chat_Content (Chat_Content chat) (chats s !! k)))
    else chats s !! k.
Proof.
  unfold storeChat. case_decide as Hk.
  - subst k. destruct (chats s !! Chat_Id chat) as [c|] eqn:Hc; simpl.
    + by rewrite lookup_insert_eq.
    + by rewrite lookup_insert_eq, set_Content_id.
  - destruct (chats s !! Chat_Id chat) as [c|] eqn:Hc; simpl;
      by rewrite lookup_insert_ne.
Qed.

Lemma storeChat_currentUser (s : store) (chat : Chat) :
  currentUser (storeChat s chat) = currentUser s.
Proof. done. Qed.

Lemma storeChat_wf (s : store) (chat : Chat) :
  store_wf s → store_wf (storeChat s chat).
Proof.
  intros Hwf k c. rewrite storeChat_lookup. case_decide as Hk.
  - by intros [= <-].
  - apply Hwf.
Qed.

Lemma buildChat_single (s : store) (u : User) :
  String.eqb (User_Id u) (User_Id (currentUser s)) = false →
  buildChat s [u] =
    inl {| Chat_Id := pairChatId (currentUser s) u;
           Chat_OwnerUser := currentUser s;
           Chat_Users := [u];
           Chat_Content := [];
           Chat_Offline := false |}.
Proof.
  intros Hu. rewrite buildChat_ok; [done|].
  repeat constructor. by apply String.eqb_neq.
Qed.

(** The first loop of [RefreshUsers]: it never fails, strikes the chats of
    the listed users out of the snapshot and stores a chat for each of
    them. *)
Lemma refreshListed_spec (users : list User) :
  ∀ (snapshot : gmap string Chat) (s : store),
    ∃ (snapshot' : gmap string Chat) (s' : store),
      refreshListed users snapshot s = (snapshot', s', None)
      ∧ currentUser s' = currentUser s
      ∧ ∀ k,
          snapshot' !! k =
            match lastListed (currentUser s) users k with
            | Some _ => None
            | None => snapshot !! k
            end
          ∧ chats s' !! k =
              match lastListed (currentUser s) users k with
              | Some u => Some (listedChat s k u)
              | None => chats s !! k
              end.
Proof.
  induction users as [|u users IH]; intros snapshot s; simpl.
  - by eexists _, _.
  - unfold CurrentUser.
    destruct (String.eqb (User_Id u) (User_Id (currentUser s))) eqn:Hu; simpl.
    + destruct (IH snapshot s) as (snapshot' & s' & Hrun & Hcu & Hk).
      exists snapshot', s'. split; [done|]. split; [done|].
      intros k. destruct (Hk k) as [Hsnap Hst].
      by destruct (lastListed (currentUser s) users k).
    + rewrite (buildChat_single s u Hu).
      set (chat := {| Chat_Id := pairChatId (currentUser s) u |}).
      destruct (IH (delete (Chat_Id chat) snapshot) (storeChat s chat))
        as (snapshot' & s' & Hrun & Hcu & Hk).
      exists snapshot', s'. split; [done|]. split; [done|].
      intros k. destruct (Hk k) as [Hsnap Hst].
      rewrite Hsnap, Hst, storeChat_currentUser. clear Hsnap Hst.
      destruct (lastListed (currentUser s) users k) as [u'|] eqn:Hlast.
      * split; [done|]. f_equal. unfold listedChat. f_equal.
        rewrite storeChat_lookup. by case_decide.
      * rewrite storeChat_lookup. simpl.
        destruct (String.eqb (pairChatId (currentUser s) u) k) eqn:Heq.
        -- apply String.eqb_eq in Heq. subst k.
           rewrite lookup_delete_eq. split; [done|].
           rewrite decide_True by done.
           unfold listedChat. simpl. by destruct (chats s !! _).
        -- apply String.eqb_neq in Heq.
           rewrite lookup_delete_ne by done. by rewrite decide_False.
Qed.

(** ** The second loop of [RefreshUsers] *)

Lemma markOffline_currentUser (range : list Chat) (s : store) :
  currentUser (markOffline range s) = currentUser s.
Proof.
  revert s. induction range as [|c range IH]; intros s; simpl; [done|].
  by rewrite IH.
Qed.

Lemma markOffline_lookup_notin (range : list Chat) (s : store) (k : string) :
  k ∉ Chat_Id <$> range → chats (markOffline range s) !! k = chats s !! k.
Proof.
  revert s. induction range as [|c range IH]; intros s Hk; simpl; [done|].
  rewrite fmap_cons in Hk. apply not_elem_of_cons in Hk as [Hne Hk].
  rewrite IH by done. rewrite storeChat_lookup. simpl.
  by rewrite decide_False.
Qed.

Lemma markOffline_lookup_in (range : list Chat) (s : store) (c : Chat) :
  NoDup (Chat_Id <$> range) → c ∈ range →
  chats (markOffline range s) !! Chat_Id c =
    Some (set_Content (set_Offline c true)
            (from_option Chat_Content (Chat_Content c)
                         (chats s !! Chat_Id c))).
Proof.
  revert s. induction range as [|c0 range IH]; intros s Hnd Hc; simpl.
  - by apply elem_of_nil in Hc.
  - rewrite fmap_cons in Hnd. apply NoDup_cons in Hnd as [Hc0 Hnd].
    apply elem_of_cons in Hc as [->|Hc].
    + rewrite markOffline_lookup_notin by done.
      rewrite storeChat_lookup. simpl. by rewrite decide_True.
    + rewrite IH by done. rewrite storeChat_lookup. simpl.
      rewrite decide_False; [done|].
      intros Heq. apply Hc0. rewrite Heq. by apply list_elem_of_fmap_2.
Qed.

Lemma fmap_id_of_wf (l : list (string * Chat)) :
  Forall (λ kc, Chat_Id kc.2 = kc.1) l → Chat_Id <$> l.*2 = l.*1.
Proof.
  induction 1 as [|[k c] l Hkc _ IH]; [done|].
  rewrite !fmap_cons. simpl in *. by rewrite Hkc, IH.
Qed.

(** Whatever the order in which the snapshot is traversed, the second loop
    sets the offline flag of the chats of the snapshot and leaves every
    other chat alone. *)
Lemma markOffline_spec (range : list Chat) (snapshot : gmap string Chat)
    (s : store) (k : string) :
  (∀ k c, snapshot !! k = Some c → Chat_Id c = k) →
  range ≡ₚ (map_to_list snapshot).*2 →
  chats (markOffline range s) !! k =
    match snapshot !! k with
    | Some c =>
        Some (set_Content (set_Offline c true)
                (from_option Chat_Content (Chat_Content c) (chats s !! k)))
    | None => chats s !! k
    end.
Proof.
  intros Hwf Hperm.
  assert (Hids : Chat_Id <$> range ≡ₚ (map_to_list snapshot).*1).
  { rewrite Hperm. rewrite fmap_id_of_wf; [done|].
    apply Forall_forall. intros [k' c'] Hin. simpl.
    apply Hwf. by apply elem_of_map_to_list. }
  assert (Hnd : NoDup (Chat_Id <$> range)).
  { rewrite Hids. apply NoDup_fst_map_to_list. }
  destruct (snapshot !! k) as [c|] eqn:Hk.
  - assert (Hc : c ∈ range).
    { rewrite Hperm. apply list_elem_of_fmap. exists (k, c).
      split; [done|]. by apply elem_of_map_to_list. }
    rewrite <- (Hwf k c Hk). by apply markOffline_lookup_in.
  - apply markOffline_lookup_notin. rewrite Hids.
    intros ((k' & c') & -> & Hin)%list_elem_of_fmap.
    apply elem_of_map_to_list in Hin. simpl in Hk. congruence.
Qed.

(** ** [RefreshUsers] as a whole *)

Lemma set_Offline_content (c : Chat) (b : bool) :
  set_Content (set_Offline c b) (Chat_Content c) = set_Offline c b.
Proof. by destruct c. Qed.

(** [RefreshUsers] never fails, and the chat it leaves under [k] is the
    chat of the last listed user with that pair-chat id, with the content
    stored before, or else the chat stored before, now offline. *)
Lemma RefreshUsersIn_spec (range : gmap string Chat → list Chat)
    (s : store) (users : list User) :
  rangeOrder range → store_wf s →
  ∃ s' : store,
    RefreshUsersIn range s users = (s', None)
    ∧ currentUser s' = currentUser s
    ∧ ∀ k,
        chats s' !! k =
          match lastListed (currentUser s) users k with
          | Some u => Some (listedChat s k u)
          | None => (λ c, set_Offline c true) <$> chats s !! k
          end.
Proof.
  intros Hrange Hwf. unfold RefreshUsersIn, GetChats.
  destruct (refreshListed_spec users (chats s) s)
    as (snapshot' & s1 & -> & Hcu & Hk).
  eexists. split; [done|].
  split; [by rewrite markOffline_currentUser|].
  intros k. destruct (Hk k) as [Hsnap Hst].
  rewrite (markOffline_spec _ snapshot'); [|
    | by apply Hrange].
  - rewrite Hsnap, Hst.
    destruct (lastListed (currentUser s) users k) as [u|]; [done|].
    destruct (chats s !! k) as [c|]; [|done].
    simpl. by rewrite set_Offline_content.
  - intros k' c' Hc'. destruct (Hk k') as [Hsnap' _]. rewrite Hsnap' in Hc'.
    destruct (lastListed (currentUser s) users k'); [done|]. by apply Hwf.
Qed.

Lemma store_eq (s1 s2 : store) :
  currentUser s1 = currentUser s2 → chats s1 = chats s2 → s1 = s2.
Proof. destruct s1, s2; simpl; congruence. Qed.

(** The order in which Go's [range] yields the chats of the snapshot does
    not matter. *)
Lemma RefreshUsersIn_order (range : gmap string Chat → list Chat)
    (s : store) (users : list User) :
  rangeOrder range → store_wf s →
  RefreshUsersIn range s users = RefreshUsers s users.
Proof.
  intros Hrange Hwf.
  destruct (RefreshUsersIn_spec range s users Hrange Hwf)
    as (s1 & -> & Hcu1 & Hk1).
  destruct (RefreshUsersIn_spec (λ m, (map_to_list m).*2) s users)
    as (s2 & H2 & Hcu2 & Hk2); [by intros m|done|].
  unfold RefreshUsers. rewrite H2. f_equal.
  apply store_eq; [congruence|].
  apply map_eq. intros k. by rewrite Hk1, Hk2.
Qed.

(** ** Well-formedness *)

Lemma NewStore_wf (cu : User) : store_wf (NewStore cu).
Proof. intros k c. simpl. by rewrite lookup_empty. Qed.

Lemma AddChatLine_ok (s : store) (m : Message) (c : Chat) (u : User) :
  chats s !! Message_ChatId m = Some c →
  GetUser c (Message_UserId m) = Some u →
  AddChatLine s m =
    (set_chats s
       (<[Message_ChatId m :=
            set_Content c
              (sort.Slice lessAt
                 (Chat_Content c ++ [set_UserName m (User_Name u)]))]>
          (chats s)), None).
Proof. intros Hc Hu. unfold AddChatLine. by rewrite Hc, Hu. Qed.

(** A chat found after [AddChatLine] was there before, or is the chat of
    the message with the message added. *)
Lemma AddChatLine_lookup_cases (s : store) (m : Message) (k : string)
    (c' : Chat) :
  chats (AddChatLine s m).1 !! k = Some c' →
  chats s !! k = Some c'
  ∨ ∃ c u,
      k = Message_ChatId m
      ∧ chats s !! k = Some c
      ∧ GetUser c (Message_UserId m) = Some u
      ∧ c' = set_Content c
               (sort.Slice lessAt
                  (Chat_Content c ++ [set_UserName m (User_Name u)])).
Proof.
  unfold AddChatLine.
  destruct (chats s !! Message_ChatId m) as [c|] eqn:Hc; [|by left].
  destruct (GetUser c (Message_UserId m)) as [u|] eqn:Hu; [|by left].
  simpl. destruct (decide (Message_ChatId m = k)) as [<-|Hne].
  - rewrite lookup_insert_eq. intros [= <-]. right. by exists c, u.
  - rewrite lookup_insert_ne by done. by left.
Qed.

Lemma AddChatLine_currentUser (s : store) (m : Message) :
  currentUser (AddChatLine s m).1 = currentUser s.
Proof.
  unfold AddChatLine. destruct (chats s !! _) as [c|]; [|done].
  by destruct (GetUser c _).
Qed.

Lemma AddChatLine_wf (s : store) (m : Message) :
  store_wf s → store_wf (AddChatLine s m).1.
Proof.
  intros Hwf k c' [Hc'|(c & u & -> & Hc & _ & ->)]%AddChatLine_lookup_cases.
  - by apply Hwf.
  - simpl. by apply Hwf.
Qed.

Lemma lastListed_Some (cu : User) (users : list User) (k : string) (u : User) :
  lastListed cu users k = Some u →
  u ∈ users ∧ User_Id u ≠ User_Id cu ∧ pairChatId cu u = k.
Proof.
  induction users as [|u0 users IH]; simpl; [done|].
  destruct (lastListed cu users k) as [u'|].
  - intros [= ->]. destruct IH as (? & ? & ?); [done|].
    split; [by apply list_elem_of_further|done].
  - destruct (String.eqb (User_Id u0) (User_Id cu)) eqn:Hu; simpl; [done|].
    destruct (String.eqb (pairChatId cu u0) k) eqn:Hk; [|done].
    intros [= ->]. split; [by apply list_elem_of_here|].
    split; [by apply String.eqb_neq|by apply String.eqb_eq].
Qed.

Lemma lastListed_None (cu : User) (users : list User) (k : string) :
  lastListed cu users k = None ↔
  ∀ u, u ∈ users → User_Id u ≠ User_Id cu → pairChatId cu u ≠ k.
Proof.
  induction users as [|u0 users IH]; simpl.
  - split; [|done]. intros _ u Hu. by apply elem_of_nil in Hu.
  - destruct (lastListed cu users k) as [u'|] eqn:Hlast.
    + split; [done|]. intros Hall.
      apply lastListed_Some in Hlast as (Hin & Hne & Hk).
      exfalso. eapply Hall; [|done..]. by apply list_elem_of_further.
    + destruct (String.eqb (User_Id u0) (User_Id cu)) eqn:Hu; simpl.
      * apply String.eqb_eq in Hu. split; [|done].
        intros _ u [->|Hin]%elem_of_cons Hne; [done|].
        by apply IH.
      * apply String.eqb_neq in Hu.
        destruct (String.eqb (pairChatId cu u0) k) eqn:Hk.
        -- apply String.eqb_eq in Hk. split; [done|].
           intros Hall. exfalso. eapply Hall; [|done..].
           by apply list_elem_of_here.
        -- apply String.eqb_neq in Hk. split; [|done].
           intros _ u [->|Hin]%elem_of_cons Hne; [done|].
           by apply IH.
Qed.

(** A chat found after [RefreshUsers] is the chat of a listed user or a
    chat stored before, now offline. *)
Lemma RefreshUsersIn_lookup_cases (range : gmap string Chat → list Chat)
    (s : store) (users : list User) (k : string) (c' : Chat) :
  rangeOrder range → store_wf s →
  chats (RefreshUsersIn range s users).1 !! k = Some c' →
  (∃ u, lastListed (currentUser s) users k = Some u ∧ c' = listedChat s k u)
  ∨ (∃ c, lastListed (currentUser s) users k = None
          ∧ chats s !! k = Some c ∧ c' = set_Offline c true).
Proof.
  intros Hrange Hwf.
  destruct (RefreshUsersIn_spec range s users Hrange Hwf)
    as (s' & -> & _ & Hk).
  simpl. rewrite Hk.
  destruct (lastListed (currentUser s) users k) as [u|].
  - intros [= <-]. left. by exists u.
  - destruct (chats s !! k) as [c|]; [|done].
    intros [= <-]. right. by exists c.
Qed.

Lemma RefreshUsersIn_wf (range : gmap string Chat → list Chat)
    (s : store) (users : list User) :
  rangeOrder range → store_wf s →
  store_wf (RefreshUsersIn range s users).1.
Proof.
  intros Hrange Hwf k c' Hc'.
  apply RefreshUsersIn_lookup_cases in Hc'
    as [(u & _ & ->)|(c & _ & Hc & ->)]; [done| |done..].
  simpl. by apply Hwf.
Qed.

Lemma RefreshUsersIn_currentUser (range : gmap string Chat → list Chat)
    (s : store) (users : list User) :
  currentUser (RefreshUsersIn range s users).1 = currentUser s.
Proof.
  unfold RefreshUsersIn.
  destruct (refreshListed_spec users (GetChats s) s)
    as (snapshot' & s1 & -> & Hcu & _).
  simpl. by rewrite markOffline_currentUser.
Qed.

Lemma reachable_wf (cu : User) (s : store) : reachable cu s → store_wf s.
Proof.
  induction 1 as [|s m _ IH|s users range _ IH Hrange].
  - apply NewStore_wf.
  - by apply AddChatLine_wf.
  - by apply RefreshUsersIn_wf.
Qed.

Lemma reachable_currentUser (cu : User) (s : store) :
  reachable cu s → currentUser s = cu.
Proof.
  induction 1 as [|s m _ IH|s users range _ IH Hrange].
  - done.
  - by rewrite AddChatLine_currentUser.
  - by rewrite RefreshUsersIn_currentUser.
Qed.

End StoreFacts.

(* ===================================================================== *)
(** * The store: adding a chat line *)
(* ===================================================================== *)

Section AddChatLineFacts.
Import domain data inmemory.

Lemma findUser_None (users : list User) (id : string) :
  findUser users id = None ↔ id ∉ (User_Id <$> users).
Proof.
  induction users as [|u users IH]; simpl.
  - split; [|done]. intros _ Hin. by apply elem_of_nil in Hin.
  - rewrite not_elem_of_cons.
    destruct (String.eqb (User_Id u) id) eqn:Hu.
    + apply String.eqb_eq in Hu. split; [done|]. by intros [? _].
    + apply String.eqb_neq in Hu. rewrite IH. split; [by split|by intros [_ ?]].
Qed.

Lemma findUser_Some (users : list User) (id : string) (u : User) :
  findUser users id = Some u → u ∈ users ∧ User_Id u = id.
Proof.
  induction users as [|u0 users IH]; simpl; [done|].
  destruct (String.eqb (User_Id u0) id) eqn:Hu.
  - intros [= <-]. apply String.eqb_eq in Hu.
    split; [apply list_elem_of_here|done].
  - intros [Hin Hid]%IH. split; [by apply list_elem_of_further|done].
Qed.

(** [GetUser] fails exactly for the ids of neither a remote participant
    nor the owner. *)
Lemma GetUser_None (c : Chat) (id : string) :
  GetUser c id = None ↔
  (id ∉ (User_Id <$> Chat_Users c)) ∧ id ≠ User_Id (Chat_OwnerUser c).
Proof.
  unfold GetUser. destruct (findUser (Chat_Users c) id) as [u|] eqn:Hfind.
  - split; [done|]. intros [Hnot _].
    apply findUser_Some in Hfind as [Hin <-].
    exfalso. apply Hnot. by apply list_elem_of_fmap_2.
  - apply findUser_None in Hfind.
    destruct (String.eqb id (User_Id (Chat_OwnerUser c))) eqn:Ho.
    + apply String.eqb_eq in Ho. split; [done|]. by intros [_ ?].
    + apply String.eqb_neq in Ho. by split.
Qed.

Lemma GetUser_Some (c : Chat) (id : string) (u : User) :
  GetUser c id = Some u →
  User_Id u = id ∧ (u ∈ Chat_Users c ∨ u = Chat_OwnerUser c).
Proof.
  unfold GetUser. destruct (findUser (Chat_Users c) id) as [u'|] eqn:Hfind.
  - intros [= <-]. apply findUser_Some in Hfind as [Hin Hid].
    split; [done|by left].
  - destruct (String.eqb id (User_Id (Chat_OwnerUser c))) eqn:Ho; [|done].
    intros [= <-]. apply String.eqb_eq in Ho. split; [done|by right].
Qed.

(** C3.  [AddChatLine] returns [ChatNotFoundErr] exactly when no chat is
    stored under the chat id of the message; it returns [UserNotInChatErr]
    exactly when the chat is there and the user id of the message is
    neither that of a remote participant nor that of the owner; otherwise
    it succeeds, and the chat then holds its former messages and the new
    one, whose user name is the name of the participant found for the user
    id.  The user name the caller put into the message has no influence on
    the outcome. *)
Theorem AddChatLine_outcome (s : store) (m : Message) :
  ((∃ k, (AddChatLine s m).2 = Some (ChatNotFoundErr k))
     ↔ chats s !! Message_ChatId m = None)
  ∧ ((∃ uid k, (AddChatLine s m).2 = Some (UserNotInChatErr uid k))
       ↔ ∃ c, chats s !! Message_ChatId m = Some c
              ∧ (Message_UserId m ∉ (User_Id <$> Chat_Users c))
              ∧ Message_UserId m ≠ User_Id (Chat_OwnerUser c))
  ∧ (∀ c, chats s !! Message_ChatId m = Some c →
          (Message_UserId m ∈ (User_Id <$> Chat_Users c)
           ∨ Message_UserId m = User_Id (Chat_OwnerUser c)) →
          ∃ u c',
            GetUser c (Message_UserId m) = Some u
            ∧ User_Id u = Message_UserId m
            ∧ (u ∈ Chat_Users c ∨ u = Chat_OwnerUser c)
            ∧ (AddChatLine s m).2 = None
            ∧ chats (AddChatLine s m).1 !! Message_ChatId m = Some c'
            ∧ Chat_Content c' ≡ₚ set_UserName m (User_Name u) :: Chat_Content c
            ∧ set_Content c' (Chat_Content c) = c)
  ∧ (∀ name, AddChatLine s (set_UserName m name) = AddChatLine s m)
  ∧ ((AddChatLine s m).2 ≠ None → (AddChatLine s m).1 = s).
Proof.
  split; [|split; [|split; [|split]]].
  - unfold AddChatLine.
    destruct (chats s !! Message_ChatId m) as [c|] eqn:Hc; simpl.
    + split; [|done]. destruct (GetUser c (Message_UserId m)); by intros [k ?].
    + split; [done|]. intros _. by eexists.
  - unfold AddChatLine.
    destruct (chats s !! Message_ChatId m) as [c|] eqn:Hc; simpl.
    + destruct (GetUser c (Message_UserId m)) as [u|] eqn:Hu; simpl.
      * split; [by intros (? & ? & ?)|].
        intros (c0 & [= <-] & Hnot). apply GetUser_None in Hnot. congruence.
      * split; [|intros _; by eexists _, _].
        intros _. exists c. split; [done|]. by apply GetUser_None.
    + split; [by intros (? & ? & ?)|]. by intros (c0 & ? & _).
  - intros c Hc Hpart.
    destruct (GetUser c (Message_UserId m)) as [u|] eqn:Hu.
    + destruct (GetUser_Some _ _ _ Hu) as [Hid Hin].
      rewrite (AddChatLine_ok s m c u Hc Hu). simpl.
      eexists u, _. split; [done|]. split; [done|]. split; [done|].
      split; [done|]. rewrite lookup_insert_eq. split; [done|]. simpl.
      split; [|by destruct c].
      rewrite Slice_perm. by rewrite Permutation_app_comm.
    + apply GetUser_None in Hu as [Hnot Hne]. by destruct Hpart.
  - intros name. unfold AddChatLine. simpl.
    destruct (chats s !! Message_ChatId m) as [c|]; [|done].
    by destruct (GetUser c (Message_UserId m)).
  - unfold AddChatLine.
    destruct (chats s !! Message_ChatId m) as [c|]; [|done].
    by destruct (GetUser c (Message_UserId m)).
Qed.
Lemma AddChatLine_outcome_witness :
  ∃ u c',
    GetUser scenario.chatA "aaa" = Some u
    ∧ User_Id u = "aaa"
    ∧ (u ∈ Chat_Users scenario.chatA ∨ u = Chat_OwnerUser scenario.chatA)
    ∧ (AddChatLine scenario.storeA
         (set_UserName scenario.hello "Mallory")).2 = None
    ∧ chats (AddChatLine scenario.storeA
               (set_UserName scenario.hello "Mallory")).1 !! scenario.chatAB
      = Some c'
    ∧ Chat_Content c'
        ≡ₚ set_UserName (set_UserName scenario.hello "Mallory") (User_Name u)
           :: Chat_Content scenario.chatA
    ∧ set_Content c' (Chat_Content scenario.chatA) = scenario.chatA.
Proof.
  destruct (AddChatLine_outcome scenario.storeA
              (set_UserName scenario.hello "Mallory"))
    as (_ & _ & Hok & _).
  apply (Hok scenario.chatA).
  - vm_compute. reflexivity.
  - right. reflexivity.
Defined.

(** Scenario E2: whatever name the sender claims, the line is stored under
    the name the roster has for its user id. *)
Example AddChatLine_name_from_roster :
  (λ c, Message_UserName <$> Chat_Content c)
    <$> chats (AddChatLine scenario.storeA
                 (set_UserName scenario.hello "Mallory")).1 !! scenario.chatAB
  = Some ["A"].
Proof. vm_compute. reflexivity. Qed.

End AddChatLineFacts.

(* ===================================================================== *)
(** * The store: invariants of the reachable stores *)
(* ===================================================================== *)

Section ReachableFacts.
Import domain data inmemory.

Lemma Before_false_le (t u : time.Time) : time.Before u t = false ↔ time.le t u.
Proof. unfold time.Before, time.le. destruct t, u; simpl. lia. Qed.

Lemma lessAt_sorted (content : list Message) :
  StronglySorted (λ a b, time.le (Message_At a) (Message_At b))
                 (sort.Slice lessAt content).
Proof.
  eapply StronglySorted_weaken; [|apply (Slice_sorted lessAt)].
  - intros a b. unfold sort.notAfter, lessAt. apply Before_false_le.
  - intros a b. unfold lessAt, time.Before.
    destruct (Message_At a), (Message_At b); simpl. lia.
  - unfold sort.notAfter, lessAt. intros a b c Hab Hbc.
    apply Before_false_le in Hab, Hbc. apply Before_false_le.
    unfold time.le in *. lia.
Qed.

(** C4.  In every store reached from a new one by [AddChatLine] and
    [RefreshUsers] calls, in whatever order the messages were submitted,
    the content of every chat is in non-decreasing order of [At]. *)
Theorem content_sorted (cu : User) (s : store) :
  reachable cu s → ∀ k c, chats s !! k = Some c → contentSorted c.
Proof.
  induction 1 as [|s m Hs IH|s users range Hs IH Hrange]; intros k c'.
  - simpl. by rewrite lookup_empty.
  - intros [Hc'|(c & u & -> & Hc & _ & ->)]%AddChatLine_lookup_cases.
    + by eapply IH.
    + unfold contentSorted. simpl. apply lessAt_sorted.
  - intros Hc'. apply RefreshUsersIn_lookup_cases in Hc'
      as [(u & _ & ->)|(c & _ & Hc & ->)];
      [| |done|by eapply reachable_wf].
    + unfold contentSorted, listedChat. simpl.
      destruct (chats s !! k) as [c|] eqn:Hc; simpl; [by eapply IH|].
      constructor.
    + by eapply (IH k c).
Qed.

Lemma storeE6_reachable : reachable scenario.userA scenario.storeE6.
Proof.
  unfold scenario.storeE6, scenario.storeA, RefreshUsers.
  repeat apply reachable_add.
  apply reachable_refresh; [apply reachable_new|by intros m].
Qed.

Lemma content_sorted_witness :
  ∃ c, chats scenario.storeE6 !! scenario.chatAB = Some c ∧ contentSorted c.
Proof.
  pose proof (content_sorted scenario.userA scenario.storeE6
                storeE6_reachable scenario.chatAB) as Hsorted.
  destruct (chats scenario.storeE6 !! scenario.chatAB) as [c|] eqn:Hc.
  - exists c. split; [reflexivity|]. apply Hsorted. reflexivity.
  - vm_compute in Hc. discriminate Hc.
Defined.

(** Scenario E6: the lines submitted in the order 2, 1, 3 are stored in
    the order 1, 2, 3, each under the name of its sender in the roster. *)
Example storeE6_content :
  (λ c, (λ m, (Message_UserName m, Message_Text m)) <$> Chat_Content c)
    <$> chats scenario.storeE6 !! scenario.chatAB
  = Some [("B", "first"); ("A", "second"); ("A", "third")].
Proof. vm_compute. reflexivity. Qed.

(** ** Reconciliation with the directory *)

(** C5.  [RefreshUsers] succeeds, and afterwards: the pair chat of every
    listed user other than the current one exists and is online; every
    chat stored before that is the pair chat of no such user is offline;
    every chat stored before is still there with exactly its content; and
    a chat that was not there before has no content. *)
Theorem RefreshUsers_reconciles (range : gmap string Chat → list Chat)
    (s : store) (users : list User) :
  rangeOrder range → store_wf s →
  ∃ s' : store,
    RefreshUsersIn range s users = (s', None)
    ∧ (∀ u, u ∈ users → User_Id u ≠ User_Id (currentUser s) →
         ∃ c, chats s' !! pairChatId (currentUser s) u = Some c
              ∧ Chat_Offline c = false)
    ∧ (∀ k c, chats s !! k = Some c →
         (∀ u, u ∈ users → User_Id u ≠ User_Id (currentUser s) →
               pairChatId (currentUser s) u ≠ k) →
         ∃ c', chats s' !! k = Some c' ∧ Chat_Offline c' = true)
    ∧ (∀ k c, chats s !! k = Some c →
         ∃ c', chats s' !! k = Some c' ∧ Chat_Content c' = Chat_Content c)
    ∧ (∀ k c', chats s !! k = None → chats s' !! k = Some c' →
         Chat_Content c' = [] ∧ Chat_Offline c' = false).
Proof.
  intros Hrange Hwf.
  destruct (RefreshUsersIn_spec range s users Hrange Hwf)
    as (s' & Hrun & Hcu & Hk).
  exists s'. split; [done|]. split; [|split; [|split]].
  - intros u Hin Hne. rewrite Hk.
    destruct (lastListed (currentUser s) users
                (pairChatId (currentUser s) u)) as [u'|] eqn:Hlast.
    + by eexists.
    + exfalso. by eapply (proj1 (lastListed_None _ _ _) Hlast u).
  - intros k c Hc Hnone. rewrite Hk.
    apply lastListed_None in Hnone. rewrite Hnone, Hc. by eexists.
  - intros k c Hc. rewrite Hk.
    destruct (lastListed (currentUser s) users k) as [u'|].
    + eexists. split; [done|]. unfold listedChat. simpl. by rewrite Hc.
    + rewrite Hc. by eexists.
  - intros k c' Hnone. rewrite Hk.
    destruct (lastListed (currentUser s) users k) as [u'|].
    + intros [= <-]. unfold listedChat. simpl. by rewrite Hnone.
    + by rewrite Hnone.
Qed.

Lemma RefreshUsers_reconciles_witness :
  ∃ s' : store,
    RefreshUsers scenario.storeE6 [scenario.userA] = (s', None)
    ∧ ∃ c', chats s' !! scenario.chatAB = Some c'
            ∧ Chat_Offline c' = true
            ∧ (Message_Text <$> Chat_Content c') = ["first"; "second"; "third"].
Proof.
  destruct (RefreshUsers_reconciles (λ m, (map_to_list m).*2)
              scenario.storeE6 [scenario.userA])
    as (s' & Hrun & _ & Hoff & Hcontent & _).
  - intros m. reflexivity.
  - apply (reachable_wf scenario.userA), storeE6_reachable.
  - exists s'. split; [exact Hrun|].
    assert (Hrun' := Hrun). vm_compute in Hrun'.
    injection Hrun' as <-. vm_compute. eexists. repeat split.
Defined.

(** C6.  A second [RefreshUsers] with the same list changes nothing: the
    store after two calls is the store after one, whatever the orders in
    which the two calls traverse the chats. *)
Theorem RefreshUsers_idempotent (range1 range2 : gmap string Chat → list Chat)
    (s : store) (users : list User) :
  rangeOrder range1 → rangeOrder range2 → store_wf s →
  RefreshUsersIn range2 (RefreshUsersIn range1 s users).1 users
  = RefreshUsersIn range1 s users.
Proof.
  intros Hrange1 Hrange2 Hwf.
  assert (Hwf1 := RefreshUsersIn_wf range1 s users Hrange1 Hwf).
  destruct (RefreshUsersIn_spec range1 s users Hrange1 Hwf)
    as (s1 & Hrun1 & Hcu1 & Hk1).
  rewrite Hrun1 in *. simpl in *.
  destruct (RefreshUsersIn_spec range2 s1 users Hrange2 Hwf1)
    as (s2 & -> & Hcu2 & Hk2).
  f_equal. apply store_eq; [congruence|].
  apply map_eq. intros k. rewrite Hk2, Hcu1, Hk1.
  destruct (lastListed (currentUser s) users k) as [u|].
  - unfold listedChat. rewrite Hcu1, Hk1.
    destruct (lastListed (currentUser s) users k) as [u'|] eqn:Hlast.
    + done.
    + simpl. by destruct (chats s !! k).
  - by destruct (chats s !! k) as [[]|].
Qed.

Lemma RefreshUsers_idempotent_witness :
  RefreshUsers (RefreshUsers scenario.storeE6 [scenario.userA]).1
               [scenario.userA]
  = RefreshUsers scenario.storeE6 [scenario.userA].
Proof.
  apply (RefreshUsers_idempotent (λ m, (map_to_list m).*2)
           (λ m, (map_to_list m).*2) scenario.storeE6 [scenario.userA]).
  - intros m. reflexivity.
  - intros m. reflexivity.
  - apply (reachable_wf scenario.userA), storeE6_reachable.
Defined.

(** [TestStore_RefreshUsers], first case: of two listed users, one of
    them the current user, one chat is stored, with the other user. *)
Example RefreshUsers_test_current_user_listed :
  let s := (RefreshUsers (NewStore scenario.testCurrentUser)
              [scenario.testUser1; scenario.testCurrentUser]) in
  s.2 = None
  ∧ (λ kc, Chat_Users kc.2) <$> map_to_list (chats s.1)
    = [[scenario.testUser1]].
Proof. vm_compute. split; reflexivity. Qed.

(** [TestStore_RefreshUsers], second case: after two users were listed and
    then only the first, both chats are there and exactly the chat of the
    second is offline. *)
Example RefreshUsers_test_offline :
  let s1 := (RefreshUsers (NewStore scenario.testCurrentUser)
               [scenario.testUser1; scenario.testUser2]).1 in
  let s2 := (RefreshUsers s1 [scenario.testUser1]).1 in
  (Chat_Offline <$> (map_to_list (chats s1)).*2) = [false; false]
  ∧ size (chats s2) = 2%nat
  ∧ Forall (λ c, Chat_Offline c
                 = bool_decide (User_Id <$> Chat_Users c = ["user2"]))
           (map_to_list (chats s2)).*2.
Proof.
  vm_compute. split; [reflexivity|]. split; [reflexivity|].
  repeat constructor.
Qed.

(** ** The current user is never a participant of a stored chat *)

Lemma refreshListed_skips (users : list User) :
  ∀ (snapshot : gmap string Chat) (s : store),
    refreshListed
      (filter (λ u, User_Id u ≠ User_Id (currentUser s)) users) snapshot s
    = refreshListed users snapshot s.
Proof.
  induction users as [|u users IH]; intros snapshot s; [done|].
  simpl. unfold CurrentUser.
  destruct (String.eqb (User_Id u) (User_Id (currentUser s))) eqn:Hu.
  - apply String.eqb_eq in Hu. rewrite filter_cons_False by naive_solver.
    apply IH.
  - assert (Hne := Hu). apply String.eqb_neq in Hne.
    rewrite filter_cons_True by done. simpl. unfold CurrentUser.
    rewrite Hu, (buildChat_single s u Hu). apply (IH _ (storeChat s _)).
Qed.

(** C7, the claim as stated fails: a [RefreshUsers] call whose list
    contains the current user is not rejected; it returns no error. *)
Lemma RefreshUsers_current_user_not_rejected :
  (RefreshUsers (NewStore scenario.userA) [scenario.userA; scenario.userB]).2
  = None
  ∧ chats (RefreshUsers (NewStore scenario.userA)
             [scenario.userA; scenario.userB]).1 !! scenario.chatAB
    = Some scenario.chatA.
Proof. vm_compute. split; reflexivity. Qed.

(** C7, amended.  [buildChat] rejects with [WrongNewChatUsersErr] exactly
    when one of the supplied users has the id of the current user, and a
    chat it builds has no such user.  [RefreshUsers] never rejects: it
    passes over the listed users with the id of the current user and
    behaves as if they had not been listed.  Hence no chat of a reachable
    store has the current user among its users. *)
Theorem current_user_never_chat_user :
  (∀ (s : store) (users : list User),
     buildChat s users = inr WrongNewChatUsersErr
     ↔ Exists (λ u, User_Id u = User_Id (currentUser s)) users)
  ∧ (∀ (s : store) (users : list User) (c : Chat),
       buildChat s users = inl c →
       Forall (λ u, User_Id u ≠ User_Id (currentUser s)) (Chat_Users c))
  ∧ (∀ (range : gmap string Chat → list Chat) (s : store) (users : list User),
       (RefreshUsersIn range s users).2 = None
       ∧ RefreshUsersIn range s
           (filter (λ u, User_Id u ≠ User_Id (currentUser s)) users)
         = RefreshUsersIn range s users)
  ∧ (∀ (cu : User) (s : store),
       reachable cu s →
       ∀ k c, chats s !! k = Some c →
              Forall (λ u, User_Id u ≠ User_Id cu) (Chat_Users c)).
Proof.
  split; [|split; [|split]].
  - intros s users. rewrite <- collectIds_None. unfold buildChat.
    by destruct (collectIds _ users).
  - intros s users c [-> Hall]%buildChat_inv. done.
  - intros range s users. split.
    + unfold RefreshUsersIn.
      by destruct (refreshListed_spec users (GetChats s) s)
        as (snapshot' & s1 & -> & _).
    + unfold RefreshUsersIn. by rewrite refreshListed_skips.
  - intros cu s.
    induction 1 as [|s m Hs IH|s users range Hs IH Hrange]; intros k c'.
    + simpl. by rewrite lookup_empty.
    + intros [Hc'|(c & u & -> & Hc & _ & ->)]%AddChatLine_lookup_cases.
      * by eapply IH.
      * simpl. by eapply IH.
    + intros Hc'. apply RefreshUsersIn_lookup_cases in Hc'
        as [(u & Hlast & ->)|(c & _ & Hc & ->)];
        [| |done|by eapply reachable_wf].
      * apply lastListed_Some in Hlast as (_ & Hne & _).
        rewrite (reachable_currentUser cu s Hs) in Hne.
        simpl. by repeat constructor.
      * simpl. by eapply IH.
Qed.

Lemma current_user_never_chat_user_witness :
  ∃ c, chats scenario.storeE6 !! scenario.chatAB = Some c
       ∧ Forall (λ u, User_Id u ≠ User_Id scenario.userA) (Chat_Users c).
Proof.
  destruct current_user_never_chat_user as (_ & _ & _ & Hreach).
  pose proof (Hreach scenario.userA scenario.storeE6
                storeE6_reachable scenario.chatAB) as Husers.
  destruct (chats scenario.storeE6 !! scenario.chatAB) as [c|] eqn:Hc.
  - exists c. split; [reflexivity|]. apply Husers. reflexivity.
  - vm_compute in Hc. discriminate Hc.
Defined.

End ReachableFacts.

(* ===================================================================== *)
(** * Numerals: [%05d] and [Atoi] *)
(* ===================================================================== *)

Section NumeralFacts.
Import strings fmt strconv errors.

Lemma byteZ_digit (d : Z) : 0 <= d <= 9 → byteZ (digit d) = 48 + d.
Proof.
  intros Hd. unfold byteZ, digit.
  rewrite N_ascii_embedding by lia. lia.
Qed.

Lemma byteZ_range (c : ascii) : 0 <= byteZ c < 256.
Proof.
  unfold byteZ. pose proof (N_ascii_bounded c). lia.
Qed.

(** The fast path of [Atoi] reads a digit exactly as a numeral has it. *)
Lemma atoiDigits_spec (s : string) (n : Z) :
  atoiDigits s n = if allDigits s then Some (decimalValue s n) else None.
Proof.
  revert n. induction s as [|c s IH]; intros n; simpl; [done|].
  unfold isDigit. pose proof (byteZ_range c) as Hc.
  destruct (Z.leb_spec 48 (byteZ c)) as [Hlo|Hlo]; simpl.
  - destruct (Z.leb_spec (byteZ c) 57) as [Hhi|Hhi]; simpl.
    + rewrite Z.mod_small by lia.
      destruct (Z.gtb_spec (byteZ c - 48) 9) as [?|_]; [lia|]. apply IH.
    + rewrite Z.mod_small by lia.
      by destruct (Z.gtb_spec (byteZ c - 48) 9) as [_|?]; [|lia].
  - replace ((byteZ c - 48) mod 256) with (byteZ c + 208).
    + by destruct (Z.gtb_spec (byteZ c + 208) 9) as [_|?]; [|lia].
    + apply Z.mod_unique with (q := -1); lia.
Qed.

(** [Atoi] accepts exactly the decimal numerals among the strings of
    fewer than nineteen bytes, and fails on the others with a syntax
    error. *)
Lemma Atoi_short (s : string) :
  (String.length s < 19)%nat →
  Atoi s = if isDecimal s then inl (decimal s)
           else inr (NumError "Atoi" s ErrSyntax).
Proof.
  intros Hlen. unfold Atoi.
  destruct s as [|c rest]; [done|].
  replace ((0 <? String.length (String c rest))%nat
           && (String.length (String c rest) <? 19)%nat) with true
    by (symmetry; apply andb_true_iff; split; apply Nat.ltb_lt;
        simpl in *; lia).
  unfold isDecimal, decimal.
  destruct (byteZ c =? 45) eqn:Hminus; [|destruct (byteZ c =? 43) eqn:Hplus];
    cbn [orb andb]; rewrite atoiDigits_spec.
  - destruct rest as [|c' rest']; [reflexivity|].
    cbn [String.length Nat.ltb Nat.leb Nat.eqb negb andb].
    destruct (allDigits (String c' rest')); reflexivity.
  - destruct rest as [|c' rest']; [reflexivity|].
    cbn [String.length Nat.ltb Nat.leb Nat.eqb negb andb].
    destruct (allDigits (String c' rest')); reflexivity.
  - destruct (allDigits (String c rest)); reflexivity.
Qed.

Lemma str_app_cons (c : ascii) (s t : string) :
  String c s +:+ t = String c (s +:+ t).
Proof. reflexivity. Qed.

Lemma str_app_assoc (s t u : string) : (s +:+ t) +:+ u = s +:+ (t +:+ u).
Proof.
  induction s as [|c s IH]; [done|]. by rewrite !str_app_cons, IH.
Qed.

Lemma str_app_nil_r (s : string) : s +:+ "" = s.
Proof. induction s as [|c s IH]; [done|]. by rewrite str_app_cons, IH. Qed.

Lemma str_length_app (s t : string) :
  String.length (s +:+ t) = (String.length s + String.length t)%nat.
Proof.
  induction s as [|c s IH]; [done|]. rewrite str_app_cons. simpl.
  by rewrite IH.
Qed.

Lemma allDigits_app (s t : string) :
  allDigits (s +:+ t) = allDigits s && allDigits t.
Proof.
  induction s as [|c s IH]; [done|]. rewrite str_app_cons. simpl.
  by rewrite IH, andb_assoc.
Qed.

Lemma decimalValue_app (s t : string) (n : Z) :
  decimalValue (s +:+ t) n = decimalValue t (decimalValue s n).
Proof.
  revert n. induction s as [|c s IH]; intros n; [done|].
  rewrite str_app_cons. simpl. apply IH.
Qed.

(** The digit loop of [fmtInteger] writes a numeral of [u]: at most [k]
    digits when [u < 10^k]. *)
Lemma fmtDigits_spec (k : nat) :
  ∀ (fuel : nat) (u : Z) (buf : string),
    (1 <= k <= fuel)%nat → 0 <= u < 10 ^ Z.of_nat k →
    ∃ ds : string,
      fmtDigits fuel u buf = ds +:+ buf
      ∧ (1 <= String.length ds <= k)%nat
      ∧ allDigits ds = true
      ∧ ∀ n, decimalValue ds n = n * 10 ^ Z.of_nat (String.length ds) + u.
Proof.
  induction k as [|k IH]; intros fuel u buf Hk Hu; [lia|].
  destruct fuel as [|fuel]; [lia|]. simpl.
  destruct (Z.geb_spec u 10) as [Hge|Hlt].
  - destruct k as [|k]; [simpl in Hu; lia|].
    destruct (IH fuel (u / 10) (String (digit (u - u / 10 * 10)) buf))
      as (ds & -> & Hlen & Hall & Hval); [lia| |].
    { split; [apply Z.div_pos; lia|].
      apply Z.div_lt_upper_bound; [lia|].
      rewrite Nat2Z.inj_succ, Z.pow_succ_r in Hu by lia. lia. }
    exists (ds +:+ String (digit (u - u / 10 * 10)) "").
    assert (Hd : 0 <= u - u / 10 * 10 <= 9).
    { pose proof (Z.mod_pos_bound u 10). pose proof (Z.div_mod u 10). lia. }
    split; [|split; [|split]].
    + by rewrite str_app_assoc.
    + rewrite str_length_app. simpl. lia.
    + rewrite allDigits_app, Hall. simpl. unfold isDigit.
      rewrite byteZ_digit by done.
      apply andb_true_iff. split; [|done].
      apply andb_true_iff. split; apply Z.leb_le; lia.
    + intros n. rewrite decimalValue_app, Hval. simpl.
      rewrite byteZ_digit by done. rewrite str_length_app. simpl.
      rewrite Nat2Z.inj_add, Z.pow_add_r by lia.
      change (Z.of_nat 1) with 1. lia.
  - exists (String (digit u) ""). split; [done|].
    split; [simpl; lia|]. split.
    + simpl. unfold isDigit. rewrite byteZ_digit by lia.
      apply andb_true_iff. split; [|done].
      apply andb_true_iff. split; apply Z.leb_le; lia.
    + intros n. simpl. rewrite byteZ_digit by lia. lia.
Qed.

Lemma padZeros_spec (k : nat) (buf : string) :
  ∃ zs : string,
    padZeros k buf = zs +:+ buf
    ∧ String.length zs = k
    ∧ allDigits zs = true
    ∧ ∀ n, decimalValue zs n = n * 10 ^ Z.of_nat k.
Proof.
  revert buf. induction k as [|k IH]; intros buf.
  - exists "". repeat split. intros n. simpl. lia.
  - simpl. destruct (IH (String "0" buf)) as (zs & -> & Hlen & Hall & Hval).
    exists (zs +:+ "0"). split; [|split; [|split]].
    + by rewrite str_app_assoc.
    + rewrite str_length_app. simpl. lia.
    + by rewrite allDigits_app, Hall.
    + intros n. rewrite decimalValue_app, Hval. simpl.
      change (byteZ "0" - 48) with 0.
      rewrite Nat2Z.inj_succ, Z.pow_succ_r by lia. lia.
Qed.

(** [%05d] writes a number below 100000 as a numeral of five digits. *)
Lemma Sprintf_05d_spec (n : Z) :
  0 <= n < 100000 →
  String.length (Sprintf_05d n) = 5%nat
  ∧ allDigits (Sprintf_05d n) = true
  ∧ decimalValue (Sprintf_05d n) 0 = n.
Proof.
  intros Hn. unfold Sprintf_05d.
  destruct (Z.ltb_spec n 0) as [?|_]; [lia|].
  rewrite Z.abs_eq by lia.
  destruct (fmtDigits_spec 5 20 n "") as (ds & -> & Hlen & Hall & Hval);
    [lia|simpl; lia|].
  rewrite str_app_nil_r.
  destruct (padZeros_spec (5 - String.length ds) ds)
    as (zs & -> & Hzlen & Hzall & Hzval).
  split; [|split].
  - rewrite str_length_app. lia.
  - by rewrite allDigits_app, Hzall, Hall.
  - rewrite decimalValue_app, Hzval, Hval. lia.
Qed.

(** What [%05d] writes for a payload length, [Atoi] reads back. *)
Lemma Atoi_Sprintf_05d (n : Z) :
  0 <= n < 100000 → Atoi (Sprintf_05d n) = inl n.
Proof.
  intros Hn. destruct (Sprintf_05d_spec n Hn) as (Hlen & Hall & Hval).
  rewrite Atoi_short by lia.
  destruct (Sprintf_05d n) as [|c rest] eqn:Hs; [done|].
  unfold isDecimal, decimal.
  assert (Hc : isDigit c = true) by (simpl in Hall; by destruct (isDigit c)).
  unfold isDigit in Hc. apply andb_true_iff in Hc as [Hlo Hhi].
  apply Z.leb_le in Hlo.
  destruct (Z.eqb_spec (byteZ c) 45) as [?|_]; [lia|].
  destruct (Z.eqb_spec (byteZ c) 43) as [?|_]; [lia|].
  simpl orb. cbv iota. by rewrite Hall, Hval.
Qed.
End NumeralFacts.

(* ===================================================================== *)
(** * The wire codec *)
(* ===================================================================== *)

Section ReadFullFacts.
Import errors.

Lemma ReadFull_end (len : nat) :
  (0 < len)%nat → io.ReadFull [] len = ([], 0%nat, Some EOF, []).
Proof. by destruct len; [lia|]. Qed.

Lemma ReadFull_short (r : list byte) (len : nat) :
  (0 < length r < len)%nat →
  io.ReadFull r len = (r, length r, Some ErrUnexpectedEOF, []).
Proof.
  intros Hlen. unfold io.ReadFull.
  destruct len as [|len]; [lia|]. destruct r as [|b r]; [simpl in Hlen; lia|].
  by rewrite (proj2 (Nat.ltb_lt _ _)) by lia.
Qed.

Lemma ReadFull_full (r : list byte) (len : nat) :
  (len <= length r)%nat →
  io.ReadFull r len = (take len r, len, None, drop len r).
Proof.
  intros Hlen. unfold io.ReadFull.
  destruct len as [|len]; [by rewrite take_0, drop_0|].
  destruct r as [|b r]; [simpl in Hlen; lia|].
  by rewrite (proj2 (Nat.ltb_ge _ _)) by lia.
Qed.

Lemma string_of_list_byte_length (l : list byte) :
  String.length (string_of_list_byte l) = length l.
Proof.
  unfold string_of_list_byte.
  induction l as [|b l IH]; simpl; [done|]. by rewrite IH.
Qed.

Lemma list_byte_of_string_length (s : string) :
  length (list_byte_of_string s) = String.length s.
Proof.
  unfold list_byte_of_string.
  induction s as [|c s IH]; simpl; [done|]. by rewrite IH.
Qed.
End ReadFullFacts.

Section ConnFacts.
Import errors conn strconv.

Variable gobEncode : NetworkMsg → list byte + error.
Variable gobDecode : list byte → NetworkMsg + error.

(** After a header of five bytes the reader goes by what [Atoi] makes of
    them. *)
Lemma ReadNetworkMessage_header (header rest : list byte) :
  length header = 5%nat →
  ReadNetworkMessage gobDecode (header ++ rest) =
    match Atoi (string_of_list_byte header) with
    | inr err => Returns (inr (Errorf_s sizeUnparseable err), rest)
    | inl size =>
        if size <? 0 then Panics "makeslice: len out of range"
        else
          let '(msg, _, err, c) := io.ReadFull rest (Z.to_nat size) in
          match err with
          | Some err => Returns (inr err, c)
          | None => Returns (gobDecode msg, c)
          end
    end.
Proof.
  intros Hlen. unfold ReadNetworkMessage.
  rewrite ReadFull_full by (rewrite length_app; lia).
  rewrite take_app_length' by done. rewrite drop_app_length' by done.
  simpl negb. cbv iota.
  destruct (Atoi (string_of_list_byte header)) as [size|err]; [|done].
  destruct (size <? 0); [done|].
  destruct (io.ReadFull rest (Z.to_nat size)) as [[[msg n] [err|]] c]; [done|].
  by destruct (gobDecode msg).
Qed.

(** C2, the claim as stated fails.  When the stream ends right after the
    header of a non-empty payload, the error is [EOF], not
    [ErrUnexpectedEOF]; and the text of the error for a header that is no
    number is not "invalid content: size unparseable". *)
Lemma ReadNetworkMessage_discipline_fails :
  ReadNetworkMessage scenario.tagDecode (list_byte_of_string "00009")
  = Returns (inr EOF, [])
  ∧ ∃ err rest,
      ReadNetworkMessage scenario.tagDecode
        (list_byte_of_string "definitely not a number")
      = Returns (inr err, rest)
      ∧ Error scenario.quotePlain (λ _, "") err
        = "invalid content message as the size of the message is unparseable: "
          +:+ "strconv.Atoi: parsing "
          +:+ directory.quote +:+ "defin" +:+ directory.quote
          +:+ ": invalid syntax"
      ∧ Error scenario.quotePlain (λ _, "") err
        ≠ "invalid content: size unparseable".
Proof.
  split; [vm_compute; reflexivity|].
  eexists _, _. split; [vm_compute; reflexivity|].
  split; [vm_compute; reflexivity|vm_compute; discriminate].
Qed.

(** C2, amended.  [ReadNetworkMessage] reads five header bytes and fails
    with [EOF] on an empty stream and with [ErrUnexpectedEOF] on a shorter
    one.  The header must be a decimal numeral (digits after an optional
    sign); otherwise the error is "invalid content message as the size of
    the message is unparseable: " followed by the syntax error of [Atoi].
    For a size that is not negative it then reads that many payload bytes
    and fails with [EOF] when the stream ends before the first of them and
    with [ErrUnexpectedEOF] when it ends later; the payload is decoded and
    errors of the decoder are returned as they are.  Only the header and
    the payload are taken from the stream. *)
Theorem ReadNetworkMessage_discipline (c : list byte) :
  (c = [] → ReadNetworkMessage gobDecode c = Returns (inr EOF, []))
  ∧ ((0 < length c < 5)%nat →
     ReadNetworkMessage gobDecode c = Returns (inr ErrUnexpectedEOF, []))
  ∧ (∀ header rest : list byte,
       c = (header ++ rest)%list → length header = 5%nat →
       let size := string_of_list_byte header in
       (isDecimal size = false →
        ReadNetworkMessage gobDecode c
        = Returns (inr (Errorf_s sizeUnparseable
                          (NumError "Atoi" size ErrSyntax)), rest))
       ∧ (isDecimal size = true → 0 <= decimal size →
          let n := Z.to_nat (decimal size) in
          ((0 < n)%nat → rest = [] →
           ReadNetworkMessage gobDecode c = Returns (inr EOF, []))
          ∧ ((0 < length rest < n)%nat →
             ReadNetworkMessage gobDecode c
             = Returns (inr ErrUnexpectedEOF, []))
          ∧ ((n <= length rest)%nat →
             ReadNetworkMessage gobDecode c
             = Returns (gobDecode (take n rest), drop n rest)))).
Proof.
  split; [|split].
  - by intros ->.
  - intros Hlen. unfold ReadNetworkMessage. by rewrite ReadFull_short.
  - intros header rest -> Hlen size.
    rewrite ReadNetworkMessage_header by done. fold size.
    rewrite Atoi_short by (unfold size; rewrite string_of_list_byte_length; lia).
    split.
    + by intros ->.
    + intros -> Hpos n.
      destruct (Z.ltb_spec (decimal size) 0) as [?|_]; [lia|]. fold n.
      split; [|split].
      * intros Hn ->. by rewrite ReadFull_end.
      * intros Hshort. by rewrite ReadFull_short.
      * intros Hfull. by rewrite ReadFull_full.
Qed.

(** A header that is the numeral of a negative number makes the reader
    panic when it allocates the payload buffer. *)
Lemma ReadNetworkMessage_negative_size (header rest : list byte) :
  length header = 5%nat →
  isDecimal (string_of_list_byte header) = true →
  decimal (string_of_list_byte header) < 0 →
  ReadNetworkMessage gobDecode (header ++ rest)
  = Panics "makeslice: len out of range".
Proof.
  intros Hlen Hdec Hneg. rewrite ReadNetworkMessage_header by done.
  rewrite Atoi_short by (rewrite string_of_list_byte_length; lia).
  rewrite Hdec. by destruct (Z.ltb_spec (decimal (string_of_list_byte header)) 0);
    [|lia].
Qed.

(** C10.  A header that is the numeral of a negative number makes
    [ReadNetworkMessage] panic in [make]: here the header "-0001",
    whatever follows it. *)
Theorem ReadNetworkMessage_negative_size_panics (rest : list byte) :
  ReadNetworkMessage gobDecode (list_byte_of_string "-0001" ++ rest)
  = Panics "makeslice: len out of range".
Proof. by rewrite ReadNetworkMessage_header. Qed.

(** C9.  Whenever the payload codec encodes the message of a chat line
    into at most 65535 bytes that it decodes back to that message,
    [writeToConn] writes the five-digit decimal length of the payload
    followed by the payload, and [ReadNetworkMessage] reads the message
    back from a stream that starts with these bytes, leaving what
    follows them. *)
Theorem frame_roundtrip (m : domain.Message) (payload rest : list byte) :
  gobEncode (networkMsgOf m) = inl payload →
  Z.of_nat (length payload) <= MaxUint16 →
  gobDecode payload = inl (networkMsgOf m) →
  ∃ header : string,
    header = fmt.Sprintf_05d (Z.of_nat (length payload))
    ∧ String.length header = 5%nat
    ∧ allDigits header = true
    ∧ decimalValue header 0 = Z.of_nat (length payload)
    ∧ writeToConn gobEncode m
      = Some (list_byte_of_string header ++ payload)%list
    ∧ ReadNetworkMessage gobDecode
        ((list_byte_of_string header ++ payload) ++ rest)
      = Returns (inl (networkMsgOf m), rest).
Proof.
  intros Henc Hmax Hdec. unfold MaxUint16 in Hmax.
  set (n := Z.of_nat (length payload)) in *.
  destruct (Sprintf_05d_spec n) as (Hlen & Hall & Hval); [lia|].
  eexists. split; [done|].
  split; [done|]. split; [done|]. split; [done|].
  split.
  - unfold writeToConn. rewrite Henc. fold n. unfold MaxUint16.
    by destruct (Z.gtb_spec n 65535) as [?|_]; [lia|].
  - rewrite <- app_assoc.
    rewrite ReadNetworkMessage_header
      by by rewrite list_byte_of_string_length.
    rewrite string_of_list_byte_of_string, Atoi_Sprintf_05d by lia.
    destruct (Z.ltb_spec n 0) as [?|_]; [lia|].
    rewrite ReadFull_full by (rewrite length_app; lia).
    unfold n. rewrite Nat2Z.id.
    rewrite take_app_length, drop_app_length. by rewrite Hdec.
Qed.

End ConnFacts.

Lemma ReadNetworkMessage_discipline_witness :
  conn.ReadNetworkMessage scenario.tagDecode
    (list_byte_of_string "00009payload")
  = conn.Returns (inr errors.ErrUnexpectedEOF, []).
Proof.
  destruct (ReadNetworkMessage_discipline scenario.tagDecode
              (list_byte_of_string "00009payload")) as (_ & _ & Hheader).
  destruct (Hheader (list_byte_of_string "00009")
                    (list_byte_of_string "payload") eq_refl eq_refl)
    as (_ & Hsize).
  destruct Hsize as (_ & Hshort & _); [reflexivity|vm_compute; discriminate|].
  apply Hshort. vm_compute. lia.
Defined.

Lemma frame_roundtrip_witness :
  ∃ header : string,
    header = "00060"
    ∧ String.length header = 5%nat
    ∧ strconv.allDigits header = true
    ∧ strconv.decimalValue header 0 = Z.of_nat (length scenario.helloPayload)
    ∧ conn.writeToConn scenario.tagEncode scenario.hello
      = Some (list_byte_of_string header ++ scenario.helloPayload)%list
    ∧ conn.ReadNetworkMessage scenario.tagDecode
        ((list_byte_of_string header ++ scenario.helloPayload)
           ++ list_byte_of_string "next")
      = conn.Returns (inl (conn.networkMsgOf scenario.hello),
                      list_byte_of_string "next").
Proof.
  change "00060"%string
    with (fmt.Sprintf_05d (Z.of_nat (length scenario.helloPayload))).
  apply (frame_roundtrip scenario.tagEncode scenario.tagDecode
           scenario.hello scenario.helloPayload (list_byte_of_string "next")).
  - reflexivity.
  - vm_compute. discriminate.
  - vm_compute. reflexivity.
Defined.

(** The failing cases of [TestReadNetworkMessage] that do not depend on
    the payload codec. *)
Example ReadNetworkMessage_test_errors :
  conn.ReadNetworkMessage scenario.tagDecode [] = conn.Returns (inr errors.EOF, [])
  ∧ conn.ReadNetworkMessage scenario.tagDecode ["001"%byte; "002"%byte; "003"%byte]
    = conn.Returns (inr errors.ErrUnexpectedEOF, [])
  ∧ conn.ReadNetworkMessage scenario.tagDecode
      (list_byte_of_string "definitely not a number")
    = conn.Returns
        (inr (errors.Errorf_s conn.sizeUnparseable
                (errors.NumError "Atoi" "defin" errors.ErrSyntax)),
         list_byte_of_string "itely not a number")
  ∧ conn.ReadNetworkMessage scenario.tagDecode
      (list_byte_of_string "00009payload")
    = conn.Returns (inr errors.ErrUnexpectedEOF, []).
Proof. repeat split; vm_compute; reflexivity. Qed.

(** The texts of the errors of [ReadNetworkMessage], as [Error] renders
    them: the text for the header of the test above is the one the test
    expects once [Quote] puts the header between double quotes. *)
Example ReadNetworkMessage_error_texts (Quote : string → string)
    (Itoa : Z → string) (header : string) :
  errors.Error Quote Itoa errors.EOF = "EOF"
  ∧ errors.Error Quote Itoa errors.ErrUnexpectedEOF = "unexpected EOF"
  ∧ errors.Error Quote Itoa
      (errors.Errorf_s conn.sizeUnparseable
         (errors.NumError "Atoi" header errors.ErrSyntax))
    = "invalid content message as the size of the message is unparseable: "
      +:+ "strconv.Atoi: parsing " +:+ Quote header +:+ ": invalid syntax".
Proof. repeat split. Qed.

(* ===================================================================== *)
(** * The directory: admission of a record *)
(* ===================================================================== *)

Section TrimFacts.
Import strings trim.

Lemma index_ascii (s : string) (i : nat) :
  isASCII s = true → index s i < utf8.RuneSelf.
Proof.
  unfold index. revert i. induction s as [|c s IH]; intros i Hs; simpl.
  - by destruct i.
  - simpl in Hs. apply andb_true_iff in Hs as [Hc Hs].
    destruct i as [|i]; [by apply Z.ltb_lt|]. by apply IH.
Qed.

(** Once the first byte is no space, the second loop of [TrimSpace] leaves
    it in place. *)
Lemma trimStop_first (c : ascii) (rest : string) (stop : nat) :
  isASCII (String c rest) = true → asciiSpace (byteZ c) = false →
  trimStop (String c rest) (S stop) ≠ "".
Proof.
  intros Hs Hc. induction stop as [|stop IH]; simpl.
  - unfold index. simpl. simpl in Hs. apply andb_true_iff in Hs as [Hlt _].
    apply Z.ltb_lt in Hlt.
    destruct (Z.geb_spec (byteZ c) utf8.RuneSelf) as [?|_]; [lia|].
    by rewrite Hc.
  - pose proof (index_ascii (String c rest) (S stop) Hs) as Hlt.
    destruct (Z.geb_spec (index (String c rest) (S stop)) utf8.RuneSelf)
      as [?|_]; [lia|].
    by destruct (asciiSpace (index (String c rest) (S stop))).
Qed.

(** For a string of ASCII bytes, nothing is left after [TrimSpace] exactly
    when every byte is one of the six ASCII space characters. *)
Lemma TrimSpace_ascii_blank (s : string) :
  isASCII s = true → (TrimSpace s = "" ↔ allAsciiSpace s = true).
Proof.
  induction s as [|c s IH]; intros Hs; [done|].
  assert (Hs' := Hs). simpl in Hs'. apply andb_true_iff in Hs' as [Hlt Hrest].
  apply Z.ltb_lt in Hlt. simpl.
  destruct (Z.geb_spec (byteZ c) utf8.RuneSelf) as [?|_]; [lia|].
  destruct (asciiSpace (byteZ c)) eqn:Hc; simpl.
  - by apply IH.
  - split; [|done]. intros Hblank. exfalso.
    by apply (trimStop_first c s (String.length s) Hs Hc).
Qed.
End TrimFacts.

Section DirectoryFacts.
Import directory.

Variable jsonUnmarshal : string → option Client.

Lemma length_zero_blank (s : string) :
  (String.length (trim.TrimSpace s) =? 0)%nat = true ↔ blank s.
Proof.
  unfold blank. rewrite Nat.eqb_eq.
  destruct (trim.TrimSpace s); simpl; split; intros; congruence.
Qed.

(** [Validate] checks the id, the name, the address and the port, in this
    order, and reports the first failure. *)
Lemma Validate_cases (c : Client) :
  (blank (ID c) ∧ Validate c = Some "client id empty")
  ∨ (¬ blank (ID c) ∧ blank (Name c) ∧ Validate c = Some "client name empty")
  ∨ (¬ blank (ID c) ∧ ¬ blank (Name c) ∧ blank (IP c)
     ∧ Validate c = Some "client ip empty")
  ∨ (¬ blank (ID c) ∧ ¬ blank (Name c) ∧ ¬ blank (IP c) ∧ Port c < 1000
     ∧ Validate c = Some "invalid client port")
  ∨ (¬ blank (ID c) ∧ ¬ blank (Name c) ∧ ¬ blank (IP c) ∧ 1000 <= Port c
     ∧ Validate c = None).
Proof.
  unfold Validate.
  destruct (String.length (trim.TrimSpace (ID c)) =? 0)%nat eqn:Hid.
  { left. split; [by apply length_zero_blank|done]. }
  right.
  assert (¬ blank (ID c)) by (rewrite <- length_zero_blank; congruence).
  destruct (String.length (trim.TrimSpace (Name c)) =? 0)%nat eqn:Hname.
  { left. split; [done|]. split; [by apply length_zero_blank|done]. }
  right.
  assert (¬ blank (Name c)) by (rewrite <- length_zero_blank; congruence).
  destruct (String.length (trim.TrimSpace (IP c)) =? 0)%nat eqn:Hip.
  { left. do 2 (split; [done|]). split; [by apply length_zero_blank|done]. }
  right.
  assert (¬ blank (IP c)) by (rewrite <- length_zero_blank; congruence).
  destruct (Z.ltb_spec (Port c) 1000) as [Hport|Hport].
  - left. by do 4 (split; [done|]).
  - right. by do 4 (split; [done|]).
Qed.

(** C8.  For a request whose body decodes to the record [c]: the record
    passes validation exactly when its id, name and address are not blank
    after trimming and its port is at least 1000; a record that fails is
    answered with status 400 and the body [{"message": "<reason>"}], the
    registry being left as it was; a record that fails on the port only,
    such as one with port 999, gets the reason "invalid client port"; and
    a record that passes is put into the registry under its id. *)
Theorem ping_admission (reg : gmap string Client) (all : string) (c : Client) :
  jsonUnmarshal all = Some c →
  (Validate c = None
     ↔ ¬ blank (ID c) ∧ ¬ blank (Name c) ∧ ¬ blank (IP c) ∧ 1000 <= Port c)
  ∧ (∀ reason, Validate c = Some reason →
       pingHandler jsonUnmarshal reg (BodyBytes all)
       = (reg, {| status := 400; body := messageBody reason |}))
  ∧ (blank (ID c) ∨ blank (Name c) ∨ blank (IP c) ∨ Port c < 1000 →
       ∃ reason,
         reason ∈ ["client id empty"; "client name empty"; "client ip empty";
                   "invalid client port"]
         ∧ pingHandler jsonUnmarshal reg (BodyBytes all)
           = (reg, {| status := 400; body := messageBody reason |}))
  ∧ (¬ blank (ID c) → ¬ blank (Name c) → ¬ blank (IP c) → Port c < 1000 →
       pingHandler jsonUnmarshal reg (BodyBytes all)
       = (reg, {| status := 400; body := messageBody "invalid client port" |}))
  ∧ (Validate c = None →
       pingHandler jsonUnmarshal reg (BodyBytes all)
       = (<[ID c := c]> reg, {| status := 200; body := "" |})).
Proof.
  intros Hjson. split; [|split; [|split; [|split]]].
  - destruct (Validate_cases c)
      as [(? & ->)|[(? & ? & ->)|[(? & ? & ? & ->)|[(? & ? & ? & ? & ->)
         |(? & ? & ? & ? & ->)]]]];
      split; try done; intros (? & ? & ? & ?); try done; lia.
  - intros reason Hreason. simpl. by rewrite Hjson, Hreason.
  - intros Hviolation. simpl. rewrite Hjson.
    destruct (Validate_cases c)
      as [(? & ->)|[(? & ? & ->)|[(? & ? & ? & ->)|[(? & ? & ? & ? & ->)
         |(? & ? & ? & ? & _)]]]].
    + eexists. split; [|done]. apply list_elem_of_here.
    + eexists. split; [|done]. do 1 apply list_elem_of_further.
      apply list_elem_of_here.
    + eexists. split; [|done]. do 2 apply list_elem_of_further.
      apply list_elem_of_here.
    + eexists. split; [|done]. do 3 apply list_elem_of_further.
      apply list_elem_of_here.
    + exfalso. destruct Hviolation as [?|[?|[?|?]]]; try done. lia.
  - intros Hid Hname Hip Hport. simpl. rewrite Hjson.
    destruct (Validate_cases c)
      as [(? & _)|[(? & ? & _)|[(? & ? & ? & _)|[(? & ? & ? & ? & ->)
         |(? & ? & ? & ? & _)]]]]; try done; lia.
  - intros Hvalid. simpl. by rewrite Hjson, Hvalid.
Qed.

End DirectoryFacts.

Lemma ping_admission_witness :
  directory.pingHandler scenario.unmarshalLowPort ∅ (directory.BodyBytes "{}")
  = (∅, {| directory.status := 400;
           directory.body := directory.messageBody "invalid client port" |}).
Proof.
  destruct (ping_admission scenario.unmarshalLowPort ∅ "{}" scenario.lowPort
              eq_refl) as (_ & _ & _ & Hport & _).
  apply Hport; vm_compute; (discriminate || reflexivity).
Defined.

(** What counts as blank: ASCII and Unicode white space, and nothing
    else. *)
Example TrimSpace_examples :
  trim.TrimSpace ("  a b " +:+ String (ascii_of_nat 9) " ") = "a b"
  ∧ directory.blank ""
  ∧ directory.blank (String (ascii_of_nat 9) (String (ascii_of_nat 10) "  "))
  ∧ directory.blank (String (ascii_of_nat 194) (String (ascii_of_nat 160) ""))
  ∧ directory.blank
      (String (ascii_of_nat 227)
         (String (ascii_of_nat 128) (String (ascii_of_nat 128) " ")))
  ∧ ¬ directory.blank (String (ascii_of_nat 160) "")
  ∧ ¬ directory.blank " x ".
Proof. repeat split; vm_compute; (reflexivity || discriminate). Qed.

(* ===================================================================== *)
(** * The store: what a sequence of calls keeps *)
(* ===================================================================== *)

Section StoreEvolution.
Import domain data inmemory.

Lemma reachable_pairChatOf (cu : User) (s : store) :
  reachable cu s → ∀ k c, chats s !! k = Some c → pairChatOf cu c.
Proof.
  induction 1 as [|s m Hs IH|s users range Hs IH Hrange]; intros k c'.
  - simpl. by rewrite lookup_empty.
  - intros [Hc'|(c & u & -> & Hc & _ & ->)]%AddChatLine_lookup_cases.
    + by eapply IH.
    + by eapply (IH _ c).
  - intros Hc'. apply RefreshUsersIn_lookup_cases in Hc'
      as [(u & Hlast & ->)|(c & _ & Hc & ->)];
      [| |done|by eapply reachable_wf].
    + apply lastListed_Some in Hlast as (_ & Hne & Hk).
      rewrite (reachable_currentUser cu s Hs) in Hne, Hk.
      split; [by apply reachable_currentUser|].
      exists u. by simpl.
    + by eapply (IH _ c).
Qed.

(** X1.  Every chat of a store reached from a new one is stored under its
    own id, is owned by the current user and has exactly one remote
    user, who is not the current user; its id is the id of the pair chat
    of the two. *)
Theorem reachable_chats_are_pair_chats (cu : User) (s : store) (k : string)
    (c : Chat) :
  reachable cu s → chats s !! k = Some c →
  Chat_Id c = k
  ∧ Chat_OwnerUser c = cu
  ∧ ∃ u, Chat_Users c = [u]
         ∧ User_Id u ≠ User_Id cu
         ∧ k = pairChatId cu u
         ∧ GetOtherUsers c = [u]
         ∧ GetAllUsers c = [u; cu].
Proof.
  intros Hs Hc.
  pose proof (reachable_wf cu s Hs k c Hc) as Hid.
  destruct (reachable_pairChatOf cu s Hs k c Hc) as (Hown & u & Hu & Hne & Hk).
  split; [done|]. split; [done|]. exists u.
  unfold GetOtherUsers, GetAllUsers. rewrite Hu, Hown.
  repeat split; try done. congruence.
Qed.

Lemma reachable_chats_are_pair_chats_witness :
  ∃ c, chats scenario.storeE6 !! scenario.chatAB = Some c
       ∧ Chat_Id c = scenario.chatAB
       ∧ Chat_OwnerUser c = scenario.userA
       ∧ GetAllUsers c = [scenario.userB; scenario.userA].
Proof.
  destruct (chats scenario.storeE6 !! scenario.chatAB) as [c|] eqn:Hc.
  - destruct (reachable_chats_are_pair_chats scenario.userA scenario.storeE6
                scenario.chatAB c storeE6_reachable Hc)
      as (Hid & Hown & u & Hu & _ & _ & _ & Hall).
    exists c. split; [reflexivity|]. split; [exact Hid|].
    split; [exact Hown|]. rewrite Hall. f_equal.
    vm_compute in Hc. injection Hc as <-. simpl in Hu. by injection Hu as <-.
  - vm_compute in Hc. discriminate Hc.
Defined.

(** X2.  Every message of a chat of a reachable store carries the id of
    that chat, and its sender is the current user or a user whose pair
    chat with the current user is that chat. *)
Theorem reachable_messages_addressed (cu : User) (s : store) (k : string)
    (c : Chat) (m : Message) :
  reachable cu s → chats s !! k = Some c → m ∈ Chat_Content c →
  Message_ChatId m = k
  ∧ (Message_UserId m = User_Id cu
     ∨ ∃ u, Message_UserId m = User_Id u
            ∧ User_Id u ≠ User_Id cu
            ∧ pairChatId cu u = k).
Proof.
  intros Hs. revert k c m. change (∀ k c m, chats s !! k = Some c →
    m ∈ Chat_Content c → addressedTo cu k m).
  induction Hs as [|s m0 Hs IH|s users range Hs IH Hrange]; intros k c' m.
  - simpl. by rewrite lookup_empty.
  - intros [Hc'|(c & u & -> & Hc & Hu & ->)]%AddChatLine_lookup_cases.
    + by eapply IH.
    + simpl. rewrite (Slice_perm lessAt), elem_of_app, list_elem_of_singleton.
      intros [Hm| ->]; [by eapply IH|].
      split; [done|]. simpl.
      destruct (reachable_pairChatOf cu s Hs _ c Hc)
        as (Hown & u0 & Husers & Hne & Hk).
      rewrite (reachable_wf cu s Hs _ c Hc) in Hk.
      apply GetUser_Some in Hu as [Hid [Hin| ->]].
      * rewrite Husers in Hin. apply list_elem_of_singleton in Hin as ->.
        right. by exists u0.
      * left. by rewrite Hown in Hid.
  - intros Hc'. apply RefreshUsersIn_lookup_cases in Hc'
      as [(u & _ & ->)|(c & _ & Hc & ->)];
      [| |done|by eapply reachable_wf].
    + unfold listedChat. simpl.
      destruct (chats s !! k) as [c|] eqn:Hc; simpl.
      * by eapply IH.
      * by intros ?%elem_of_nil.
    + simpl. by eapply IH.
Qed.

Lemma reachable_messages_addressed_witness :
  ∃ c m, chats scenario.storeE6 !! scenario.chatAB = Some c
         ∧ Chat_Content c !! 0%nat = Some m
         ∧ Message_ChatId m = scenario.chatAB
         ∧ (Message_UserId m = User_Id scenario.userA
            ∨ ∃ u, Message_UserId m = User_Id u
                   ∧ User_Id u ≠ User_Id scenario.userA
                   ∧ pairChatId scenario.userA u = scenario.chatAB).
Proof.
  destruct (chats scenario.storeE6 !! scenario.chatAB) as [c|] eqn:Hc;
    [|vm_compute in Hc; discriminate Hc].
  destruct (Chat_Content c !! 0%nat) as [m|] eqn:Hm;
    [|vm_compute in Hc; injection Hc as <-; vm_compute in Hm; discriminate Hm].
  exists c, m. split; [reflexivity|]. split; [exact Hm|].
  apply (reachable_messages_addressed scenario.userA scenario.storeE6
           scenario.chatAB c m storeE6_reachable Hc).
  by eapply list_elem_of_lookup_2.
Defined.

Lemma AddChatLine_keeps (s : store) (message : Message) (k : string)
    (c : Chat) :
  chats s !! k = Some c →
  ∃ c', chats (AddChatLine s message).1 !! k = Some c'
        ∧ Chat_Content c ⊆+ Chat_Content c'
        ∧ Chat_Users c' = Chat_Users c.
Proof.
  intros Hc. unfold AddChatLine.
  destruct (chats s !! Message_ChatId message) as [c0|] eqn:Hc0;
    [|by exists c].
  destruct (GetUser c0 (Message_UserId message)) as [u|]; [|by exists c].
  simpl. destruct (decide (Message_ChatId message = k)) as [Hk|Hk].
  - rewrite Hk in Hc0. rewrite Hk, lookup_insert_eq.
    eexists. split; [done|]. simpl.
    assert (c0 = c) as -> by congruence. split; [|done].
    rewrite (Slice_perm lessAt). by apply submseteq_inserts_r.
  - rewrite lookup_insert_ne by done. by exists c.
Qed.

Lemma RefreshUsersIn_keeps (range : gmap string Chat → list Chat)
    (s : store) (users : list User) (k : string) (c : Chat) :
  rangeOrder range → store_wf s → chats s !! k = Some c →
  ∃ c', chats (RefreshUsersIn range s users).1 !! k = Some c'
        ∧ Chat_Content c' = Chat_Content c.
Proof.
  intros Hrange Hwf Hc.
  destruct (RefreshUsersIn_spec range s users Hrange Hwf)
    as (s' & -> & _ & Hk).
  simpl. rewrite Hk.
  destruct (lastListed (currentUser s) users k) as [u|].
  - eexists. split; [done|]. unfold listedChat. simpl. by rewrite Hc.
  - rewrite Hc. by eexists.
Qed.

Lemma evolves_wf (s s' : store) : store_wf s → evolves s s' → store_wf s'.
Proof.
  intros Hwf. induction 1 as [|s' m _ IH|s' users range _ IH Hrange].
  - done.
  - by apply AddChatLine_wf.
  - by apply RefreshUsersIn_wf.
Qed.

(** X3.  Nothing is ever deleted: whatever calls of [AddChatLine] and
    [RefreshUsers] follow, a chat that is stored stays stored under its
    id, and every message it holds stays in it, as many times as it
    occurs. *)
Theorem chats_and_messages_are_kept (s s' : store) (k : string) (c : Chat) :
  store_wf s → evolves s s' → chats s !! k = Some c →
  ∃ c', chats s' !! k = Some c' ∧ Chat_Content c ⊆+ Chat_Content c'.
Proof.
  intros Hwf Hev. revert c.
  induction Hev as [|s' m Hev IH|s' users range Hev IH Hrange]; intros c Hc.
  - by exists c.
  - destruct (IH c Hc) as (c1 & Hc1 & Hsub).
    destruct (AddChatLine_keeps s' m k c1 Hc1) as (c2 & Hc2 & Hsub2 & _).
    exists c2. split; [done|]. by etrans.
  - destruct (IH c Hc) as (c1 & Hc1 & Hsub).
    destruct (RefreshUsersIn_keeps range s' users k c1 Hrange
                (evolves_wf s s' Hwf Hev) Hc1) as (c2 & Hc2 & Heq).
    exists c2. split; [done|]. by rewrite Heq.
Qed.

Lemma storeA_wf : store_wf scenario.storeA.
Proof.
  apply (reachable_wf scenario.userA). unfold scenario.storeA, RefreshUsers.
  apply reachable_refresh; [apply reachable_new|by intros m].
Qed.

Lemma storeA_evolves_storeE6 : evolves scenario.storeA scenario.storeE6.
Proof. unfold scenario.storeE6. repeat apply evolves_add. apply evolves_refl. Qed.

Lemma chats_and_messages_are_kept_witness :
  ∃ c c', chats scenario.storeA !! scenario.chatAB = Some c
          ∧ chats scenario.storeE6 !! scenario.chatAB = Some c'
          ∧ Chat_Content c ⊆+ Chat_Content c'.
Proof.
  destruct (chats scenario.storeA !! scenario.chatAB) as [c|] eqn:Hc;
    [|vm_compute in Hc; discriminate Hc].
  destruct (chats_and_messages_are_kept scenario.storeA scenario.storeE6
              scenario.chatAB c storeA_wf storeA_evolves_storeE6 Hc)
    as (c' & Hc' & Hsub).
  exists c, c'. split; [reflexivity|]. split; [exact Hc'|exact Hsub].
Defined.









End StoreEvolution.

(* ===================================================================== *)
(** * Identity: the ids of users and of chats *)
(* ===================================================================== *)

Section IdentityFacts.
Import strings base64 domain inmemory.

Lemma encode_table :
  Forall (λ v, Forall (λ w, encode v = encode w → v = w) (seqZ 0 64)
               ∧ encode v ≠ StdPadding ∧ encode v ≠ "_"%char) (seqZ 0 64).
Proof. apply (bool_decide_unpack _). vm_compute. exact I. Qed.

Lemma encode_inj (v w : Z) :
  0 <= v < 64 → 0 <= w < 64 → encode v = encode w → v = w.
Proof.
  intros Hv Hw. pose proof encode_table as Ht.
  rewrite Forall_forall in Ht. destruct (Ht v) as (Hall & _).
  { apply elem_of_seqZ. lia. }
  rewrite Forall_forall in Hall. apply Hall. apply elem_of_seqZ. lia.
Qed.

Lemma encode_plain (v : Z) :
  0 <= v < 64 → encode v ≠ StdPadding ∧ encode v ≠ "_"%char.
Proof.
  intros Hv. pose proof encode_table as Ht.
  rewrite Forall_forall in Ht. destruct (Ht v) as (_ & H). 
  { apply elem_of_seqZ. lia. } done.
Qed.


Lemma lor_low (a b n : Z) :
  0 <= n → 0 <= b < 2 ^ n → Z.lor (a * 2 ^ n) b = a * 2 ^ n + b.
Proof.
  intros Hn Hb. symmetry. apply Z.add_nocarry_lor.
  apply Z.bits_inj'. intros m Hm. rewrite Z.land_spec, Z.bits_0.
  destruct (Z.lt_ge_cases m n) as [Hlt|Hge].
  - by rewrite Z.mul_pow2_bits_low.
  - destruct (Z.eq_dec b 0) as [->|Hb0]; [by rewrite Z.bits_0, andb_false_r|].
    rewrite (Z.bits_above_log2 b m), andb_false_r; [done|lia|].
    apply Z.lt_le_trans with n; [|done]. apply Z.log2_lt_pow2; lia.
Qed.

Lemma sextet (val k : Z) :
  0 <= k → Z.land (Z.shiftr val k) 63 = (val / 2 ^ k) mod 64.
Proof.
  intros Hk. rewrite Z.shiftr_div_pow2 by done.
  change 63 with (Z.ones 6). by rewrite Z.land_ones.
Qed.

Lemma sextet0 (val : Z) : Z.land val 63 = val mod 64.
Proof. change 63 with (Z.ones 6). by rewrite Z.land_ones. Qed.

Lemma sextet_range (x : Z) : 0 <= Z.land x 63 < 64.
Proof. rewrite sextet0. by apply Z.mod_pos_bound. Qed.

Lemma val2 (b0 b1 : ascii) :
  Z.lor (Z.shiftl (byteZ b0) 16) (Z.shiftl (byteZ b1) 8)
  = byteZ b0 * 65536 + byteZ b1 * 256.
Proof.
  pose proof (byteZ_range b0). pose proof (byteZ_range b1).
  rewrite !Z.shiftl_mul_pow2 by lia.
  rewrite (lor_low (byteZ b0) (byteZ b1 * 2 ^ 8) 16) by lia. lia.
Qed.

Lemma val3 (b0 b1 b2 : ascii) :
  Z.lor (Z.lor (Z.shiftl (byteZ b0) 16) (Z.shiftl (byteZ b1) 8)) (byteZ b2)
  = byteZ b0 * 65536 + byteZ b1 * 256 + byteZ b2.
Proof.
  pose proof (byteZ_range b0). pose proof (byteZ_range b1).
  pose proof (byteZ_range b2). rewrite val2.
  replace (byteZ b0 * 65536 + byteZ b1 * 256)
    with ((byteZ b0 * 256 + byteZ b1) * 2 ^ 8) by lia.
  rewrite lor_low by lia. lia.
Qed.

Lemma byteZ_inj (a b : ascii) : byteZ a = byteZ b → a = b.
Proof.
  unfold byteZ. intros H%(inj Z.of_N).
  by rewrite <- (ascii_N_embedding a), <- (ascii_N_embedding b), H.
Qed.

Lemma EncodeToString_inj (s1 : string) :
  ∀ s2, EncodeToString s1 = EncodeToString s2 → s1 = s2.
Proof.
  remember (String.length s1) as n eqn:Hn. revert s1 Hn.
  induction n as [n IH] using lt_wf_ind. intros s1 Hn s2.
  destruct s1 as [|a0 [|a1 [|a2 r1]]]; destruct s2 as [|b0 [|b1 [|b2 r2]]];
    cbn [EncodeToString]; intros H; try discriminate H; try done.
  all: injection H; clear H; intros.
  all: repeat match goal with
       | H : StdPadding = encode (Z.land ?x 63) |- _ =>
           exfalso; symmetry in H;
           by apply (proj1 (encode_plain _ (sextet_range x)))
       | H : encode (Z.land ?x 63) = StdPadding |- _ =>
           exfalso; by apply (proj1 (encode_plain _ (sextet_range x)))
       end.
  all: repeat match goal with
       | H : encode _ = encode _ |- _ =>
           apply encode_inj in H; [|apply sextet_range..]
       end.
  all: pose proof (byteZ_range a0); pose proof (byteZ_range b0).
  - rewrite !sextet, !Z.shiftl_mul_pow2 in * by lia.
    f_equal. apply byteZ_inj.
    change (2 ^ 16) with 65536 in *. change (2 ^ 12) with 4096 in *.
    change (2 ^ 18) with 262144 in *. Z.div_mod_to_equations. lia.
  - pose proof (byteZ_range a1); pose proof (byteZ_range b1).
    rewrite !sextet, !val2 in * by lia.
    change (2 ^ 6) with 64 in *. change (2 ^ 12) with 4096 in *.
    change (2 ^ 18) with 262144 in *.
    assert (byteZ a0 = byteZ b0 ∧ byteZ a1 = byteZ b1) as [Ha0 Ha1] by (Z.div_mod_to_equations; lia).
    apply byteZ_inj in Ha0, Ha1. by subst.
  - pose proof (byteZ_range a1); pose proof (byteZ_range b1).
    pose proof (byteZ_range a2); pose proof (byteZ_range b2).
    rewrite !sextet, !sextet0, !val3 in * by lia.
    change (2 ^ 6) with 64 in *. change (2 ^ 12) with 4096 in *.
    change (2 ^ 18) with 262144 in *.
    assert (byteZ a0 = byteZ b0 ∧ byteZ a1 = byteZ b1 ∧ byteZ a2 = byteZ b2)
      as (Ha0 & Ha1 & Ha2) by (Z.div_mod_to_equations; lia).
    apply byteZ_inj in Ha0, Ha1, Ha2. subst. do 3 f_equal.
    eapply (IH (String.length r1)); [simpl; lia|done|done].
Qed.

Lemma str_app_nil_l (s : string) : "" +:+ s = s.
Proof. reflexivity. Qed.

Lemma without_app (c : ascii) (s t : string) :
  without c (s +:+ t) = without c s && without c t.
Proof.
  induction s as [|b s IH]; [done|].
  rewrite str_app_cons. simpl. rewrite IH. by rewrite andb_assoc.
Qed.

(** A text is cut at its first underscore in one way only. *)
Lemma split_first (a a' b b' : string) :
  without "_" a = true → without "_" a' = true →
  a +:+ String "_" b = a' +:+ String "_" b' → a = a' ∧ b = b'.
Proof.
  revert a'. induction a as [|x a IH]; intros [|x' a'] Ha Ha'.
  - rewrite !str_app_nil_l. by intros [= ->].
  - rewrite str_app_nil_l, str_app_cons. intros [= <- _]. done.
  - rewrite str_app_nil_l, str_app_cons. intros [= -> _]. done.
  - rewrite !str_app_cons. intros [= -> Hrest].
    simpl in Ha, Ha'. apply andb_prop in Ha as [_ Ha], Ha' as [_ Ha'].
    destruct (IH a' Ha Ha' Hrest) as [-> ->]. done.
Qed.

(** A text is cut at its last underscore in one way only. *)
Lemma split_last (a a' b b' : string) :
  without "_" b = true → without "_" b' = true →
  a +:+ String "_" b = a' +:+ String "_" b' → a = a' ∧ b = b'.
Proof.
  intros Hb Hb'. revert a'. induction a as [|x a IH]; intros [|x' a'].
  - rewrite !str_app_nil_l. by intros [= ->].
  - rewrite str_app_nil_l, str_app_cons. intros [= <- ->].
    rewrite without_app in Hb. simpl in Hb. by rewrite andb_false_r in Hb.
  - rewrite str_app_nil_l, str_app_cons. intros [= -> <-].
    rewrite without_app in Hb'. simpl in Hb'. by rewrite andb_false_r in Hb'.
  - rewrite !str_app_cons. intros [= -> Hrest].
    destruct (IH a' Hrest) as [-> ->]. done.
Qed.

Lemma Join_pair (a b : string) : Join [a; b] "_" = a +:+ String "_" b.
Proof. reflexivity. Qed.

Lemma Strings_pair (a b : string) :
  sort.Strings [a; b] = if strings.less b a then [b; a] else [a; b].
Proof. reflexivity. Qed.

Lemma chatIdOf_pair_cases (a b c d : string) :
  without "_" a = true → without "_" b = true →
  without "_" c = true → without "_" d = true →
  chatIdOf [a; b] = chatIdOf [c; d] → (a = c ∧ b = d) ∨ (a = d ∧ b = c).
Proof.
  intros Ha Hb Hc Hd. unfold chatIdOf. intros Hid%EncodeToString_inj.
  revert Hid. rewrite !Strings_pair.
  destruct (strings.less b a), (strings.less d c); rewrite !Join_pair;
    intros [-> ->]%split_first; auto.
Qed.

(** X5.  For user ids without an underscore the chat id tells the pair
    of participants: two pairs have the same chat id exactly when they
    are the same pair, in either order. *)
Theorem chatIdOf_pair_inj (a b c d : string) :
  without "_" a = true → without "_" b = true →
  without "_" c = true → without "_" d = true →
  chatIdOf [a; b] = chatIdOf [c; d] ↔ (a = c ∧ b = d) ∨ (a = d ∧ b = c).
Proof.
  intros Ha Hb Hc Hd. split.
  - by apply chatIdOf_pair_cases.
  - intros [[-> ->]|[-> ->]]; [done|]. apply chatIdOf_perm, Permutation_swap.
Qed.

Lemma chatIdOf_pair_inj_witness :
  ("aaa" = "bbb" ∧ "bbb" = "aaa") ∨ ("aaa" = "aaa" ∧ "bbb" = "bbb").
Proof.
  apply (chatIdOf_pair_inj "aaa" "bbb" "bbb" "aaa");
    vm_compute; reflexivity.
Defined.

(** With underscores in the ids two different peers can have the same
    pair chat with a user. *)
Example chatIdOf_collision :
  chatIdOf ["_a__"; "_a_"] = chatIdOf ["_a__"; "a__"].
Proof. vm_compute. reflexivity. Qed.

Lemma pairChatId_inj (cu u1 u2 : User) :
  without "_" (User_Id cu) = true →
  without "_" (User_Id u1) = true → without "_" (User_Id u2) = true →
  pairChatId cu u1 = pairChatId cu u2 → User_Id u1 = User_Id u2.
Proof.
  intros Hcu H1 H2 Hid. apply chatIdOf_pair_cases in Hid; [|done..].
  destruct Hid as [[_ ?]|[-> <-]]; done.
Qed.

(** X6.  When neither the id of the current user nor the ids of the
    listed users hold an underscore, [RefreshUsers] leaves every listed
    user, other than the current one, a chat of their own: the chat
    stored under the id of their pair chat has one remote user, and
    that user is a listed user with the same id. *)
Theorem RefreshUsers_own_chat (range : gmap string Chat → list Chat)
    (s : store) (users : list User) (u : User) :
  rangeOrder range → store_wf s →
  without "_" (User_Id (currentUser s)) = true →
  Forall (λ u, without "_" (User_Id u) = true) users →
  u ∈ users → User_Id u ≠ User_Id (currentUser s) →
  ∃ c u', chats (RefreshUsersIn range s users).1
            !! pairChatId (currentUser s) u = Some c
          ∧ Chat_Users c = [u']
          ∧ u' ∈ users
          ∧ User_Id u' = User_Id u
          ∧ Chat_Offline c = false.
Proof.
  intros Hrange Hwf Hcu Hall Hin Hne.
  destruct (RefreshUsersIn_spec range s users Hrange Hwf)
    as (s' & -> & _ & Hk).
  simpl. rewrite Hk.
  destruct (lastListed (currentUser s) users
              (pairChatId (currentUser s) u)) as [u'|] eqn:Hlast.
  - apply lastListed_Some in Hlast as (Hin' & _ & Hid).
    exists (listedChat s (pairChatId (currentUser s) u) u'), u'.
    do 3 (split; [done|]). split; [|done].
    rewrite Forall_forall in Hall.
    apply (pairChatId_inj (currentUser s)); auto.
  - exfalso. by eapply (proj1 (lastListed_None _ _ _) Hlast u).
Qed.

Lemma RefreshUsers_own_chat_witness :
  ∃ c u', chats (RefreshUsers (NewStore scenario.userA)
                   [scenario.userA; scenario.userB]).1
            !! pairChatId scenario.userA scenario.userB = Some c
          ∧ Chat_Users c = [u']
          ∧ u' ∈ [scenario.userA; scenario.userB]
          ∧ User_Id u' = "bbb"
          ∧ Chat_Offline c = false.
Proof.
  apply (RefreshUsers_own_chat (λ m, (map_to_list m).*2)
           (NewStore scenario.userA)
           [scenario.userA; scenario.userB] scenario.userB).
  - intros m. reflexivity.
  - apply NewStore_wf.
  - vm_compute. reflexivity.
  - repeat constructor.
  - apply list_elem_of_further, list_elem_of_here.
  - vm_compute. discriminate.
Defined.

Lemma EncodeToString_without (s : string) :
  without "_" (EncodeToString s) = true.
Proof.
  remember (String.length s) as n eqn:Hn. revert s Hn.
  induction n as [n IH] using lt_wf_ind. intros s Hn.
  assert (∀ x, without "_" (String (encode (Z.land x 63)) "") = true) as He.
  { intros x. simpl. rewrite andb_true_r. apply negb_true_iff, Ascii.eqb_neq.
    apply encode_plain, sextet_range. }
  destruct s as [|a0 [|a1 [|a2 r]]]; cbn [EncodeToString]; [done|..].
  - cbn [without]. pose proof (He (Z.shiftr (Z.shiftl (byteZ a0) 16) 18)) as H1.
    pose proof (He (Z.shiftr (Z.shiftl (byteZ a0) 16) 12)) as H2.
    cbn [without] in H1, H2. rewrite andb_true_r in H1, H2.
    by rewrite H1, H2.
  - cbn [without].
    repeat match goal with
    | |- context [Ascii.eqb (encode (Z.land ?x 63)) "_"] =>
        let H := fresh in
        pose proof (He x) as H; cbn [without] in H;
        rewrite andb_true_r in H; rewrite H; clear H
    end. done.
  - cbn [without].
    repeat match goal with
    | |- context [Ascii.eqb (encode (Z.land ?x 63)) "_"] =>
        let H := fresh in
        pose proof (He x) as H; cbn [without] in H;
        rewrite andb_true_r in H; rewrite H; clear H
    end. simpl. eapply (IH (String.length r)); [simpl in Hn; lia|done].
Qed.

Lemma allDigits_without (s : string) :
  strconv.allDigits s = true → without "_" s = true.
Proof.
  induction s as [|c s IH]; [done|]. simpl.
  intros [Hc Hs]%andb_prop. rewrite (IH Hs), andb_true_r.
  apply negb_true_iff, Ascii.eqb_neq. intros ->. by vm_compute in Hc.
Qed.

Lemma Sprintf_d_spec (n : Z) :
  0 <= n < 10 ^ 20 →
  strconv.allDigits (fmt.Sprintf_d n) = true
  ∧ strconv.decimalValue (fmt.Sprintf_d n) 0 = n.
Proof.
  intros Hn. unfold fmt.Sprintf_d.
  destruct (Z.ltb_spec n 0) as [?|_]; [lia|].
  rewrite Z.abs_eq by lia.
  destruct (fmtDigits_spec 20 20 n "") as (ds & -> & _ & Hall & Hval);
    [lia|done|].
  rewrite str_app_nil_r. split; [done|]. by rewrite Hval.
Qed.

(** X7.  The id [main] derives for the current user from its address
    and its port holds no underscore, and two such ids are the same
    only for the same address and the same port. *)
Theorem currentUserId_inj (ip1 ip2 : string) (port1 port2 : Z) :
  0 <= port1 < 2 ^ 63 → 0 <= port2 < 2 ^ 63 →
  without "_" (main.currentUserId ip1 port1) = true
  ∧ (main.currentUserId ip1 port1 = main.currentUserId ip2 port2
     ↔ ip1 = ip2 ∧ port1 = port2).
Proof.
  intros H1 H2. split; [apply EncodeToString_without|].
  split; [|by intros [-> ->]].
  unfold main.currentUserId. intros Hid%EncodeToString_inj.
  destruct (Sprintf_d_spec port1) as [Hd1 Hv1]; [lia|].
  destruct (Sprintf_d_spec port2) as [Hd2 Hv2]; [lia|].
  apply split_last in Hid as [-> Hport]; [|by apply allDigits_without..].
  split; [done|]. by rewrite <- Hv1, <- Hv2, Hport.
Qed.

Lemma currentUserId_inj_witness :
  without "_" (main.currentUserId "10.0.0.1" 1000) = true
  ∧ (main.currentUserId "10.0.0.1" 1000 = main.currentUserId "10.0.0.1" 1000
     ↔ "10.0.0.1" = "10.0.0.1" ∧ 1000 = 1000).
Proof. apply (currentUserId_inj "10.0.0.1" "10.0.0.1" 1000 1000); lia. Defined.

Example currentUserId_example :
  main.currentUserId "10.0.0.1" 1000 = "MTAuMC4wLjFfMTAwMA==".
Proof. vm_compute. reflexivity. Qed.

End IdentityFacts.

(* ===================================================================== *)
(** * The socket: the port and the address *)
(* ===================================================================== *)

Section ListenFacts.
Import errors socket.

Lemma tryPorts_spec (listen : Z → net.listenResult) (fuel : nat) :
  ∀ i : Z,
    match tryPorts listen fuel i with
    | inl p =>
        i <= p < i + Z.of_nat fuel
        ∧ listen p = net.Listening
        ∧ ∀ q, i <= q < p → listen q = net.AddrInUse
    | inr err =>
        (err = New "no available port"
         ∧ ∀ q, i <= q < i + Z.of_nat fuel → listen q = net.AddrInUse)
        ∨ ∃ p, i <= p < i + Z.of_nat fuel
               ∧ listen p = net.ListenFailed err
               ∧ ∀ q, i <= q < p → listen q = net.AddrInUse
    end.
Proof.
  induction fuel as [|fuel IH]; intros i.
  - simpl. left. split; [done|]. intros q Hq. lia.
  - cbn [tryPorts]. destruct (listen i) eqn:Hi.
    + split; [lia|]. split; [done|]. intros q Hq. lia.
    + specialize (IH (i + 1)).
      destruct (tryPorts listen fuel (i + 1)) as [p|err].
      * destruct IH as (Hp & Hl & Hq). split; [lia|]. split; [done|].
        intros q Hrange. destruct (decide (q = i)) as [->|]; [done|].
        apply Hq. lia.
      * destruct IH as [[-> Hq]|(p & Hp & Hl & Hq)].
        -- left. split; [done|]. intros q Hrange.
           destruct (decide (q = i)) as [->|]; [done|]. apply Hq. lia.
        -- right. exists p. split; [lia|]. split; [done|].
           intros q Hrange. destruct (decide (q = i)) as [->|]; [done|].
           apply Hq. lia.
    + right. exists i. split; [lia|]. split; [done|]. intros q Hq. lia.
Qed.

(** X8.  [listenOnAvailablePort] returns the lowest port from 1000 to
    65534 on which [net.Listen] succeeds, provided every lower port
    from 1000 on is in use; it gives up with the error of the first
    port that fails for another reason, and with "no available port"
    when all the ports from 1000 to 65534 are in use.  Port 65535 is
    never tried. *)
Theorem listenOnAvailablePort_lowest_free (listen : Z → net.listenResult) :
  match listenOnAvailablePort listen with
  | inl p =>
      1000 <= p < 65535
      ∧ listen p = net.Listening
      ∧ ∀ q, 1000 <= q < p → listen q = net.AddrInUse
  | inr err =>
      (err = New "no available port"
       ∧ ∀ q, 1000 <= q < 65535 → listen q = net.AddrInUse)
      ∨ ∃ p, 1000 <= p < 65535
             ∧ listen p = net.ListenFailed err
             ∧ ∀ q, 1000 <= q < p → listen q = net.AddrInUse
  end.
Proof.
  unfold listenOnAvailablePort.
  pose proof (tryPorts_spec listen (Z.to_nat (65535 - portSeed)) portSeed)
    as Hspec.
  replace (portSeed + Z.of_nat (Z.to_nat (65535 - portSeed))) with 65535
    in Hspec by (unfold portSeed; lia).
  exact Hspec.
Qed.

Lemma firstIp_spec (addrs : list net.Addr) :
  match firstIp addrs with
  | inl text =>
      ∃ before after,
        addrs = (before ++ net.IPNet false true text :: after)%list
        ∧ ∀ a, a ∈ before → ∀ t, a ≠ net.IPNet false true t
  | inr err =>
      err = New "could not figure out the IP of your machine"
      ∧ ∀ a, a ∈ addrs → ∀ t, a ≠ net.IPNet false true t
  end.
Proof.
  induction addrs as [|a addrs IH]; simpl.
  - split; [done|]. by intros a ?%elem_of_nil.
  - destruct a as [[|] [|] text|];
      try (destruct (firstIp addrs) as [t|err];
           [destruct IH as (before & after & -> & Hb);
            eexists (_ :: before), after; split; [done|];
            by intros a [->|?]%elem_of_cons; [|apply Hb]
           |destruct IH as [-> Ha]; split; [done|];
            by intros a [->|?]%elem_of_cons; [|apply Ha]]).
    exists [], addrs. split; [done|]. by intros a ?%elem_of_nil.
Qed.

End ListenFacts.

(* ===================================================================== *)
(** * The directory: the server and the heartbeat *)
(* ===================================================================== *)

Section ServerFacts.
Import directory.
Variable jsonUnmarshal : string → option Client.
Variable jsonMarshal : list Client → option string.
Variable items : gmap string Client → list Client.

Lemma pingHandler_cases (reg : gmap string Client) (r : Body) :
  (∃ all c, r = BodyBytes all ∧ jsonUnmarshal all = Some c
            ∧ Validate c = None
            ∧ pingHandler jsonUnmarshal reg r
              = (<[ID c := c]> reg, {| status := StatusOK; body := "" |}))
  ∨ (∃ text, pingHandler jsonUnmarshal reg r
             = (reg, {| status := StatusBadRequest; body := text |})
             ∧ ∀ all c, r = BodyBytes all → jsonUnmarshal all = Some c →
                        Validate c = Some text ∨ Validate c ≠ None).
Proof.
  destruct r as [| |all]; simpl.
  - right. eexists. split; [done|]. done.
  - right. eexists. split; [done|]. done.
  - destruct (jsonUnmarshal all) as [c|] eqn:Hc.
    + destruct (Validate c) as [err|] eqn:Hv.
      * right. eexists. split; [done|].
        intros all' c' [= <-]. rewrite Hc. intros [= <-]. right. congruence.
      * left. by exists all, c.
    + right. eexists. split; [done|]. intros all' c' [= <-]. by rewrite Hc.
Qed.

(** X9.  The server changes its registry only for a [PUT /ping] whose
    body decodes to a valid record, which it puts under the id of the
    record and answers with 200; [GET /clients] leaves the registry as
    it is, and every other path or method is answered with 404 and the
    text "server does not support the given request". *)
Theorem ServeHTTP_cases (reg : gmap string Client) (r : Request) :
  (Path r = "/ping" ∧ Method r = "PUT"
   ∧ ∃ all c, RequestBody r = BodyBytes all
              ∧ jsonUnmarshal all = Some c
              ∧ Validate c = None
              ∧ ServeHTTP jsonUnmarshal jsonMarshal items reg r
                = (<[ID c := c]> reg, {| status := 200; body := "" |}))
  ∨ (Path r = "/ping" ∧ Method r = "PUT"
     ∧ ∃ text, ServeHTTP jsonUnmarshal jsonMarshal items reg r
               = (reg, {| status := 400; body := text |}))
  ∨ (Path r = "/clients" ∧ Method r = "GET"
     ∧ ∃ resp, ServeHTTP jsonUnmarshal jsonMarshal items reg r = (reg, resp)
               ∧ (status resp = 200 ∧ jsonMarshal (items reg) = Some (body resp)
                  ∨ status resp = 500 ∧ jsonMarshal (items reg) = None))
  ∨ ((Path r ≠ "/ping" ∨ Method r ≠ "PUT")
     ∧ (Path r ≠ "/clients" ∨ Method r ≠ "GET")
     ∧ ServeHTTP jsonUnmarshal jsonMarshal items reg r
       = (reg, {| status := 404;
                  body := "server does not support the given request" |})).
Proof.
  unfold ServeHTTP.
  destruct (String.eqb_spec (Path r) "/clients") as [Hp|Hp];
    [destruct (String.eqb_spec (Method r) "GET") as [Hm|Hm]|]; simpl.
  - right. right. left. split; [done|]. split; [done|].
    unfold clientsHandler, GetClients.
    destruct (jsonMarshal (items reg)) as [m|]; eexists; split; try done.
    + by left.
    + by right.
  - rewrite Hp. simpl. right. right. right.
    split; [by left|]. split; [by right|done].
  - destruct (String.eqb_spec (Path r) "/ping") as [Hp'|Hp'];
      [destruct (String.eqb_spec (Method r) "PUT") as [Hm|Hm]|]; simpl.
    + destruct (pingHandler_cases reg (RequestBody r))
        as [(all & c & Hb & Hc & Hv & ->)|(text & -> & _)].
      * left. split; [done|]. split; [done|]. by exists all, c.
      * right. left. split; [done|]. split; [done|]. by exists text.
    + right. right. right. split; [by right|]. split; [by left|done].
    + right. right. right. split; [by left|]. split; [by left|done].
Qed.

Lemma ServeHTTP_step (reg : gmap string Client) (r : Request) :
  (ServeHTTP jsonUnmarshal jsonMarshal items reg r).1 = reg
  ∨ ∃ c, Validate c = None
         ∧ (ServeHTTP jsonUnmarshal jsonMarshal items reg r).1
           = <[ID c := c]> reg.
Proof.
  unfold ServeHTTP.
  destruct (String.eqb (Path r) "/clients" && String.eqb (Method r) "GET");
    [by left|].
  destruct (String.eqb (Path r) "/ping" && String.eqb (Method r) "PUT");
    [|by left].
  destruct (pingHandler_cases reg (RequestBody r))
    as [(all & c & _ & _ & Hv & ->)|(text & -> & _)];
    [right; by exists c|by left].
Qed.

(** X10.  Whatever requests the server has served, and whatever records
    have expired, every record of its registry is stored under its own
    id and is valid: none of its id, name and address is blank, and its
    port is at least 1000.  Hence [GET /clients] lists valid records
    only. *)
Theorem served_records_valid (reg : gmap string Client) :
  served jsonUnmarshal jsonMarshal items reg →
  (∀ k c, reg !! k = Some c →
          ID c = k ∧ ¬ blank (ID c) ∧ ¬ blank (Name c) ∧ ¬ blank (IP c)
          ∧ 1000 <= Port c)
  ∧ (items reg ≡ₚ (map_to_list reg).*2 →
     Forall (λ c, Validate c = None) (GetClients items reg).1).
Proof.
  intros Hserved.
  assert (∀ k c, reg !! k = Some c → ID c = k ∧ Validate c = None) as Hinv.
  { induction Hserved as [|reg r _ IH|reg id _ IH]; intros k c.
    - by rewrite lookup_empty.
    - destruct (ServeHTTP_step reg r) as [->|(c0 & Hv & ->)]; [apply IH|].
      destruct (decide (ID c0 = k)) as [<-|Hne].
      + rewrite lookup_insert_eq. by intros [= <-].
      + rewrite lookup_insert_ne by done. apply IH.
    - destruct (decide (id = k)) as [<-|Hne].
      + by rewrite lookup_delete_eq.
      + rewrite lookup_delete_ne by done. apply IH. }
  split.
  - intros k c Hc. destruct (Hinv k c Hc) as [Hid Hv]. split; [done|].
    destruct (Validate_cases c)
      as [[_ H]|[(_ & _ & H)|[(_ & _ & _ & H)
         |[(_ & _ & _ & _ & H)|(? & ? & ? & ? & _)]]]];
      [congruence..|done].
  - intros Hitems. unfold GetClients. simpl. rewrite Hitems.
    apply Forall_forall. intros c Hc.
    apply list_elem_of_fmap in Hc as ([k c'] & -> & Hin).
    apply elem_of_map_to_list in Hin. by destruct (Hinv k c' Hin).
Qed.

End ServerFacts.

Lemma served_records_valid_witness :
  ∃ c, (directory.ServeHTTP
          (scenario.unmarshalClientOf scenario.userA)
          scenario.marshalClients scenario.valuesOf ∅
          (directoryclient.pingRequest "{}")).1 !! "aaa" = Some c
       ∧ directory.ID c = "aaa" ∧ 1000 <= directory.Port c.
Proof.
  destruct (served_records_valid
              (scenario.unmarshalClientOf scenario.userA)
              scenario.marshalClients scenario.valuesOf _
              (directory.served_request _ _ _ ∅
                 (directoryclient.pingRequest "{}")
                 (directory.served_new _ _ _))) as [Hrec _].
  exists (directoryclient.clientOf scenario.userA).
  assert ((directory.ServeHTTP
             (scenario.unmarshalClientOf scenario.userA)
             scenario.marshalClients scenario.valuesOf ∅
             (directoryclient.pingRequest "{}")).1 !! "aaa"
          = Some (directoryclient.clientOf scenario.userA)) as Hc
    by (vm_compute; reflexivity).
  split; [exact Hc|].
  destruct (Hrec "aaa" _ Hc) as (Hid & _ & _ & _ & Hport).
  split; [exact Hid|exact Hport].
Defined.

Section HeartbeatFacts.
Import domain errors directoryclient.
Variable jsonMarshal : User → string + error.
Variable NewRequest : Request → Request + error.
Variable Do : Request → Response + error.
Variable s : string.
Variable jsonUnmarshal : string → option directory.Client.
Variable jsonMarshalClients : list directory.Client → option string.
Variable items : gmap string directory.Client → list directory.Client.

(** X11.  The heartbeat, end to end.  When the transport delivers the
    request of [Ping] to the server as a [PUT /ping] with the marshalled
    user as its body and brings back the answer, and the server decodes
    the body to the record of the user, then [Ping] returns [nil]
    exactly when the record is valid, and the server then holds the
    record under the id of the user; otherwise [Ping] returns "non 2xx
    http status: 400" and the registry is as before. *)
Theorem Ping_end_to_end (reg : gmap string directory.Client) (user : User)
    (marshal : string) (req : Request) :
  jsonMarshal user = inl marshal →
  NewRequest {| method := "PUT"; url := s +:+ "/ping";
                body := Some marshal |} = inl req →
  Do req = inl (answer (directory.ServeHTTP jsonUnmarshal jsonMarshalClients
                          items reg (pingRequest marshal)).2) →
  jsonUnmarshal marshal = Some (clientOf user) →
  (directory.Validate (clientOf user) = None
   ∧ Ping jsonMarshal NewRequest Do s user = None
   ∧ (directory.ServeHTTP jsonUnmarshal jsonMarshalClients items reg
        (pingRequest marshal)).1 = <[User_Id user := clientOf user]> reg)
  ∨ (directory.Validate (clientOf user) ≠ None
     ∧ Ping jsonMarshal NewRequest Do s user = Some (Errorf_d nonSuccess 400)
     ∧ (directory.ServeHTTP jsonUnmarshal jsonMarshalClients items reg
          (pingRequest marshal)).1 = reg).
Proof.
  intros Hm Hreq Hdo Hdecode. unfold Ping. rewrite Hm.
  change (strings.Join [s; pingHTTPContext] "/") with (s +:+ "/ping").
  unfold pingHTTPMethod. rewrite Hreq, Hdo.
  unfold directory.ServeHTTP, pingRequest. simpl. rewrite Hdecode.
  destruct (directory.Validate (clientOf user)) as [err|] eqn:Hv; simpl.
  - right. done.
  - left. done.
Qed.

(** X12.  The user that [main] gives to the store is built from the
    socket before [Listen] has chosen a port: its port is 0 and its id
    is the encoding of the address followed by "_0".  The directory
    does not admit such a record, so every heartbeat of the client
    fails with "non 2xx http status: 400" and leaves the registry as it
    is. *)
Theorem startup_user_not_admitted (interfaceAddrs : list net.Addr + error)
    (so : socket.socket) (currentUserName : string) :
  socket.NewSocket interfaceAddrs = inl so →
  User_Port (main.currentUser so currentUserName) = 0
  ∧ User_Id (main.currentUser so currentUserName)
    = base64.EncodeToString (socket.LocalIP so +:+ "_0")
  ∧ directory.Validate (clientOf (main.currentUser so currentUserName)) ≠ None
  ∧ ∀ (reg : gmap string directory.Client) (marshal : string) (req : Request),
      jsonMarshal (main.currentUser so currentUserName) = inl marshal →
      NewRequest {| method := "PUT"; url := s +:+ "/ping";
                    body := Some marshal |} = inl req →
      Do req = inl (answer (directory.ServeHTTP jsonUnmarshal
                              jsonMarshalClients items reg
                              (pingRequest marshal)).2) →
      jsonUnmarshal marshal
      = Some (clientOf (main.currentUser so currentUserName)) →
      Ping jsonMarshal NewRequest Do s (main.currentUser so currentUserName)
      = Some (Errorf_d nonSuccess 400)
      ∧ (directory.ServeHTTP jsonUnmarshal jsonMarshalClients items reg
           (pingRequest marshal)).1 = reg.
Proof.
  intros Hso.
  assert (socket.port so = 0) as Hport.
  { unfold socket.NewSocket in Hso.
    destruct (socket.findIp interfaceAddrs); by inversion Hso. }
  assert (directory.Validate (clientOf (main.currentUser so currentUserName))
          ≠ None) as Hv.
  { unfold directory.Validate. simpl. unfold socket.AllocatedPort.
    rewrite Hport. by repeat case_match. }
  split; [done|]. split.
  { unfold main.currentUser, main.currentUserId, socket.AllocatedPort. simpl.
    by rewrite Hport. }
  split; [done|].
  intros reg marshal req Hm Hreq Hdo Hdecode. unfold Ping. rewrite Hm.
  change (strings.Join [s; pingHTTPContext] "/") with (s +:+ "/ping").
  unfold pingHTTPMethod. rewrite Hreq, Hdo.
  unfold directory.ServeHTTP, pingRequest. simpl. rewrite Hdecode.
  by destruct (directory.Validate
                 (clientOf (main.currentUser so currentUserName))).
Qed.

End HeartbeatFacts.

Lemma Ping_end_to_end_witness :
  directoryclient.Ping scenario.marshalUser inl
    (scenario.deliver scenario.userA) "http://directory" scenario.userA
  = None.
Proof.
  destruct (Ping_end_to_end scenario.marshalUser inl
              (scenario.deliver scenario.userA) "http://directory"
              (scenario.unmarshalClientOf scenario.userA)
              scenario.marshalClients scenario.valuesOf
              ∅ scenario.userA "{}" _ eq_refl eq_refl eq_refl eq_refl)
    as [(_ & Hping & _)|(Hv & _)].
  - exact Hping.
  - exfalso. apply Hv. vm_compute. reflexivity.
Defined.

Lemma startup_user_not_admitted_witness :
  domain.User_Port (main.currentUser
               {| socket.port := 0; socket.ip := "10.0.0.1";
                  socket.connections := ∅ |} "A") = 0
  ∧ domain.User_Id (main.currentUser
               {| socket.port := 0; socket.ip := "10.0.0.1";
                  socket.connections := ∅ |} "A") = "MTAuMC4wLjFfMA==".
Proof.
  destruct (startup_user_not_admitted scenario.marshalUser inl
              (scenario.deliver scenario.userA) "http://directory"
              (scenario.unmarshalClientOf scenario.userA)
              scenario.marshalClients scenario.valuesOf
              (inl [net.IPNet true true "127.0.0.1";
                    net.IPNet false true "10.0.0.1"])
              {| socket.port := 0; socket.ip := "10.0.0.1";
                 socket.connections := ∅ |} "A" eq_refl)
    as (Hport & Hid & _).
  split; [exact Hport|]. rewrite Hid. vm_compute. reflexivity.
Defined.

(* ===================================================================== *)
(** * The wire codec: a stream of frames *)
(* ===================================================================== *)

Section StreamFacts.
Import errors strconv fmt conn.
Variable gobEncode : NetworkMsg → list byte + error.
Variable gobDecode : list byte → NetworkMsg + error.

(** The frame of a message that is sent, and how it is read back. *)
Lemma frame_read_back (m : domain.Message) (frame rest : list byte) :
  writeToConn gobEncode m = Some frame →
  (∀ payload, gobEncode (networkMsgOf m) = inl payload →
              gobDecode payload = inl (networkMsgOf m)) →
  ReadNetworkMessage gobDecode (frame ++ rest)
  = Returns (inl (networkMsgOf m), rest).
Proof.
  unfold writeToConn. intros Hw Hcodec.
  destruct (gobEncode (networkMsgOf m)) as [payload|] eqn:Henc; [|done].
  specialize (Hcodec payload eq_refl).
  set (n := Z.of_nat (length payload)) in *.
  destruct (Z.gtb_spec n MaxUint16) as [?|Hmax]; [done|].
  injection Hw as <-. unfold MaxUint16 in Hmax.
  rewrite <- app_assoc.
  rewrite ReadNetworkMessage_header
    by (rewrite list_byte_of_string_length;
        by destruct (Sprintf_05d_spec n) as (? & _); [lia|]).
  rewrite string_of_list_byte_of_string, Atoi_Sprintf_05d by lia.
  destruct (Z.ltb_spec n 0) as [?|_]; [lia|].
  rewrite ReadFull_full by (rewrite length_app; lia).
  unfold n. rewrite Nat2Z.id.
  rewrite take_app_length, drop_app_length. by rewrite Hcodec.
Qed.

(** X13.  What one side writes, the other reads.  Of the chat lines the
    write loop takes, those whose encoding fails or is longer than 65535
    bytes are dropped; when the codec decodes the others back, the read
    loop at the other end of the connection hands them to its callback
    in the order in which they were sent, with their chat id, user id,
    text and time and with an empty user name, and it ends with [EOF]
    when the connection is closed after the last of them. *)
Theorem stream_read_back (ms : list domain.Message) (fuel : nat) :
  (∀ m payload, m ∈ ms → gobEncode (networkMsgOf m) = inl payload →
                gobDecode payload = inl (networkMsgOf m)) →
  (length ms < fuel)%nat →
  readLoop gobDecode fuel (written gobEncode ms)
  = Some ((λ m, received (networkMsgOf m))
            <$> filter (λ m, is_Some (writeToConn gobEncode m)) ms,
          Ended EOF).
Proof.
  revert fuel. induction ms as [|m ms IH]; intros fuel Hcodec Hfuel.
  - destruct fuel as [|fuel]; [simpl in Hfuel; lia|]. done.
  - destruct fuel as [|fuel]; [simpl in Hfuel; lia|].
    unfold written. cbn [omap list_omap].
    rewrite filter_cons.
    destruct (writeToConn gobEncode m) as [frame|] eqn:Hw.
    + rewrite decide_True by done. cbn [concat readLoop].
      rewrite (frame_read_back m frame _ Hw).
      * fold (written gobEncode ms).
        rewrite IH; [done| |simpl in Hfuel; lia].
        intros m' payload Hin. apply Hcodec. by apply list_elem_of_further.
      * intros payload. apply Hcodec, list_elem_of_here.
    + rewrite decide_False by (by intros [? ?]).
      fold (written gobEncode ms). apply IH; [|simpl in Hfuel; lia].
      intros m' payload Hin. apply Hcodec. by apply list_elem_of_further.
Qed.

End StreamFacts.

Lemma stream_read_back_witness :
  conn.readLoop scenario.tagDecode 3
    (conn.written scenario.tagEncode
       [scenario.hello; scenario.line "bbb" "hi" 1700000001])
  = Some ([conn.received (conn.networkMsgOf scenario.hello);
           conn.received
             (conn.networkMsgOf (scenario.line "bbb" "hi" 1700000001))],
          conn.Ended errors.EOF).
Proof.
  etrans.
  - apply (stream_read_back scenario.tagEncode scenario.tagDecode
             [scenario.hello; scenario.line "bbb" "hi" 1700000001] 3).
    + intros m payload Hin Henc.
      apply elem_of_cons in Hin as [->|Hin];
        [|apply elem_of_cons in Hin as [->|Hin];
          [|by apply elem_of_nil in Hin]];
        vm_compute in Henc; injection Henc as <-; vm_compute; reflexivity.
    + simpl. lia.
  - vm_compute. reflexivity.
Defined.

(* ===================================================================== *)
(** * The socket: the table of connections *)
(* ===================================================================== *)

Section SocketFacts.
Import domain data inmemory socket.




Section Hello.
Variable gobDecode : list byte → conn.NetworkMsg + errors.error.

(** X15.  The first message of an incoming connection.  When it names a
    stored chat and a participant of that chat, the connection is put
    in the table under the user id of the message, in place of the
    connection stored for that id before, which is closed; it is
    started, and the line is added to the chat without error, under
    the name the chat has for the sender.  When the chat is not stored
    or the user is not a participant, the socket is closed and neither
    the store nor the table changes. *)
Theorem handleNewConn_hello (store : store) (s : socket)
    (establishedConn : nat) (stream rest : list byte) (m : conn.NetworkMsg) :
  conn.ReadNetworkMessage gobDecode stream = conn.Returns (inl m, rest) →
  (∀ chat user,
     chats store !! conn.ChatId m = Some chat →
     GetUser chat (conn.UserId m) = Some user →
     ∃ store' chat',
       handleNewConn gobDecode store s establishedConn stream
       = conn.Returns
           (store',
            set_connections s
              (<[conn.UserId m := {| socket.u := user; socket.c := chat;
                                     socket.conn := Some establishedConn |}]>
                 (connections s)),
            Start {| socket.u := user; socket.c := chat;
                     socket.conn := Some establishedConn |}
              :: from_option (λ old, [Close old]) []
                   (connections s !! conn.UserId m))
       ∧ AddChatLine store (conn.received m) = (store', None)
       ∧ chats store' !! conn.ChatId m = Some chat'
       ∧ Chat_Content chat'
         ≡ₚ set_UserName (conn.received m) (User_Name user)
              :: Chat_Content chat)
  ∧ ((chats store !! conn.ChatId m = None
      ∨ ∃ chat, chats store !! conn.ChatId m = Some chat
                ∧ GetUser chat (conn.UserId m) = None) →
     handleNewConn gobDecode store s establishedConn stream
     = conn.Returns (store, s, [CloseSocket establishedConn])).
Proof.
  intros Hread. unfold handleNewConn. rewrite Hread. unfold GetChat. split.
  - intros chat user Hchat Huser. rewrite Hchat, Huser.
    apply GetUser_Some in Huser as Hid. destruct Hid as [Hid _].
    unfold storeConn, storeConnNoLock. rewrite Hid.
    pose proof (AddChatLine_ok store (conn.received m) chat user Hchat Huser)
      as Hadd.
    change (AddChatLine store
              {| Message_ChatId := conn.ChatId m;
                 Message_UserId := conn.UserId m;
                 Message_UserName := "";
                 Message_Text := conn.Message m;
                 Message_At := conn.At m;
                 Message_ErrorMessage := false |})
      with (AddChatLine store (conn.received m)).
    rewrite Hadd. eexists _, _. split; [|split; [done|split]].
    + by destruct (connections s !! conn.UserId m).
    + simpl. apply lookup_insert_eq.
    + simpl. rewrite (Slice_perm lessAt). by rewrite Permutation_app_comm.
  - intros [Hnone|(chat & Hchat & Huser)].
    + by rewrite Hnone.
    + by rewrite Hchat, Huser.
Qed.

(** When no message can be read from the socket, [handleNewConn] leaves
    everything as it is, and the socket open. *)
Lemma handleNewConn_unread (store : store) (s : socket)
    (establishedConn : nat) (stream rest : list byte) (err : errors.error) :
  conn.ReadNetworkMessage gobDecode stream = conn.Returns (inr err, rest) →
  handleNewConn gobDecode store s establishedConn stream
  = conn.Returns (store, s, []).
Proof. intros Hread. unfold handleNewConn. by rewrite Hread. Qed.

(** X16.  [removeConn] closes and removes whatever connection the table
    holds for the user, not the connection that ended.  So when a user
    connects again, and the connection that was replaced ends after
    that, the new connection is closed and the user is left without a
    connection. *)
Theorem removeConn_after_reconnect (store : store) (s : socket)
    (establishedConn : nat) (stream rest : list byte) (m : conn.NetworkMsg)
    (chat : Chat) (user : User) (old : connection) (now : time.Time) :
  conn.ReadNetworkMessage gobDecode stream = conn.Returns (inl m, rest) →
  chats store !! conn.ChatId m = Some chat →
  GetUser chat (conn.UserId m) = Some user →
  connections s !! conn.UserId m = Some old →
  User_Id (socket.u old) = conn.UserId m →
  ∃ store1 s1 new,
    handleNewConn gobDecode store s establishedConn stream
    = conn.Returns (store1, s1, [Start new; Close old])
    ∧ socket.conn new = Some establishedConn
    ∧ connections s1 !! conn.UserId m = Some new
    ∧ (removeConn store1 s1 now (socket.u old) (socket.c old)).1.2
      = set_connections s (delete (conn.UserId m) (connections s))
    ∧ (removeConn store1 s1 now (socket.u old) (socket.c old)).2
      = [Close new].
Proof.
  intros Hread Hchat Huser Hold Hid.
  unfold handleNewConn. rewrite Hread. unfold GetChat.
  rewrite Hchat, Huser.
  apply GetUser_Some in Huser as [Huid _].
  unfold storeConn, storeConnNoLock. rewrite Huid, Hold.
  destruct (AddChatLine store _) as [store1 err].
  eexists _, _, _. split; [done|]. split; [done|].
  split; [simpl; apply lookup_insert_eq|].
  unfold removeConn. rewrite Hid. simpl. rewrite lookup_insert_eq.
  destruct (AddChatLine store1 _) as [store2 err2]. simpl.
  by rewrite delete_insert_eq.
Qed.
End Hello.

End SocketFacts.

Lemma handleNewConn_hello_witness :
  ∃ store' chat',
    socket.handleNewConn scenario.tagDecode scenario.storeA
      {| socket.port := 1000; socket.ip := "10.0.0.1";
         socket.connections := ∅ |} 7
      (conn.written scenario.tagEncode [scenario.line "bbb" "hi" 7])
    = conn.Returns
        (store',
         socket.set_connections
           {| socket.port := 1000; socket.ip := "10.0.0.1";
              socket.connections := ∅ |}
           (<["bbb" := {| socket.u := scenario.userB;
                          socket.c := scenario.storeAChat;
                          socket.conn := Some 7%nat |}]> ∅),
         [socket.Start {| socket.u := scenario.userB;
                          socket.c := scenario.storeAChat;
                          socket.conn := Some 7%nat |}])
    ∧ inmemory.AddChatLine scenario.storeA
        (conn.received (conn.networkMsgOf (scenario.line "bbb" "hi" 7)))
      = (store', None)
    ∧ inmemory.chats store' !! scenario.chatAB = Some chat'
    ∧ domain.Chat_Content chat'
      ≡ₚ [domain.set_UserName
            (conn.received (conn.networkMsgOf (scenario.line "bbb" "hi" 7)))
            "B"].
Proof.
  destruct (handleNewConn_hello scenario.tagDecode scenario.storeA
              {| socket.port := 1000; socket.ip := "10.0.0.1";
                 socket.connections := ∅ |} 7
              (conn.written scenario.tagEncode [scenario.line "bbb" "hi" 7])
              [] (conn.networkMsgOf (scenario.line "bbb" "hi" 7)))
    as [Haccept _]; [vm_compute; reflexivity|].
  apply (Haccept scenario.storeAChat scenario.userB);
    vm_compute; reflexivity.
Defined.

Lemma removeConn_after_reconnect_witness :
  ∃ store1 s1 new,
    socket.handleNewConn scenario.tagDecode scenario.storeA
      {| socket.port := 1000; socket.ip := "10.0.0.1";
         socket.connections :=
           {[ "bbb" := {| socket.u := scenario.userB;
                          socket.c := scenario.storeAChat;
                          socket.conn := Some 3%nat |} ]} |} 7
      (conn.written scenario.tagEncode [scenario.line "bbb" "hi" 7])
    = conn.Returns
        (store1, s1,
         [socket.Start new;
          socket.Close {| socket.u := scenario.userB;
                          socket.c := scenario.storeAChat;
                          socket.conn := Some 3%nat |}])
    ∧ socket.conn new = Some 7%nat
    ∧ socket.connections s1 !! "bbb" = Some new
    ∧ (socket.removeConn store1 s1 {| time.sec := 9; time.nsec := 0 |}
         scenario.userB scenario.storeAChat).1.2
      = socket.set_connections
          {| socket.port := 1000; socket.ip := "10.0.0.1";
             socket.connections :=
               {[ "bbb" := {| socket.u := scenario.userB;
                              socket.c := scenario.storeAChat;
                              socket.conn := Some 3%nat |} ]} |}
          (delete "bbb"
             ({[ "bbb" := {| socket.u := scenario.userB;
                             socket.c := scenario.storeAChat;
                             socket.conn := Some 3%nat |} ]}
              : gmap string socket.connection))
    ∧ (socket.removeConn store1 s1 {| time.sec := 9; time.nsec := 0 |}
         scenario.userB scenario.storeAChat).2
      = [socket.Close new].
Proof.
  pose proof (removeConn_after_reconnect scenario.tagDecode scenario.storeA
           {| socket.port := 1000; socket.ip := "10.0.0.1";
              socket.connections :=
                {[ "bbb" := {| socket.u := scenario.userB;
                               socket.c := scenario.storeAChat;
                               socket.conn := Some 3%nat |} ]} |} 7
           (conn.written scenario.tagEncode [scenario.line "bbb" "hi" 7])
           [] (conn.networkMsgOf (scenario.line "bbb" "hi" 7))
           scenario.storeAChat scenario.userB
           {| socket.u := scenario.userB; socket.c := scenario.storeAChat;
              socket.conn := Some 3%nat |}
           {| time.sec := 9; time.nsec := 0 |}) as Hreconnect.
  cbn [conn.UserId conn.networkMsgOf scenario.line domain.Message_UserId
       socket.u socket.c] in Hreconnect.
  apply Hreconnect; vm_compute; reflexivity.
Defined.

(* ===================================================================== *)
(** * The list of chats of the user interface *)
(* ===================================================================== *)

Section CListFacts.
Import tui.
Context {T : Type} (gen : T → string * string).

Lemma SetItemText_row (c : CList T) (id : string) (ci ci' : clistItem T)
    (l : list (string * string)) :
  consistent gen c →
  items c !! id = Some ci →
  idx ci' = idx ci →
  SetItemText (List c) (idx ci) (rowOf gen ci').1 (rowOf gen ci').2
  = conn.Returns l →
  consistent gen {| List := l; items := <[id := ci']> (items c);
                    itemsIndexes := itemsIndexes c |}.
Proof.
  intros (Hlen & Hitems & Hidx) Hid Hsame. unfold SetItemText.
  destruct (Hitems id ci Hid) as [Hpos Hrow].
  apply lookup_lt_Some in Hrow as Hlt.
  rewrite (proj2 (Nat.ltb_lt _ _) Hlt). intros [= <-].
  split; [|split]; simpl.
  - by rewrite length_insert.
  - intros id0 ci0. destruct (decide (id = id0)) as [<-|Hne].
    + rewrite lookup_insert_eq. intros [= <-]. rewrite Hsame.
      split; [done|]. rewrite list_lookup_insert_eq by done.
      reflexivity.
    + rewrite lookup_insert_ne by done. intros Hid0.
      destruct (Hitems id0 ci0 Hid0) as [Hpos0 Hrow0]. split; [done|].
      rewrite list_lookup_insert_ne; [done|].
      intros Heq. rewrite Heq in Hpos. congruence.
  - intros i id0 Hi. destruct (Hidx i id0 Hi) as (ci0 & Hid0 & <-).
    destruct (decide (id = id0)) as [<-|Hne].
    + exists ci'. rewrite lookup_insert_eq. split; [done|]. congruence.
    + exists ci0. by rewrite lookup_insert_ne.
Qed.

Lemma AddItem_consistent (c : CList T) (id : string) (item : T) :
  consistent gen c →
  ∃ c', AddItem gen c id item = conn.Returns c' ∧ consistent gen c'.
Proof.
  intros Hc. unfold AddItem.
  destruct (items c !! id) as [ci|] eqn:Hid.
  - set (ci' := {| idx := idx ci; obj := item; unread := unread ci |}).
    destruct (gen item) as [mainText secText] eqn:Hgen.
    assert (rowOf gen ci' = (getMainText ci' mainText, secText)) as Hrow
      by (unfold rowOf; simpl; by rewrite Hgen).
    assert (idx ci < length (List c))%nat as Hlt.
    { destruct Hc as (_ & Hitems & _).
      destruct (Hitems id ci Hid) as [_ Hlt]. by eapply lookup_lt_Some. }
    change (idx ci') with (idx ci). unfold SetItemText.
    rewrite (proj2 (Nat.ltb_lt _ _) Hlt).
    eexists. split; [done|].
    eapply (SetItemText_row c id ci ci'); [done..|].
    unfold SetItemText. rewrite (proj2 (Nat.ltb_lt _ _) Hlt).
    by rewrite Hrow.
  - destruct (gen item) as [mainText secText] eqn:Hgen.
    eexists. split; [done|]. destruct Hc as (Hlen & Hitems & Hidx).
    split; [|split]; simpl.
    + rewrite !length_app. simpl. lia.
    + intros id0 ci0. destruct (decide (id = id0)) as [<-|Hne].
      * rewrite lookup_insert_eq. intros [= <-]. simpl.
        split; [by apply list_lookup_middle|].
        rewrite <- Hlen. rewrite list_lookup_middle by done.
        unfold rowOf, getMainText. simpl. by rewrite Hgen.
      * rewrite lookup_insert_ne by done. intros Hid0.
        destruct (Hitems id0 ci0 Hid0) as [Hpos0 Hrow0].
        rewrite !lookup_app_l by by eapply lookup_lt_Some. done.
    + intros i id0 [[Hlt Hi]|[-> <-]]%lookup_snoc_Some.
      * destruct (Hidx i id0 Hi) as (ci0 & Hid0 & <-).
        exists ci0. split; [|done]. rewrite lookup_insert_ne; [done|].
        congruence.
      * eexists. by rewrite lookup_insert_eq.
Qed.

Lemma SetUnreadChat_consistent (c : CList T) (id : string) (status : bool) :
  consistent gen c →
  ∃ c', SetUnreadChat gen c id status = conn.Returns c' ∧ consistent gen c'.
Proof.
  intros Hc. unfold SetUnreadChat.
  destruct (items c !! id) as [ci|] eqn:Hid; [|by exists c].
  set (ci' := {| idx := idx ci; obj := obj ci; unread := status |}).
  simpl. destruct (gen (obj ci)) as [mainText secText] eqn:Hgen.
  assert (rowOf gen ci' = (getMainText ci' mainText, secText)) as Hrow
    by (unfold rowOf; simpl; by rewrite Hgen).
  assert (idx ci < length (List c))%nat as Hlt.
  { destruct Hc as (_ & Hitems & _).
    destruct (Hitems id ci Hid) as [_ Hlt]. by eapply lookup_lt_Some. }
  change (idx ci') with (idx ci). unfold SetItemText.
  rewrite (proj2 (Nat.ltb_lt _ _) Hlt).
  eexists. split; [done|].
  eapply (SetItemText_row c id ci ci'); [done..|].
  unfold SetItemText. rewrite (proj2 (Nat.ltb_lt _ _) Hlt).
  by rewrite Hrow.
Qed.

Lemma built_is_consistent (c : CList T) : built gen c → consistent gen c.
Proof.
  induction 1 as [|c id item c' _ IH Hadd|c id status c' _ IH Hset].
  - split; [done|]. split.
    + intros id ci. simpl. by rewrite lookup_empty.
    + intros i id. simpl. by rewrite lookup_nil.
  - destruct (AddItem_consistent c id item IH) as (c1 & Hadd1 & Hc1).
    congruence.
  - destruct (SetUnreadChat_consistent c id status IH) as (c1 & Hset1 & Hc1).
    congruence.
Qed.

(** X17.  However the handler has used [AddItem] and [SetUnreadChat],
    the list is consistent: there are as many rows as ids, every item
    is at the place its index tells, its row shows the text made from
    it, with "# " in front exactly when it is unread, and no id occurs
    twice.  Neither operation ever panics on such a list. *)
Theorem CList_consistent (c : CList T) :
  built gen c →
  length (List c) = length (itemsIndexes c)
  ∧ NoDup (itemsIndexes c)
  ∧ (∀ id ci, items c !! id = Some ci →
              itemsIndexes c !! idx ci = Some id
              ∧ List c !! idx ci
                = Some (if unread ci then "# " +:+ (gen (obj ci)).1
                        else (gen (obj ci)).1,
                        (gen (obj ci)).2))
  ∧ (∀ id, id ∈ itemsIndexes c ↔ is_Some (items c !! id))
  ∧ (∀ id item, ∃ c', AddItem gen c id item = conn.Returns c')
  ∧ (∀ id status, ∃ c', SetUnreadChat gen c id status = conn.Returns c').
Proof.
  intros Hbuilt. pose proof (built_is_consistent c Hbuilt) as Hc.
  destruct Hc as (Hlen & Hitems & Hidx) eqn:Heq. clear Heq.
  split; [done|]. split; [|split; [|split; [|split]]].
  - apply NoDup_alt. intros i j id Hi Hj.
    destruct (Hidx i id Hi) as (ci & Hci & <-).
    destruct (Hidx j id Hj) as (cj & Hcj & <-). congruence.
  - intros id ci Hid. destruct (Hitems id ci Hid) as [Hpos Hrow].
    split; [done|]. rewrite Hrow. unfold rowOf, getMainText.
    by destruct (unread ci).
  - intros id. split.
    + intros (i & Hi)%list_elem_of_lookup_1.
      destruct (Hidx i id Hi) as (ci & Hci & _). by exists ci.
    + intros [ci Hci]. destruct (Hitems id ci Hci) as [Hpos _].
      by eapply list_elem_of_lookup_2.
  - intros id item.
    destruct (AddItem_consistent c id item (conj Hlen (conj Hitems Hidx)))
      as (c' & Hadd & _). by exists c'.
  - intros id status.
    destruct (SetUnreadChat_consistent c id status
                (conj Hlen (conj Hitems Hidx))) as (c' & Hset & _).
    by exists c'.
Qed.

(** X18.  [RemoveItem] takes the item and its id out, and with them a
    row, but it leaves the indexes of the other items as they are: an
    item that came after the removed one is now one place before the
    place its index tells.  If it was the last item, its index is out
    of range, and removing it panics. *)
Theorem RemoveItem_keeps_indexes (c : CList T) (id id' : string)
    (ci ci' : clistItem T) :
  consistent gen c →
  items c !! id = Some ci → items c !! id' = Some ci' →
  (idx ci < idx ci')%nat →
  ∃ c', RemoveItem c id = conn.Returns c'
        ∧ items c' !! id = None
        ∧ (id ∉ itemsIndexes c')
        ∧ items c' !! id' = Some ci'
        ∧ itemsIndexes c' !! (idx ci' - 1)%nat = Some id'
        ∧ itemsIndexes c' !! idx ci' ≠ Some id'
        ∧ (S (idx ci') = length (itemsIndexes c) →
           RemoveItem c' id' = conn.Panics "slice bounds out of range").
Proof.
  intros (Hlen & Hitems & Hidx) Hid Hid' Hlt.
  destruct (Hitems id ci Hid) as [Hpos Hrow].
  destruct (Hitems id' ci' Hid') as [Hpos' Hrow'].
  apply lookup_lt_Some in Hpos as Hin. apply lookup_lt_Some in Hpos' as Hin'.
  assert (id ≠ id') as Hne by (intros ->; rewrite Hid in Hid'; injection Hid'
                                as ->; lia).
  unfold RemoveItem. rewrite Hid, (proj2 (Nat.ltb_lt _ _) Hin).
  eexists. split; [done|]. simpl.
  split; [apply lookup_delete_eq|].
  split.
  { intros (j & Hj)%list_elem_of_lookup_1.
    destruct (decide (j < idx ci)%nat) as [Hjlt|Hjge].
    - rewrite list_lookup_delete_lt in Hj by done.
      destruct (Hidx j id Hj) as (cj & Hcj & Hjidx).
      rewrite Hid in Hcj. injection Hcj as <-. lia.
    - rewrite list_lookup_delete_ge in Hj by lia.
      destruct (Hidx (S j) id Hj) as (cj & Hcj & Hjidx).
      rewrite Hid in Hcj. injection Hcj as <-. lia. }
  split; [by rewrite lookup_delete_ne|].
  split.
  { rewrite list_lookup_delete_ge by lia.
    by replace (S (idx ci' - 1)) with (idx ci') by lia. }
  split.
  { rewrite list_lookup_delete_ge by lia. intros Hnext.
    destruct (Hidx (S (idx ci')) id' Hnext) as (cj & Hcj & Hjidx).
    rewrite Hid' in Hcj. injection Hcj as <-. lia. }
  intros Hlast. rewrite lookup_delete_ne by done. rewrite Hid'.
  assert (length (delete (idx ci) (itemsIndexes c)) = idx ci') as Hlen'.
  { rewrite length_delete by by eexists. lia. }
  rewrite Hlen'. by rewrite Nat.ltb_irrefl.
Qed.

End CListFacts.

Lemma CList_consistent_witness :
  ∃ ci, tui.items scenario.chatList !! scenario.chatAB = Some ci
        ∧ tui.itemsIndexes scenario.chatList !! tui.idx ci
          = Some scenario.chatAB
        ∧ tui.List scenario.chatList !! tui.idx ci
          = Some ("# B", scenario.chatAB).
Proof.
  assert (tui.built tui.chatText scenario.chatList) as Hbuilt.
  { apply (tui.built_unread _ scenario.chatListAdded scenario.chatAB true);
      [|vm_compute; reflexivity].
    apply (tui.built_add _ tui.NewCustomList scenario.chatAB
             scenario.storeAChat); [apply tui.built_new|].
    vm_compute. reflexivity. }
  destruct (CList_consistent tui.chatText scenario.chatList Hbuilt)
    as (_ & _ & Hrows & _).
  destruct (tui.items scenario.chatList !! scenario.chatAB) as [ci|] eqn:Hci;
    [|vm_compute in Hci; discriminate Hci].
  exists ci. split; [reflexivity|].
  destruct (Hrows scenario.chatAB ci Hci) as [Hpos Hrow].
  split; [exact Hpos|]. rewrite Hrow.
  vm_compute in Hci. injection Hci as <-. vm_compute. reflexivity.
Defined.

Lemma RemoveItem_keeps_indexes_witness :
  ∃ c', tui.RemoveItem scenario.twoChats "k1" = conn.Returns c'
        ∧ tui.items c' !! "k2"
          = Some {| tui.idx := 1; tui.obj := scenario.storeAChat;
                    tui.unread := false |}
        ∧ tui.itemsIndexes c' !! 0%nat = Some "k2"
        ∧ tui.RemoveItem c' "k2" = conn.Panics "slice bounds out of range".
Proof.
  assert (tui.consistent tui.chatText scenario.twoChats) as Hc.
  { apply built_is_consistent.
    apply (tui.built_add _ scenario.oneChat "k2" scenario.storeAChat);
      [|vm_compute; reflexivity].
    apply (tui.built_add _ tui.NewCustomList "k1" scenario.storeAChat);
      [apply tui.built_new|].
    vm_compute. reflexivity. }
  destruct (RemoveItem_keeps_indexes tui.chatText scenario.twoChats "k1" "k2"
              {| tui.idx := 0; tui.obj := scenario.storeAChat;
                 tui.unread := false |}
              {| tui.idx := 1; tui.obj := scenario.storeAChat;
                 tui.unread := false |} Hc)
    as (c' & Hrem & _ & _ & Hk2 & Hpos & _ & Hpanic);
    [vm_compute; reflexivity..|simpl; lia|].
  exists c'. split; [exact Hrem|]. split; [exact Hk2|]. split; [exact Hpos|].
  apply Hpanic. reflexivity.
Defined.

(* ===================================================================== *)
(** * The message field of the user interface *)
(* ===================================================================== *)

Section MessageFieldFacts.
Import domain data inmemory tui.

(** In a reachable store the current user is found in every chat, as
    its owner. *)
Lemma GetUser_current (cu : User) (s : store) (k : string) (c : Chat) :
  reachable cu s → chats s !! k = Some c →
  GetUser c (User_Id cu) = Some cu.
Proof.
  intros Hs Hc.
  destruct (reachable_pairChatOf cu s Hs k c Hc) as (Hown & u & Hu & Hne & _).
  unfold GetUser. rewrite Hu, Hown. simpl.
  rewrite (proj2 (String.eqb_neq _ _) Hne). by rewrite String.eqb_refl.
Qed.

(** X19.  Entering the text of the message field.  A text that is blank
    after [TrimSpace] changes nothing.  Any other text panics when no
    chat has been selected.  With a chat selected that the store of the
    client holds, the line is always accepted: the chat gains one line
    with the trimmed text, the time of the call and the name of the
    current user. *)
Theorem messageDone_cases (cu : User) (s : store) (text : string)
    (now : time.Time) :
  (trim.TrimSpace text = "" →
   ∀ currentChat, messageDone s currentChat text now = conn.Returns s)
  ∧ (trim.TrimSpace text ≠ "" →
     messageDone s None text now
     = conn.Panics "invalid memory address or nil pointer dereference")
  ∧ (trim.TrimSpace text ≠ "" → reachable cu s →
     ∀ chat stored, chats s !! Chat_Id chat = Some stored →
       ∃ s' c',
         messageDone s (Some chat) text now = conn.Returns s'
         ∧ chats s' !! Chat_Id chat = Some c'
         ∧ Chat_Content c'
           ≡ₚ {| Message_ChatId := Chat_Id chat;
                 Message_UserId := User_Id cu;
                 Message_UserName := User_Name cu;
                 Message_Text := trim.TrimSpace text;
                 Message_At := now;
                 Message_ErrorMessage := false |} :: Chat_Content stored
         ∧ ∀ k, k ≠ Chat_Id chat → chats s' !! k = chats s !! k).
Proof.
  unfold messageDone. split; [|split].
  - intros -> currentChat. done.
  - intros Hne. by destruct (trim.TrimSpace text).
  - intros Hne Hs chat stored Hstored.
    destruct (trim.TrimSpace text) as [|b txt] eqn:Htxt; [done|].
    cbn [String.length Nat.ltb Nat.leb].
    unfold CurrentUser. rewrite (reachable_currentUser cu s Hs).
    pose proof (GetUser_current cu s _ stored Hs Hstored) as Huser.
    erewrite AddChatLine_ok; [|exact Hstored|exact Huser].
    eexists _, _. split; [done|]. simpl.
    split; [apply lookup_insert_eq|]. simpl. split.
    + rewrite (Slice_perm lessAt). by rewrite Permutation_app_comm.
    + intros k Hk. by rewrite lookup_insert_ne.
Qed.

End MessageFieldFacts.

Lemma messageDone_cases_witness :
  ∃ s' c',
    tui.messageDone scenario.storeA (Some scenario.storeAChat) "  hi "
      {| time.sec := 5; time.nsec := 0 |} = conn.Returns s'
    ∧ inmemory.chats s' !! scenario.chatAB = Some c'
    ∧ domain.Chat_Content c'
      ≡ₚ [{| domain.Message_ChatId := scenario.chatAB;
             domain.Message_UserId := "aaa";
             domain.Message_UserName := "A";
             domain.Message_Text := "hi";
             domain.Message_At := {| time.sec := 5; time.nsec := 0 |};
             domain.Message_ErrorMessage := false |}].
Proof.
  destruct (messageDone_cases scenario.userA scenario.storeA "  hi "
              {| time.sec := 5; time.nsec := 0 |}) as (_ & _ & Hdone).
  destruct (Hdone ltac:(vm_compute; discriminate)
              ltac:(apply (inmemory.reachable_refresh _
                             (inmemory.NewStore scenario.userA)
                             [scenario.userA; scenario.userB]
                             (λ m, (map_to_list m).*2)
                             (inmemory.reachable_new _));
                    intros m; reflexivity)
              scenario.storeAChat scenario.storeAChat
              ltac:(vm_compute; reflexivity))
    as (s' & c' & Hs' & Hc' & Hcontent & _).
  exists s', c'. split; [exact Hs'|]. split; [exact Hc'|]. exact Hcontent.
Defined.

(* ===================================================================== *)
(** * The sync with the directory *)
(* ===================================================================== *)

Section SyncFacts.
Import domain errors inmemory directoryclient.
Variable jsonUnmarshalUsers : string → list User + error.
Variable NewRequest : Request → Request + error.
Variable Do : Request → Response + error.
Variable s : string.
Variable jsonUnmarshal : string → option directory.Client.
Variable jsonMarshalClients : list directory.Client → option string.
Variable items : gmap string directory.Client → list directory.Client.

(** [Users] returns a list only for an answer with the status 200 and a
    body that can be read and decoded. *)
Lemma Users_inv (users : list User) :
  Users jsonUnmarshalUsers NewRequest Do s = inl users →
  ∃ req resp b,
    NewRequest {| method := "GET"; url := s +:+ "/clients"; body := None |}
    = inl req
    ∧ Do req = inl resp
    ∧ StatusCode resp = 200
    ∧ Body resp = directory.BodyBytes b
    ∧ jsonUnmarshalUsers b = inl users.
Proof.
  unfold Users.
  change (strings.Join [s; clientsHTTPContext] "/") with (s +:+ "/clients").
  unfold clientsHTTPMethod.
  destruct (NewRequest _) as [req|] eqn:Hreq; [|done].
  destruct (Do req) as [resp|] eqn:Hdo; [|done].
  destruct (Z.eqb_spec (StatusCode resp) 200) as [Hok|]; [|done]. simpl.
  destruct (Body resp) as [| |b] eqn:Hb; [done..|].
  intros Hdecode. by exists req, resp, b.
Qed.

(** X20.  The sync, end to end.  When the transport delivers the request
    of [Users] to the server as a [GET /clients] and brings back the
    answer, and the client decodes the answer to the users with the
    fields of the records the server marshalled, then after
    [loadClients] the store holds, for every record of the registry
    with another id than the current user's, the pair chat with that
    user, and the chat is online.  When [Users] fails, the store is left
    as it is. *)
Theorem loadClients_end_to_end (range : gmap string Chat → list Chat)
    (store : store) (reg : gmap string directory.Client) (m : string)
    (req : Request) :
  rangeOrder range → store_wf store →
  items reg ≡ₚ (map_to_list reg).*2 →
  jsonMarshalClients (items reg) = Some m →
  NewRequest {| method := "GET"; url := s +:+ "/clients"; body := None |}
  = inl req →
  Do req = inl (answer (directory.ServeHTTP jsonUnmarshal jsonMarshalClients
                          items reg clientsRequest).2) →
  jsonUnmarshalUsers m = inl (userOf <$> items reg) →
  Users jsonUnmarshalUsers NewRequest Do s = inl (userOf <$> items reg)
  ∧ (∀ k c, reg !! k = Some c →
       directory.ID c ≠ User_Id (currentUser store) →
       ∃ chat,
         chats (main.loadClients range
                  (Users jsonUnmarshalUsers NewRequest Do s) store)
           !! pairChatId (currentUser store) (userOf c) = Some chat
         ∧ Chat_Offline chat = false)
  ∧ (∀ err, main.loadClients range (inr err) store = store).
Proof.
  intros Hrange Hwf Hitems Hmarshal Hreq Hdo Hdecode.
  assert (Users jsonUnmarshalUsers NewRequest Do s
          = inl (userOf <$> items reg)) as Husers.
  { unfold Users.
    change (strings.Join [s; clientsHTTPContext] "/") with (s +:+ "/clients").
    unfold clientsHTTPMethod. rewrite Hreq, Hdo.
    unfold directory.ServeHTTP, clientsRequest,
      directory.clientsHandler, directory.GetClients. simpl.
    by rewrite Hmarshal. }
  split; [done|]. split; [|done].
  intros k c Hc Hne. rewrite Husers. unfold main.loadClients.
  destruct (RefreshUsersIn_spec range store (userOf <$> items reg) Hrange Hwf)
    as (s' & -> & _ & Hk).
  simpl. rewrite Hk.
  destruct (lastListed (currentUser store) (userOf <$> items reg)
              (pairChatId (currentUser store) (userOf c))) as [u'|] eqn:Hlast.
  - by eexists.
  - exfalso.
    eapply (proj1 (lastListed_None _ _ _) Hlast (userOf c)); [|done..].
    apply list_elem_of_fmap_2. rewrite Hitems.
    apply list_elem_of_fmap. exists (k, c). split; [done|].
    by apply elem_of_map_to_list.
Qed.

End SyncFacts.

Lemma loadClients_end_to_end_witness :
  ∃ chat,
    inmemory.chats
      (main.loadClients (λ m, (map_to_list m).*2)
         (directoryclient.Users
            (scenario.unmarshalUsersOf scenario.registryB) inl
            (scenario.deliverClients scenario.registryB) "http://directory")
         (inmemory.NewStore scenario.userA))
      !! inmemory.pairChatId scenario.userA scenario.userB = Some chat
    ∧ domain.Chat_Offline chat = false.
Proof.
  destruct (loadClients_end_to_end
              (scenario.unmarshalUsersOf scenario.registryB) inl
              (scenario.deliverClients scenario.registryB) "http://directory"
              (scenario.unmarshalClientOf scenario.userB)
              scenario.marshalClients scenario.valuesOf
              (λ m, (map_to_list m).*2)
              (inmemory.NewStore scenario.userA)
              scenario.registryB "{}" _
              ltac:(intros m; reflexivity)
              (NewStore_wf scenario.userA)
              ltac:(reflexivity) eq_refl eq_refl eq_refl eq_refl)
    as (_ & Hchats & _).
  apply (Hchats "bbb" (directoryclient.clientOf scenario.userB)).
  - vm_compute. reflexivity.
  - vm_compute. discriminate.
Defined.

(* ===================================================================== *)
(** * The socket: the address; the read loop on any stream *)
(* ===================================================================== *)

Section AddressFacts.
Import errors socket.

(** X21.  [findIp] returns the text of the first interface address that
    is an IP network address, is not a loopback address and is an IPv4
    address; it fails with the error of [net.InterfaceAddrs], or with
    "could not figure out the IP of your machine" when there is no such
    address.  [NewSocket] keeps that text as the address of the socket
    and has no connections. *)
Theorem findIp_first_ipv4 (interfaceAddrs : list net.Addr + error) :
  match findIp interfaceAddrs with
  | inl text =>
      (∃ before after,
         interfaceAddrs
         = inl (before ++ net.IPNet false true text :: after)%list
         ∧ Forall (λ a, ∀ t, a ≠ net.IPNet false true t) before)
      ∧ NewSocket interfaceAddrs
        = inl {| port := 0; ip := text; connections := ∅ |}
  | inr err =>
      (interfaceAddrs = inr err
       ∨ ∃ addrs,
           interfaceAddrs = inl addrs
           ∧ err = New "could not figure out the IP of your machine"
           ∧ Forall (λ a, ∀ t, a ≠ net.IPNet false true t) addrs)
      ∧ NewSocket interfaceAddrs = inr err
  end.
Proof.
  unfold NewSocket. destruct interfaceAddrs as [addrs|err]; simpl.
  - pose proof (firstIp_spec addrs) as Hspec.
    destruct (firstIp addrs) as [text|err].
    + destruct Hspec as (before & after & -> & Hbefore).
      split; [|done]. exists before, after. split; [done|].
      by apply Forall_forall.
    + destruct Hspec as [-> Hall]. split; [|done]. right. exists addrs.
      split; [done|]. split; [done|]. by apply Forall_forall.
  - split; [by left|done].
Qed.

End AddressFacts.

Section ReadLoopFacts.
Import errors conn.
Variable gobDecode : list byte → NetworkMsg + error.

(** A message that is read takes at least the five bytes of its header
    from the stream. *)
Lemma ReadNetworkMessage_consumes (c rest : list byte) (m : NetworkMsg) :
  ReadNetworkMessage gobDecode c = Returns (inl m, rest) →
  (length rest + 5 <= length c)%nat.
Proof.
  destruct (decide (5 <= length c)%nat) as [Hlen|Hlen].
  - rewrite <- (take_drop 5 c) at 1.
    rewrite ReadNetworkMessage_header by (rewrite length_take; lia).
    destruct (strconv.Atoi _) as [size|]; [|done].
    destruct (size <? 0); [done|].
    assert (length (drop 5 c) + 5 <= length c)%nat as Hdrop
      by (rewrite length_drop; lia).
    unfold io.ReadFull.
    destruct (Z.to_nat size) as [|n].
    { destruct (gobDecode []); [|done]. intros [= _ <-]. done. }
    destruct (drop 5 c) as [|b l] eqn:Hl; [done|].
    destruct (length (b :: l) <? S n)%nat; [done|].
    destruct (gobDecode _); [|done]. intros [= _ <-].
    rewrite length_drop. simpl in Hdrop. lia.
  - unfold ReadNetworkMessage, io.ReadFull.
    destruct c as [|b c]; [done|].
    rewrite (proj2 (Nat.ltb_lt _ _)) by lia. done.
Qed.

(** The read loop ends on every stream: as many turns as the stream has
    bytes, and one more, are enough. *)
Lemma readLoop_ends (fuel : nat) :
  ∀ c : list byte,
    (length c < fuel)%nat → is_Some (readLoop gobDecode fuel c).
Proof.
  induction fuel as [|fuel IH]; intros c Hlen; [lia|].
  cbn [readLoop].
  destruct (ReadNetworkMessage gobDecode c) as [[[m|err] rest]|reason] eqn:Hr;
    [|done..].
  apply ReadNetworkMessage_consumes in Hr.
  destruct (IH rest) as [[ms e] ->]; [lia|]. done.
Qed.

End ReadLoopFacts.

(* ===================================================================== *)
(** * A line from one client to another *)
(* ===================================================================== *)

Section DeliveryFacts.
Import domain data inmemory conn.
Variable gobEncode : NetworkMsg → list byte + errors.error.
Variable gobDecode : list byte → NetworkMsg + errors.error.

(** The store of a new client after a sync that listed [u]. *)
Lemma RefreshUsers_first (range : gmap string Chat → list Chat)
    (cu u : User) :
  rangeOrder range → User_Id u ≠ User_Id cu →
  chats (RefreshUsersIn range (NewStore cu) [u]).1 !! pairChatId cu u
  = Some {| Chat_Id := pairChatId cu u;
            Chat_OwnerUser := cu;
            Chat_Users := [u];
            Chat_Content := [];
            Chat_Offline := false |}.
Proof.
  intros Hrange Hne.
  destruct (RefreshUsersIn_spec range (NewStore cu) [u] Hrange
              (NewStore_wf cu)) as (s' & -> & _ & Hk).
  simpl. rewrite Hk. simpl.
  rewrite (proj2 (String.eqb_neq _ _) Hne), String.eqb_refl. simpl.
  unfold listedChat. simpl. by rewrite lookup_empty.
Qed.

(** X22.  A line from A to B.  Let A and B be two clients with
    different ids, each with a new store that a sync has told of the
    other.  Both hold the chat of the two under the same id.  A line
    that A submits to that chat is accepted by A's store; when the codec
    encodes it into at most 65535 bytes that it decodes back, the frame
    A writes for it is read at B as one message, and B's store accepts
    that message: B's chat with A then holds exactly that line, with
    its text and time, under the name B's sync gave for A. *)
Theorem line_from_A_to_B (rangeA rangeB : gmap string Chat → list Chat)
    (A B : User) (text : string) (at_ : time.Time) (payload : list byte) :
  rangeOrder rangeA → rangeOrder rangeB →
  User_Id A ≠ User_Id B →
  gobEncode (networkMsgOf
               {| Message_ChatId := pairChatId A B;
                  Message_UserId := User_Id A;
                  Message_UserName := "";
                  Message_Text := text;
                  Message_At := at_;
                  Message_ErrorMessage := false |}) = inl payload →
  Z.of_nat (length payload) <= MaxUint16 →
  gobDecode payload
  = inl (networkMsgOf
           {| Message_ChatId := pairChatId A B;
              Message_UserId := User_Id A;
              Message_UserName := "";
              Message_Text := text;
              Message_At := at_;
              Message_ErrorMessage := false |}) →
  ∃ (frame : list byte) (sA sB : store) (cA cB : Chat),
    pairChatId A B = pairChatId B A
    ∧ AddChatLine (RefreshUsersIn rangeA (NewStore A) [B]).1
        {| Message_ChatId := pairChatId A B;
           Message_UserId := User_Id A;
           Message_UserName := "";
           Message_Text := text;
           Message_At := at_;
           Message_ErrorMessage := false |} = (sA, None)
    ∧ chats sA !! pairChatId A B = Some cA
    ∧ written gobEncode
        [{| Message_ChatId := pairChatId A B;
            Message_UserId := User_Id A;
            Message_UserName := User_Name A;
            Message_Text := text;
            Message_At := at_;
            Message_ErrorMessage := false |}] = frame
    ∧ ∃ received,
        readLoop gobDecode 2 frame = Some ([received], Ended errors.EOF)
        ∧ AddChatLine (RefreshUsersIn rangeB (NewStore B) [A]).1 received
          = (sB, None)
        ∧ chats sB !! pairChatId A B = Some cB
        ∧ Chat_Content cB = Chat_Content cA
        ∧ Chat_Content cB
          = [{| Message_ChatId := pairChatId A B;
                Message_UserId := User_Id A;
                Message_UserName := User_Name A;
                Message_Text := text;
                Message_At := at_;
                Message_ErrorMessage := false |}].
Proof.
  intros HrA HrB Hne Henc Hmax Hdec.
  assert (pairChatId A B = pairChatId B A) as Hsym
    by apply chatIdOf_perm, Permutation_swap.
  pose proof (RefreshUsers_first rangeA A B HrA (not_eq_sym Hne)) as HcA.
  pose proof (RefreshUsers_first rangeB B A HrB Hne) as HcB.
  rewrite <- Hsym in HcB.
  set (m := {| Message_ChatId := pairChatId A B;
               Message_UserId := User_Id A;
               Message_UserName := "";
               Message_Text := text;
               Message_At := at_;
               Message_ErrorMessage := false |}) in *.
  set (stored := {| Message_ChatId := pairChatId A B;
                    Message_UserId := User_Id A;
                    Message_UserName := User_Name A;
                    Message_Text := text;
                    Message_At := at_;
                    Message_ErrorMessage := false |}).
  assert (writeToConn gobEncode stored
          = Some (list_byte_of_string
                    (fmt.Sprintf_05d (Z.of_nat (length payload)))
                    ++ payload)%list) as Hw.
  { unfold writeToConn.
    change (networkMsgOf stored) with (networkMsgOf m). rewrite Henc.
    by destruct (Z.gtb_spec (Z.of_nat (length payload)) MaxUint16); [lia|]. }
  exists (list_byte_of_string (fmt.Sprintf_05d (Z.of_nat (length payload)))
            ++ payload)%list.
  eexists _, _, _, _. split; [done|]. split.
  { eapply (AddChatLine_ok _ m); [exact HcA|].
    unfold GetUser. simpl.
    rewrite (proj2 (String.eqb_neq _ _) (not_eq_sym Hne)).
    by rewrite String.eqb_refl. }
  split; [simpl; apply lookup_insert_eq|].
  split; [unfold written; simpl; rewrite Hw; simpl; apply app_nil_r|].
  exists m. split.
  { cbn [readLoop].
    rewrite <- (app_nil_r (list_byte_of_string _ ++ payload)%list).
    rewrite (frame_read_back gobEncode gobDecode stored _ [] Hw).
    - done.
    - intros payload'. change (networkMsgOf stored) with (networkMsgOf m).
      rewrite Henc. by intros [= <-]. }
  split.
  { eapply (AddChatLine_ok _ m); [exact HcB|].
    unfold GetUser. simpl. by rewrite String.eqb_refl. }
  split; [simpl; apply lookup_insert_eq|]. done.
Qed.

End DeliveryFacts.

Lemma line_from_A_to_B_witness :
  ∃ (frame : list byte) (sA sB : inmemory.store) (cA cB : domain.Chat),
    inmemory.pairChatId scenario.userA scenario.userB
    = inmemory.pairChatId scenario.userB scenario.userA
    ∧ inmemory.AddChatLine
        (inmemory.RefreshUsers (inmemory.NewStore scenario.userA)
           [scenario.userB]).1 scenario.hello = (sA, None)
    ∧ inmemory.chats sA !! scenario.chatAB = Some cA
    ∧ conn.written scenario.tagEncode
        [domain.set_UserName scenario.hello "A"] = frame
    ∧ ∃ received,
        conn.readLoop scenario.tagDecode 2 frame
        = Some ([received], conn.Ended errors.EOF)
        ∧ inmemory.AddChatLine
            (inmemory.RefreshUsers (inmemory.NewStore scenario.userB)
               [scenario.userA]).1 received = (sB, None)
        ∧ inmemory.chats sB !! scenario.chatAB = Some cB
        ∧ domain.Chat_Content cB = domain.Chat_Content cA
        ∧ domain.Chat_Content cB = [domain.set_UserName scenario.hello "A"].
Proof.
  apply (line_from_A_to_B scenario.tagEncode scenario.tagDecode
           (λ m, (map_to_list m).*2) (λ m, (map_to_list m).*2)
           scenario.userA scenario.userB "hello"
           {| time.sec := 1700000000; time.nsec := 0 |}
           scenario.helloPayload).
  - intros m. reflexivity.
  - intros m. reflexivity.
  - vm_compute. discriminate.
  - vm_compute. reflexivity.
  - vm_compute. discriminate.
  - vm_compute. reflexivity.
Defined.

(* ===================================================================== *)
(** * The socket and the list on known values *)
(* ===================================================================== *)

(** With the ports 1000 to 1002 in use the socket listens on 1003; an
    error other than "address in use" ends the search. *)
Example listenOnAvailablePort_examples :
  socket.listenOnAvailablePort
    (λ i, if i <? 1003 then net.AddrInUse else net.Listening) = inl 1003
  ∧ socket.listenOnAvailablePort
      (λ i, if i <? 1001 then net.AddrInUse
            else net.ListenFailed (errors.New "permission denied"))
    = inr (errors.New "permission denied")
  ∧ socket.listenOnAvailablePort (λ _, net.AddrInUse)
    = inr (errors.New "no available port").
Proof. repeat split; vm_compute; reflexivity. Qed.

(** A's line for the chat with B, with no connection to B yet: one is
    made, stored for B, started, and the line is sent on it. *)
Example messageHandler_example :
  socket.messageHandler scenario.storeA
    {| socket.port := 1000; socket.ip := "10.0.0.1";
       socket.connections := ∅ |}
    (scenario.line "aaa" "hi" 5)
  = ({| socket.port := 1000; socket.ip := "10.0.0.1";
        socket.connections :=
          {[ "bbb" := {| socket.u := scenario.userB;
                         socket.c := scenario.storeAChat;
                         socket.conn := None |} ]} |},
     [socket.Start {| socket.u := scenario.userB;
                      socket.c := scenario.storeAChat;
                      socket.conn := None |};
      socket.SendMessage {| socket.u := scenario.userB;
                            socket.c := scenario.storeAChat;
                            socket.conn := None |}
                         (scenario.line "aaa" "hi" 5)]).
Proof. vm_compute. reflexivity. Qed.

(** The rows of the list of chats: the name of the other user, marked
    when a line is unread; after the first of two items is removed the
    second keeps the index 1. *)
Example CList_examples :
  tui.List scenario.chatListAdded = [("B", scenario.chatAB)]
  ∧ tui.List scenario.chatList = [("# B", scenario.chatAB)]
  ∧ tui.chatText (domain.set_Offline scenario.storeAChat true)
    = ("B (offline)", scenario.chatAB)
  ∧ (tui.idx <$> tui.items (scenario.returned
                              (tui.RemoveItem scenario.twoChats "k1"))
             !! "k2") = Some 1%nat
  ∧ tui.itemsIndexes (scenario.returned
                        (tui.RemoveItem scenario.twoChats "k1")) = ["k2"].
Proof. repeat split; vm_compute; reflexivity. Qed.
